(** * Normalisation and geocoding pipeline of the dispatch adapters

    A shallow embedding of the per-city adapters ([nashville.js], [pdx.js],
    [sf.js] and its bounding-box variant) and of [services/geocode.js],
    followed by the properties established about them.

    Conventions of the embedding.
    - A JavaScript string is a [string]; the text functions cover the ASCII
      range ([\s] is tab, line feed, vertical tab, form feed, carriage
      return and space; case mapping acts on [A-Z]/[a-z]).
    - A JavaScript number is a [num]: an exact rational when finite, or one
      of [NaN], [+Infinity], [-Infinity].  Rounding to binary64 is not
      represented; overflow to an infinity when a literal is read is.
    - A dynamically typed datum (a JSON row, a parsed XML node, a property
      bag) is a [value].  Reading a property of [null] or [undefined] throws;
      functions that can throw return a [result].
    - Regular expressions are terms of [Regex.re] run by a backtracking
      matcher with the greedy, leftmost semantics of the source language.
    - [String(v)], [Number(v)] and [v.toString()] throw a TypeError on an
      object that has a member named [toString]: a parsed JSON or XML value
      holds no function.  [JsValue.to_String] is the conversion when it
      returns, [JsConv.String_of] the conversion with its exception.
    - [mapWithConcurrency] is [Pool]: its runners, and a schedule that
      lists which runner goes on and what the resolver answers.  The
      functions [geocode_all] run the workers one after the other, which is
      one run of the pool; the modules [NashvilleAdapter], [PdxAdapter] and
      [SfAdapter] are the fetches with the pool and with their
      exceptions. *)

From Stdlib Require Import ZArith QArith Qabs Qround Lia Ascii.
From stdpp Require Import base option list gmap strings pretty.
Close Scope Q_scope.
Close Scope Z_scope.


(** ** Strings *)

Module JsString.

(** [\s] and the characters removed by [trim], within ASCII. *)
Definition is_space (c : ascii) : bool :=
  match N_of_ascii c with
  | 9%N | 10%N | 11%N | 12%N | 13%N | 32%N => true
  | _ => false
  end.

Definition is_digit (c : ascii) : bool :=
  let n := N_of_ascii c in (48 <=? n)%N && (n <=? 57)%N.

Definition is_lower (c : ascii) : bool :=
  let n := N_of_ascii c in (97 <=? n)%N && (n <=? 122)%N.

Definition is_upper (c : ascii) : bool :=
  let n := N_of_ascii c in (65 <=? n)%N && (n <=? 90)%N.

Definition is_alpha (c : ascii) : bool := is_lower c || is_upper c.

(** [\w] *)
Definition is_word (c : ascii) : bool :=
  is_alpha c || is_digit c || Ascii.eqb c "_".

Definition lower_char (c : ascii) : ascii :=
  if is_upper c then ascii_of_N (N_of_ascii c + 32) else c.

Definition upper_char (c : ascii) : ascii :=
  if is_lower c then ascii_of_N (N_of_ascii c - 32) else c.

Fixpoint toLowerCase (s : string) : string :=
  match s with
  | EmptyString => EmptyString
  | String c r => String (lower_char c) (toLowerCase r)
  end.

Fixpoint toUpperCase (s : string) : string :=
  match s with
  | EmptyString => EmptyString
  | String c r => String (upper_char c) (toUpperCase r)
  end.

Fixpoint trimStart (s : string) : string :=
  match s with
  | EmptyString => EmptyString
  | String c r => if is_space c then trimStart r else s
  end.

Fixpoint trimEnd (s : string) : string :=
  match s with
  | EmptyString => EmptyString
  | String c r =>
      match trimEnd r with
      | EmptyString => if is_space c then EmptyString else String c EmptyString
      | r' => String c r'
      end
  end.

Definition trim (s : string) : string := trimEnd (trimStart s).

(** [s.replace(/\s+/g, " ")]: every maximal run of white space becomes one
    space; [in_run] records that the previous character was white space. *)
Fixpoint collapse_from (in_run : bool) (s : string) : string :=
  match s with
  | EmptyString => EmptyString
  | String c r =>
      if is_space c
      then (if in_run then collapse_from true r
            else String " " (collapse_from true r))
      else String c (collapse_from false r)
  end.

Definition collapse_spaces (s : string) : string := collapse_from false s.

Definition is_empty (s : string) : bool :=
  match s with EmptyString => true | _ => false end.

(** [s.slice(n)] for [0 <= n]. *)
Fixpoint drop (n : nat) (s : string) : string :=
  match n, s with
  | S n', String _ r => drop n' r
  | _, _ => s
  end.

(** [s.slice(0, n)] for [0 <= n]. *)
Fixpoint take (n : nat) (s : string) : string :=
  match n, s with
  | S n', String c r => String c (take n' r)
  | _, _ => EmptyString
  end.

Fixpoint startsWith (p s : string) : bool :=
  match p, s with
  | EmptyString, _ => true
  | String a p', String b s' => Ascii.eqb a b && startsWith p' s'
  | _, _ => false
  end.

(** [s.indexOf(p)]; [None] stands for [-1]. *)
Fixpoint indexOf (p s : string) : option nat :=
  if startsWith p s then Some 0
  else match s with
       | EmptyString => None
       | String _ r => S <$> indexOf p r
       end.

Definition includes (p s : string) : bool := bool_decide (is_Some (indexOf p s)).

(** [s.split(sep)] for a non-empty separator; [fuel] bounds the number of
    pieces, the length of [s] plus one being always enough. *)
Fixpoint split_go (fuel : nat) (sep s : string) : list string :=
  match fuel with
  | O => [s]
  | S fuel' =>
      match indexOf sep s with
      | None => [s]
      | Some i => take i s :: split_go fuel' sep (drop (i + String.length sep) s)
      end
  end.

Definition split (sep s : string) : list string :=
  split_go (S (String.length s)) sep s.

(** [parts.join(sep)] on strings. *)
Fixpoint join (sep : string) (parts : list string) : string :=
  match parts with
  | [] => ""
  | [p] => p
  | p :: rest => p +:+ sep +:+ join sep rest
  end.

End JsString.

(** ** Regular expressions *)

Module Regex.
Import JsString.

(** The fragment of the pattern language used by the adapters.  Groups are
    numbered as in the source, by their opening parenthesis. *)
Inductive re : Type :=
| Eps                               (* the empty pattern *)
| Class (p : ascii -> bool)         (* one character of a class *)
| Seq (a b : re)                    (* ab *)
| Alt (a b : re)                    (* a|b, left alternative first *)
| Star (a : re)                     (* a*, greedy *)
| Group (i : nat) (a : re)          (* capturing group number i *)
| Bol                               (* ^ *)
| Eol                               (* $ *)
| WordB.                            (* \b *)

Definition Plus (a : re) : re := Seq a (Star a).
Definition Opt (a : re) : re := Alt a Eps.

(** [a{n}] and [a{n,m}] for [n <= m]. *)
Fixpoint Times (n : nat) (a : re) : re :=
  match n with O => Eps | S n' => Seq a (Times n' a) end.
Fixpoint UpTo (n : nat) (a : re) : re :=
  match n with O => Eps | S n' => Opt (Seq a (UpTo n' a)) end.
Definition Rep (n m : nat) (a : re) : re := Seq (Times n a) (UpTo (m - n) a).
(** [a{n,}] *)
Definition AtLeast (n : nat) (a : re) : re := Seq (Times n a) (Star a).

Definition chr (c : ascii) : re := Class (Ascii.eqb c).
(** a character under the [i] flag *)
Definition chr_i (c : ascii) : re :=
  Class (fun x => Ascii.eqb (lower_char x) (lower_char c)).

Fixpoint lit (s : string) : re :=
  match s with
  | EmptyString => Eps
  | String c EmptyString => chr c
  | String c r => Seq (chr c) (lit r)
  end.
Fixpoint lit_i (s : string) : re :=
  match s with
  | EmptyString => Eps
  | String c EmptyString => chr_i c
  | String c r => Seq (chr_i c) (lit_i r)
  end.

Fixpoint alts (l : list re) : re :=
  match l with
  | [] => Class (fun _ => false)
  | [a] => a
  | a :: r => Alt a (alts r)
  end.
Fixpoint seqs (l : list re) : re :=
  match l with
  | [] => Eps
  | [a] => a
  | a :: r => Seq a (seqs r)
  end.

Definition space : re := Class is_space.               (* \s *)
Definition digit : re := Class is_digit.               (* \d *)
Definition none_of (c : ascii) : re := Class (fun x => negb (Ascii.eqb x c)).

(** Captures recorded so far, most recent first. *)
Definition caps : Type := list (nat * string).

Definition capture (i : nat) (c : caps) : option string :=
  snd <$> List.find (fun p => Nat.eqb (fst p) i) c.

(** The matcher, in continuation-passing style: [prev] is the character just
    before the current position ([None] at the start of the input), [s] what
    remains of the input, and the continuation is what has to match after
    the pattern; a failure of the continuation makes the pattern try its
    next alternative.  An iteration of [Star] that consumes nothing is
    rejected, as in the source language. *)
Definition cont : Type := option ascii -> string -> caps -> option (string * caps).

Definition word_at (o : option ascii) : bool :=
  match o with Some c => is_word c | None => false end.

Definition head (s : string) : option ascii :=
  match s with String c _ => Some c | EmptyString => None end.

(** greedy iteration of [step]: at most [n] rounds, each of which has to
    consume a character; when no further round leads to a match, the
    continuation is tried from where the iteration stands *)
Fixpoint star_loop
    (step : option ascii -> string -> caps -> cont -> option (string * caps))
    (k : cont) (n : nat) (prev : option ascii) (s : string) (c : caps)
  : option (string * caps) :=
  match n with
  | O => k prev s c
  | S n' =>
      match step prev s c
              (fun p' s' c' =>
                 if String.length s' <? String.length s
                 then star_loop step k n' p' s' c' else None) with
      | Some v => Some v
      | None => k prev s c
      end
  end.

Fixpoint run (r : re) (prev : option ascii) (s : string) (c : caps) (k : cont)
  : option (string * caps) :=
  match r with
  | Eps => k prev s c
  | Class p =>
      match s with
      | String x s' => if p x then k (Some x) s' c else None
      | EmptyString => None
      end
  | Seq a b => run a prev s c (fun p' s' c' => run b p' s' c' k)
  | Alt a b =>
      match run a prev s c k with
      | Some v => Some v
      | None => run b prev s c k
      end
  | Star a => star_loop (run a) k (String.length s) prev s c
  | Group i a =>
      run a prev s c
        (fun p' s' c' =>
           k p' s' ((i, take (String.length s - String.length s') s) :: c'))
  | Bol => match prev with None => k prev s c | Some _ => None end
  | Eol => match s with EmptyString => k prev s c | _ => None end
  | WordB => if xorb (word_at prev) (word_at (head s)) then k prev s c else None
  end.

(** A match: the text before it, the matched text, the text after it, and
    the captures. *)
Record found : Type := Found {
  before : string;
  matched : string;
  after : string;
  groups : caps
}.

(** the continuation that ends a match wherever the pattern ends *)
Definition accept : cont := fun _ s' c' => Some (s', c').

Definition match_here (r : re) (prev : option ascii) (s : string)
  : option (string * caps) :=
  run r prev s [] accept.

(** Leftmost match at or after the current position; [pre] is the text
    already passed, in reverse. *)
Fixpoint search_from (r : re) (prev : option ascii) (pre : string) (s : string)
  : option found :=
  match match_here r prev s with
  | Some (s', c) =>
      Some (Found (String.rev pre)
                  (take (String.length s - String.length s') s) s' c)
  | None =>
      match s with
      | EmptyString => None
      | String x s' => search_from r (Some x) (String x pre) s'
      end
  end.

(** [re.exec(s)] / [s.match(re)] without the [g] flag *)
Definition exec (r : re) (s : string) : option found := search_from r None "" s.

(** [re.test(s)] *)
Definition test (r : re) (s : string) : bool := bool_decide (is_Some (exec r s)).

(** [s.replace(re, f)] without the [g] flag *)
Definition replace_with (r : re) (f : found -> string) (s : string) : string :=
  match exec r s with
  | Some m => before m +:+ f m +:+ after m
  | None => s
  end.

Definition replace (r : re) (by_ : string) (s : string) : string :=
  replace_with r (fun _ => by_) s.

Definition last_char (prev : option ascii) (s : string) : option ascii :=
  match String.rev s with String c _ => Some c | EmptyString => prev end.

(** [s.replace(re, f)] with the [g] flag: after a match the search resumes
    where it ended, one character further when the match was empty. *)
Fixpoint replace_all_go (fuel : nat) (r : re) (f : found -> string)
    (prev : option ascii) (s : string) : string :=
  match fuel with
  | O => s
  | S fuel' =>
      match search_from r prev "" s with
      | None => s
      | Some m =>
          match matched m, after m with
          | EmptyString, String x rest =>
              before m +:+ f m +:+ String x EmptyString
                +:+ replace_all_go fuel' r f (Some x) rest
          | EmptyString, EmptyString => before m +:+ f m
          | _, rest =>
              before m +:+ f m
                +:+ replace_all_go fuel' r f
                      (last_char prev (before m +:+ matched m)) rest
          end
      end
  end.

Definition replace_all_with (r : re) (f : found -> string) (s : string) : string :=
  replace_all_go (S (String.length s)) r f None s.

Definition replace_all (r : re) (by_ : string) (s : string) : string :=
  replace_all_with r (fun _ => by_) s.

End Regex.

(** ** Numbers *)

Module JsNum.
Import JsString.

Inductive num : Type :=
| Fin (q : Q)
| NaN
| PosInf
| NegInf.

(** [Number.isFinite] on a number *)
Definition finite (n : num) : bool :=
  match n with Fin _ => true | _ => false end.

Definition qzero (q : Q) : bool := Qeq_bool q 0.
Definition qpos (q : Q) : bool := negb (Qle_bool q 0).

Definition inf_of_sign (positive : bool) : num :=
  if positive then PosInf else NegInf.

Definition neg (a : num) : num :=
  match a with
  | Fin q => Fin (- q)
  | NaN => NaN
  | PosInf => NegInf
  | NegInf => PosInf
  end.

Definition add (a b : num) : num :=
  match a, b with
  | NaN, _ | _, NaN => NaN
  | Fin x, Fin y => Fin (x + y)
  | PosInf, NegInf | NegInf, PosInf => NaN
  | PosInf, _ | _, PosInf => PosInf
  | NegInf, _ | _, NegInf => NegInf
  end.

Definition sub (a b : num) : num := add a (neg b).

Definition mul (a b : num) : num :=
  match a, b with
  | NaN, _ | _, NaN => NaN
  | Fin x, Fin y => Fin (x * y)
  | Fin x, PosInf | PosInf, Fin x =>
      if qzero x then NaN else inf_of_sign (qpos x)
  | Fin x, NegInf | NegInf, Fin x =>
      if qzero x then NaN else inf_of_sign (negb (qpos x))
  | PosInf, PosInf | NegInf, NegInf => PosInf
  | PosInf, NegInf | NegInf, PosInf => NegInf
  end.

(** Division; the sign of a zero divisor is not represented and is taken
    positive. *)
Definition div (a b : num) : num :=
  match a, b with
  | NaN, _ | _, NaN => NaN
  | Fin x, Fin y =>
      if qzero y
      then (if qzero x then NaN else inf_of_sign (qpos x))
      else Fin (x / y)
  | Fin _, _ => Fin 0
  | PosInf, Fin y => inf_of_sign (qpos y || qzero y)
  | NegInf, Fin y => inf_of_sign (negb (qpos y || qzero y))
  | _, _ => NaN
  end.

(** [a <= b], [a < b], [a >= b], [a > b]; false as soon as one side is NaN *)
Definition le (a b : num) : bool :=
  match a, b with
  | NaN, _ | _, NaN => false
  | Fin x, Fin y => Qle_bool x y
  | NegInf, _ | _, PosInf => true
  | _, _ => false
  end.

Definition lt (a b : num) : bool :=
  match a, b with
  | NaN, _ | _, NaN => false
  | Fin x, Fin y => negb (Qle_bool y x)
  | PosInf, _ | _, NegInf => false
  | _, _ => true
  end.

Definition ge (a b : num) : bool := le b a.
Definition gt (a b : num) : bool := lt b a.

Definition of_Z (z : Z) : num := Fin (inject_Z z).

(** *** Reading a number: [Number(string)] *)

Fixpoint span (p : ascii -> bool) (s : string) : string * string :=
  match s with
  | String c r =>
      if p c then let '(a, b) := span p r in (String c a, b)
      else (EmptyString, s)
  | EmptyString => (EmptyString, EmptyString)
  end.

Definition hex_val (c : ascii) : option Z :=
  let n := Z.of_N (N_of_ascii c) in
  if is_digit c then Some (n - 48)%Z
  else if ((97 <=? n) && (n <=? 102))%Z then Some (n - 87)%Z
  else if ((65 <=? n) && (n <=? 70))%Z then Some (n - 55)%Z
  else None.

(** digits of [s] in base [b]; [None] when a character is not a digit of
    that base *)
Fixpoint digits_in (b : Z) (acc : Z) (s : string) : option Z :=
  match s with
  | EmptyString => Some acc
  | String c r =>
      match hex_val c with
      | Some d => if (d <? b)%Z then digits_in b (acc * b + d)%Z r else None
      | None => None
      end
  end.

Definition decimal_digits (s : string) : Z :=
  default 0%Z (digits_in 10 0 s).

(** the largest magnitude that does not round to an infinity *)
Definition overflow_bound : Z := (2 ^ 1024 - 2 ^ 970)%Z.

Definition clamp (q : Q) : num :=
  if Qle_bool (inject_Z overflow_bound) q then PosInf
  else if Qle_bool q (inject_Z (- overflow_bound)) then NegInf
  else Fin q.

(** [m * 10^e] *)
Definition scale10 (m e : Z) : Q :=
  if (0 <=? e)%Z then inject_Z (m * 10 ^ e)
  else Qmake m (Z.to_pos (10 ^ (- e))).

(** exponent part: empty, or [e]/[E], an optional sign and digits *)
Definition exponent (s : string) : option Z :=
  match s with
  | EmptyString => Some 0%Z
  | String c r =>
      if Ascii.eqb (lower_char c) "e" then
        let '(negative, ds) :=
          match r with
          | String "-" r' => (true, r')
          | String "+" r' => (false, r')
          | _ => (false, r)
          end in
        if is_empty ds then None
        else (fun v => if negative then (- v)%Z else v) <$> digits_in 10 0 ds
      else None
  end.

Definition radix_literal (b : Z) (ds : string) : num :=
  if is_empty ds then NaN
  else match digits_in b 0 ds with
       | Some v => clamp (inject_Z v)
       | None => NaN
       end.

Definition signed_decimal (t : string) : num :=
  let '(negative, u) :=
    match t with
    | String "-" r => (true, r)
    | String "+" r => (false, r)
    | _ => (false, t)
    end in
  if String.eqb u "Infinity" then inf_of_sign (negb negative)
  else
    let '(ip, r1) := span is_digit u in
    let '(fp, r2) :=
      match r1 with
      | String "." r => span is_digit r
      | _ => (EmptyString, r1)
      end in
    if is_empty ip && is_empty fp then NaN
    else match exponent r2 with
         | None => NaN
         | Some e =>
             let m := decimal_digits (ip +:+ fp) in
             let q := scale10 m (e - Z.of_nat (String.length fp)) in
             clamp (if negative then (- q)%Q else q)
         end.

(** [Number(s)] for a string [s] *)
Definition of_string (s : string) : num :=
  let t := trim s in
  match t with
  | EmptyString => Fin 0
  | String "0" (String x ds) =>
      if Ascii.eqb (lower_char x) "x" then radix_literal 16 ds
      else if Ascii.eqb (lower_char x) "o" then radix_literal 8 ds
      else if Ascii.eqb (lower_char x) "b" then radix_literal 2 ds
      else signed_decimal t
  | _ => signed_decimal t
  end.

(** *** Writing a number: [String(number)] *)

Definition Z_to_string (z : Z) : string :=
  match z with
  | Z0 => "0"
  | Zpos p => pretty (Npos p)
  | Zneg p => "-" +:+ pretty (Npos p)
  end.

(** up to [n] decimal digits of [r / d], stopping when the expansion ends *)
Fixpoint fraction_digits (n : nat) (r d : Z) : string :=
  match n with
  | O => EmptyString
  | S n' =>
      if (r =? 0)%Z then EmptyString
      else Z_to_string ((r * 10) / d) +:+ fraction_digits n' ((r * 10) mod d) d
  end.

(** Decimal notation of a finite number; values whose expansion does not
    end within twenty digits are cut there, and the exponent notation of
    very large or very small magnitudes is not produced. *)
Definition Q_to_string (q : Q) : string :=
  let n := Qnum q in
  let d := Zpos (Qden q) in
  let a := Z.abs n in
  let body :=
    let fr := fraction_digits 20 (a mod d) d in
    Z_to_string (a / d) +:+ (if is_empty fr then "" else "." +:+ fr) in
  if (n <? 0)%Z then "-" +:+ body else body.

Definition to_string (n : num) : string :=
  match n with
  | Fin q => Q_to_string q
  | NaN => "NaN"
  | PosInf => "Infinity"
  | NegInf => "-Infinity"
  end.

End JsNum.

(** ** Exceptions *)

Inductive error : Type :=
| TypeError                       (* property read on null or undefined *)
| RangeError                      (* Invalid time value *)
| SyntaxError                     (* JSON.parse *)
| Failure (message : string).     (* throw new Error(message) *)

Inductive result (A : Type) : Type :=
| Ok (a : A)
| Throw (e : error).
Arguments Ok {A} a.
Arguments Throw {A} e.

#[global] Instance result_ret : MRet result := fun _ a => Ok a.
#[global] Instance result_bind : MBind result := fun _ _ f m =>
  match m with Ok a => f a | Throw e => Throw e end.
#[global] Instance result_fmap : FMap result := fun _ _ f m =>
  match m with Ok a => Ok (f a) | Throw e => Throw e end.

Definition returns {A} (m : result A) : bool :=
  match m with Ok _ => true | Throw _ => false end.

(** [try { m } catch { h }] *)
Definition try_catch {A} (m : result A) (h : result A) : result A :=
  match m with Ok a => Ok a | Throw _ => h end.

(** [items.map(f)] for an [f] that may throw: the first exception aborts *)
Fixpoint map_result {A B} (f : A -> result B) (l : list A) : result (list B) :=
  match l with
  | [] => Ok []
  | a :: r => b ← f a; bs ← map_result f r; Ok (b :: bs)
  end.

(** ** Dynamically typed values *)

Module JsValue.
Import JsString JsNum.

#[warnings="-register-all"]
Inductive value : Type :=
| VUndef
| VNull
| VBool (b : bool)
| VNum (n : num)
| VStr (s : string)
| VArr (items : list value)
| VObj (fields : list (string * value)).

(** own property [k] of an object; the key read first wins *)
Fixpoint field (k : string) (fields : list (string * value)) : value :=
  match fields with
  | [] => VUndef
  | (k', v) :: r => if String.eqb k k' then v else field k r
  end.

Definition nullish (v : value) : bool :=
  match v with VUndef | VNull => true | _ => false end.

Definition truthy (v : value) : bool :=
  match v with
  | VUndef | VNull => false
  | VBool b => b
  | VNum (Fin q) => negb (qzero q)
  | VNum NaN => false
  | VNum _ => true
  | VStr s => negb (is_empty s)
  | VArr _ | VObj _ => true
  end.

(** [v.k] on a value known not to be null or undefined.  Only own data
    properties are represented, and [length] of arrays and strings. *)
Definition prop (v : value) (k : string) : value :=
  match v with
  | VObj fs => field k fs
  | VArr items =>
      if String.eqb k "length" then VNum (of_Z (Z.of_nat (length items)))
      else VUndef
  | VStr s =>
      if String.eqb k "length" then VNum (of_Z (Z.of_nat (String.length s)))
      else VUndef
  | _ => VUndef
  end.

(** [v.k] *)
Definition get (v : value) (k : string) : result value :=
  if nullish v then Throw TypeError else Ok (prop v k).

(** [v?.k] *)
Definition getq (v : value) (k : string) : value :=
  if nullish v then VUndef else prop v k.

(** [v[i]] on a value known not to be null or undefined *)
Definition at_index (v : value) (i : nat) : value :=
  match v with
  | VArr items => default VUndef (items !! i)
  | VStr s =>
      match String.get i s with
      | Some c => VStr (String c EmptyString)
      | None => VUndef
      end
  | VObj fs => field (pretty i) fs
  | _ => VUndef
  end.

(** [v?.[i]] *)
Definition at_indexq (v : value) (i : nat) : value :=
  if nullish v then VUndef else at_index v i.

(** [a || b] and [a ?? b] *)
Definition or_else (a b : value) : value := if truthy a then a else b.
Definition coalesce (a b : value) : value := if nullish a then b else a.

Definition isArray (v : value) : bool :=
  match v with VArr _ => true | _ => false end.

Definition isObject (v : value) : bool :=      (* typeof v === "object" *)
  match v with VNull | VArr _ | VObj _ => true | _ => false end.

Definition items_of (v : value) : list value :=
  match v with VArr items => items | _ => [] end.

(** [Number.isFinite(v)]: no conversion, only numbers qualify *)
Definition isFinite (v : value) : bool :=
  match v with VNum n => finite n | _ => false end.

(** [String(v)] when the conversion returns: a plain object prints as
    [[object Object]].  The values on which it throws are those of
    [unprintable] below. *)
Fixpoint to_String (v : value) : string :=
  match v with
  | VUndef => "undefined"
  | VNull => "null"
  | VBool true => "true"
  | VBool false => "false"
  | VNum n => JsNum.to_string n
  | VStr s => s
  | VArr items =>
      join "," (map (fun x => if nullish x then "" else to_String x) items)
  | VObj _ => "[object Object]"
  end.

(** an object has a member of its own named [k] *)
Definition has_own (k : string) (fields : list (string * value)) : bool :=
  existsb (fun p => String.eqb (fst p) k) fields.

(** [String(v)], [Number(v)], [new Date(v)], [v.toString()] and a template
    literal convert an object through its [toString].  An object read from
    JSON or XML that has a member named [toString] has one that is no
    function, [Object.prototype.valueOf] gives the object back, and the
    conversion throws a TypeError.  An array converts its elements in the
    same way, [null] and [undefined] apart.  [to_String] and [to_Number]
    give the result of the conversion when it does not throw. *)
Fixpoint unprintable (v : value) : bool :=
  match v with
  | VObj fields => has_own "toString" fields
  | VArr items => existsb unprintable items
  | _ => false
  end.

(** [Number(v)] *)
Definition to_Number (v : value) : num :=
  match v with
  | VUndef => NaN
  | VNull => Fin 0
  | VBool true => Fin 1
  | VBool false => Fin 0
  | VNum n => n
  | VStr s => of_string s
  | VArr _ => of_string (to_String v)
  | VObj _ => NaN
  end.

(** first value of the keys that is neither null nor undefined, [dflt]
    otherwise: the chain [r.k1 ?? r.k2 ?? ... ?? dflt], on an [r] known not
    to be null or undefined *)
Fixpoint first_defined (r : value) (keys : list string) (dflt : value) : value :=
  match keys with
  | [] => dflt
  | k :: rest => coalesce (prop r k) (first_defined r rest dflt)
  end.

(** the own enumerable properties copied by [{...v}] *)
Definition spread (v : value) : list (string * value) :=
  match v with
  | VObj fs => fs
  | VArr items => imap (fun i x => (pretty i, x)) items
  | VStr s =>
      imap (fun i c => (pretty i, VStr (String c EmptyString)))
           (String.list_ascii_of_string s)
  | _ => []
  end.

Definition num_of (v : value) : num :=
  match v with VNum n => n | _ => NaN end.

End JsValue.

(** ** services/geocode.js *)

Module Geocode.
Import JsString JsNum JsValue.

(** [normalizeAddress(addr)] for a string [addr]:
    [String(addr || "").trim().replace(/\s+/g, " ").toLowerCase()] *)
Definition normalizeAddress (addr : string) : string :=
  toLowerCase (collapse_spaces (trim addr)).

(** [{ lat, lon, formatted }] *)
Record geo : Type := Geo {
  g_lat : num;
  g_lon : num;
  g_formatted : value
}.

(** [{ data, expiresAt }] *)
Record entry : Type := Entry {
  data : geo;
  expiresAt : num
}.

(** The module constants: [KEY] is [process.env.OPENCAGE_KEY] ([None] when
    the variable is unset), [TTL] the number read from
    [GEOCODE_TTL_SECONDS]. *)
Record config : Type := Config {
  KEY : option string;
  TTL : num
}.

Definition default_TTL : num := of_Z (30 * 24 * 3600).

(** [Number(process.env.GEOCODE_TTL_SECONDS || 30 * 24 * 3600)] *)
Definition TTL_of_env (v : option string) : num :=
  match v with
  | Some s => if is_empty s then default_TTL else of_string s
  | None => default_TTL
  end.

(** What the geocoding service answers to one request: the status code, the
    body as text and the body as [res.body.json()] reads it. *)
Record response : Type := Response {
  statusCode : Z;
  body_text : string;
  body_json : result value
}.

Definition key_missing (cfg : config) : bool :=
  match KEY cfg with
  | None => true
  | Some k => is_empty k
  end.

(** the cache entry that answers [q] at time [now], if any *)
Definition cached (cache : gmap string entry) (q : string) (now : Z) : option geo :=
  match cache !! q with
  | Some e => if gt (expiresAt e) (of_Z now) then Some (data e) else None
  | None => None
  end.

(** [body?.results?.[0]] *)
Definition top_hit (body : value) : value := at_indexq (getq body "results") 0.

Definition hit_lat (hit : value) : value := getq (getq hit "geometry") "lat".
Definition hit_lon (hit : value) : value := getq (getq hit "geometry") "lng".

(** [geocode(address)], with the cache and the clock made explicit:
    [upstream] is the answer of the service to the request for [address],
    [now] the value of [Date.now()]. *)
Definition geocode (cfg : config) (upstream : string -> response) (now : Z)
    (cache : gmap string entry) (address : string)
  : result geo * gmap string entry :=
  if key_missing cfg then (Throw (Failure "OPENCAGE_KEY is not set"), cache)
  else
    let q := normalizeAddress address in
    match cached cache q now with
    | Some d => (Ok d, cache)
    | None =>
        let res := upstream address in
        if (400 <=? statusCode res)%Z then
          (Throw (Failure ("Geocode HTTP " +:+ Z_to_string (statusCode res)
                           +:+ ": " +:+ take 200 (body_text res))), cache)
        else
          match body_json res with
          | Throw e => (Throw e, cache)
          | Ok body =>
              let hit := top_hit body in
              let lat := hit_lat hit in
              let lon := hit_lon hit in
              let formatted := getq hit "formatted" in
              if negb (isFinite lat) || negb (isFinite lon) then
                (Throw (Failure "Geocode: no results"), cache)
              else
                let d := Geo (num_of lat) (num_of lon) formatted in
                (Ok d,
                 <[q := Entry d (add (of_Z now) (mul (TTL cfg) (of_Z 1000)))]> cache)
          end
    end.

(** the response carries a first result with finite latitude and longitude *)
Definition has_finite_hit (res : response) : bool :=
  match body_json res with
  | Ok body =>
      isFinite (hit_lat (top_hit body)) && isFinite (hit_lon (top_hit body))
  | Throw _ => false
  end.

(** The caches the module can hold: empty when the module is loaded, then
    changed by calls of [geocode] only. *)
Inductive reachable (cfg : config) : gmap string entry -> Prop :=
| reachable_empty : reachable cfg ∅
| reachable_call cache upstream now address :
    reachable cfg cache ->
    reachable cfg (snd (geocode cfg upstream now cache address)).

End Geocode.

(** ** Shared shapes *)

Module Common.
Import JsString JsNum JsValue Geocode.

(** The resolver as an adapter sees it during one fetch: a call takes the
    address and the state of the resolver (for [services/geocode.js], its
    cache and the clock) and either returns a result or throws ([None]); the
    adapters catch every exception of the resolver, so which one it was does
    not matter to them. *)
Definition resolver (S : Type) : Type := string -> S -> option geo * S.

(** The state threaded through a fetch: the resolver's own state, and the
    list of the addresses it has been called with, oldest first.

    [mapWithConcurrency(keys, 5, worker)] starts five runners that take the
    keys in index order and overlap only while they wait for the resolver;
    a worker writes the entry of its own key and nothing else.  The
    functions [geocode_all] below run the workers one after the other, in
    the order of the keys, which gives the results of one run of the pool;
    the pool itself, with every order of its calls and answers, is [Pool]. *)
Definition fetch_state (S : Type) : Type := (S * list string)%type.

Definition calls {S} (st : fetch_state S) : list string := snd st.

Definition resolve {S} (geocode : resolver S) (address : string)
    (st : fetch_state S) : option geo * fetch_state S :=
  let '(r, s') := geocode address (fst st) in
  (r, (s', snd st ++ [address])).

(** A [Map] with string keys whose iteration order matters: the pairs in
    insertion order, every key at most once. *)
Definition omap_has {A} (k : string) (m : list (string * A)) : bool :=
  existsb (fun p => String.eqb (fst p) k) m.

Definition omap_get {A} (k : string) (m : list (string * A)) : option A :=
  snd <$> List.find (fun p => String.eqb (fst p) k) m.

(** [if (norm && !m.has(norm)) m.set(norm, v)] *)
Definition omap_add_new {A} (k : string) (v : A) (m : list (string * A))
  : list (string * A) :=
  if negb (is_empty k) && negb (omap_has k m) then m ++ [(k, v)] else m.

(** An emitted place: [src] is the intermediate record it was built from
    (the identifier, name, category, time stamps and extras of the place are
    copied or computed from [src] alone and are not repeated here), then
    the fields [lat], [lon] and [address]. *)
Record place (R : Type) : Type := Place {
  src : R;
  lat : num;
  lon : num;
  address : value
}.
Arguments Place {R} src lat lon address.
Arguments src {R} p.
Arguments lat {R} p.
Arguments lon {R} p.
Arguments address {R} p.

(** [Math] as used by the haversine formula. *)
Record Math : Type := {
  PI : num;
  sin : num -> num;
  cos : num -> num;
  sqrt : num -> num;
  atan2 : num -> num -> num
}.

End Common.

(** ** A fixed-point [Math]

    The adapters are stated for any implementation of [Math].  The examples
    run them with this one, which evaluates the functions on rationals and
    rounds every intermediate result down to eighteen decimal places.  It
    is used at points that lie far from every threshold. *)

Module FixedMath.
Import JsNum Common.
Local Open Scope Q_scope.

Definition unit : Z := (10 ^ 18)%Z.

Definition rnd (q : Q) : Q := Qmake (Qfloor (q * inject_Z unit)) (Z.to_pos unit).

Definition pi : Q := 3.141592653589793238.

(** [sum] of the series whose first term is [t] and whose next term is
    [- t * x2 / ((k + 1) * (k + 2))], [k] advancing by two *)
Fixpoint trig_series (n : nat) (x2 t : Q) (k : Z) : Q :=
  match n with
  | O => 0
  | S n' =>
      t + trig_series n' x2
            (rnd (- t * x2 / inject_Z ((k + 1) * (k + 2)))) (k + 2)
  end.

(** the representative of [x] modulo a full turn that lies nearest to zero *)
Definition reduce (x : Q) : Q :=
  let turn := 2 * pi in
  x - inject_Z (Qfloor (x / turn + (1 # 2))) * turn.

Definition sin_q (x : Q) : Q :=
  let y := rnd (reduce x) in rnd (trig_series 24 (rnd (y * y)) y 1).

Definition cos_q (x : Q) : Q :=
  let y := rnd (reduce x) in rnd (trig_series 24 (rnd (y * y)) 1 0).

Definition sqrt_q (x : Q) : Q :=
  Qmake (Z.sqrt (Qfloor (x * inject_Z unit * inject_Z unit))) (Z.to_pos unit).

(** [t - t^3/3 + t^5/5 - ...], for a small [t] *)
Fixpoint atan_series (n : nat) (t2 p : Q) (k : Z) : Q :=
  match n with
  | O => 0
  | S n' => p / inject_Z k + atan_series n' t2 (rnd (- p * t2)) (k + 2)
  end.

(** halving of the angle: [atan t = 2 * atan (t / (1 + sqrt (1 + t^2)))] *)
Definition half_angle (t : Q) : Q := rnd (t / (1 + sqrt_q (1 + t * t))).

(** arc tangent on [[-1, 1]] *)
Definition atan_unit (t : Q) : Q :=
  let u := half_angle (half_angle (half_angle t)) in
  rnd (8 * atan_series 24 (rnd (u * u)) u 1).

Definition atan_q (z : Q) : Q :=
  if Qle_bool (-1) z && Qle_bool z 1 then atan_unit z
  else if Qle_bool 0 z then pi / 2 - atan_unit (rnd (1 / z))
  else - (pi / 2) - atan_unit (rnd (1 / z)).

Definition atan2_q (y x : Q) : Q :=
  if qpos x then atan_q (rnd (y / x))
  else if qzero x then
    (if qpos y then pi / 2 else if qzero y then 0 else - (pi / 2))
  else if Qle_bool 0 y then atan_q (rnd (y / x)) + pi
  else atan_q (rnd (y / x)) - pi.

Definition lift (f : Q -> Q) (a : num) : num :=
  match a with Fin x => Fin (f x) | _ => NaN end.

Definition math : Math := {|
  PI := Fin pi;
  sin := lift sin_q;
  cos := lift cos_q;
  sqrt := fun a =>
    match a with
    | Fin x => if Qle_bool 0 x then Fin (sqrt_q x) else NaN
    | PosInf => PosInf
    | _ => NaN
    end;
  atan2 := fun a b =>
    match a, b with
    | Fin y, Fin x => Fin (atan2_q y x)
    | _, _ => NaN
    end
|}.

End FixedMath.

(** ** Dates *)

Module JsDate.
Import JsString JsNum JsValue.
Local Open Scope Z_scope.

(** days since 1970-01-01 of a civil date, and back *)
Definition days_from_civil (y m d : Z) : Z :=
  let y := if m <=? 2 then y - 1 else y in
  let era := y / 400 in
  let yoe := y - era * 400 in
  let doy := (153 * (if 2 <? m then m - 3 else m + 9) + 2) / 5 + d - 1 in
  let doe := yoe * 365 + yoe / 4 - yoe / 100 + doy in
  era * 146097 + doe - 719468.

Definition civil_from_days (z : Z) : Z * Z * Z :=
  let z := z + 719468 in
  let era := z / 146097 in
  let doe := z - era * 146097 in
  let yoe := (doe - doe / 1460 + doe / 36524 - doe / 146096) / 365 in
  let doy := doe - (365 * yoe + yoe / 4 - yoe / 100) in
  let mp := (5 * doy + 2) / 153 in
  let d := doy - (153 * mp + 2) / 5 + 1 in
  let m := if mp <? 10 then mp + 3 else mp - 9 in
  ((if m <=? 2 then yoe + era * 400 + 1 else yoe + era * 400), m, d).

Definition ms_per_day : Z := 86400000.

(** the largest time value of a valid [Date] *)
Definition max_time : Z := 8640000000000000.

(** [n] written with at least [w] digits *)
Definition pad (w : nat) (n : Z) : string :=
  let s := Z_to_string n in
  String.concat EmptyString (replicate (w - String.length s)%nat "0") +:+ s.

(** [date.toISOString()] for a valid time value *)
Definition toISOString (t : Z) : string :=
  let '(y, m, d) := civil_from_days (t / ms_per_day) in
  let r := t mod ms_per_day in
  let year :=
    if (0 <=? y) && (y <=? 9999) then pad 4 y
    else if y <? 0 then "-" +:+ pad 6 (- y) else "+" +:+ pad 6 y in
  year +:+ "-" +:+ pad 2 m +:+ "-" +:+ pad 2 d +:+ "T"
  +:+ pad 2 (r / 3600000) +:+ ":" +:+ pad 2 (r / 60000 mod 60) +:+ ":"
  +:+ pad 2 (r / 1000 mod 60) +:+ "." +:+ pad 3 (r mod 1000) +:+ "Z".

(** time value of [new Date(n)] for a number [n]: [None] for an invalid
    date *)
Definition time_of_num (n : num) : option Z :=
  match n with
  | Fin q =>
      if Qle_bool (Qabs q) (inject_Z max_time)
      then Some (if Qle_bool 0 q then Qfloor q else Qceiling q)
      else None
  | _ => None
  end.

(** *** The date format of the KML descriptions

    [new Date(s)] for an [s] of the shape
    [Weekday, Month D, YYYY h:mm AM|PM GMT+hhmm], as the description
    patterns select it: the weekday is not interpreted, the month is
    recognised by its first three letters, the hour is a twelve-hour one.
    A month word that names no month is read as an invalid date. *)

Definition month_number (w : string) : option Z :=
  let p := toLowerCase (take 3 w) in
  if (String.length w <? 3)%nat then None
  else
    (fun found => Z.of_nat (fst found) + 1) <$>
      list_find (String.eqb p)
        ["jan"; "feb"; "mar"; "apr"; "may"; "jun";
         "jul"; "aug"; "sep"; "oct"; "nov"; "dec"].

Definition number (s : string) : option Z :=
  if is_empty s then None else digits_in 10 0 s.

Definition legacy_shape : Regex.re :=
  Regex.seqs
    [Regex.Bol; Regex.Plus (Regex.Class is_alpha); Regex.chr ",";
     Regex.Plus Regex.space;
     Regex.Group 1 (Regex.Plus (Regex.Class is_alpha)); Regex.Plus Regex.space;
     Regex.Group 2 (Regex.Rep 1 2 Regex.digit); Regex.chr ",";
     Regex.Plus Regex.space;
     Regex.Group 3 (Regex.Times 4 Regex.digit); Regex.Plus Regex.space;
     Regex.Group 4 (Regex.Rep 1 2 Regex.digit); Regex.chr ":";
     Regex.Group 5 (Regex.Times 2 Regex.digit); Regex.Plus Regex.space;
     Regex.Group 6 (Regex.Alt (Regex.lit_i "AM") (Regex.lit_i "PM"));
     Regex.Plus Regex.space; Regex.lit_i "GMT";
     Regex.Group 7 (Regex.Alt (Regex.chr "+") (Regex.chr "-"));
     Regex.Group 8 (Regex.Times 4 Regex.digit); Regex.Eol].

Definition parse_legacy (s : string) : option Z :=
  m ← Regex.exec legacy_shape s;
  let g i := Regex.capture i (Regex.groups m) in
  month ← g 1%nat ≫= month_number;
  day ← g 2%nat ≫= number;
  year ← g 3%nat ≫= number;
  hour ← g 4%nat ≫= number;
  minute ← g 5%nat ≫= number;
  half ← g 6%nat;
  sign ← g 7%nat;
  zone ← g 8%nat ≫= number;
  if negb ((1 <=? day) && (day <=? 31)) then None
  else if negb ((hour <=? 12) && (minute <=? 59)) then None
  else
    let year := if year <=? 49 then year + 2000
                else if year <=? 99 then year + 1900 else year in
    let hour := hour mod 12 + (if String.eqb (toLowerCase half) "pm" then 12 else 0) in
    let offset := (zone / 100) * 60 + zone mod 100 in
    let offset := if String.eqb sign "-" then - offset else offset in
    let t := (days_from_civil year month 1 + (day - 1)) * ms_per_day
             + (hour * 60 + minute - offset) * 60000 in
    if Z.abs t <=? max_time then Some t else None.

End JsDate.

(** ** adapters/nashville.js *)

Module Nashville.
Import JsString JsNum JsValue Regex Geocode Common.

(** [String(s || "").trim()], then backslashes to a slash, spacing around a
    slash normalised, runs of spaces collapsed *)
Definition normalizeIntersection (s : value) : string :=
  let t := trim (to_String (or_else s (VStr ""))) in
  let t := replace_all (Plus (chr "\")) "/" t in                 (* /\\+/g *)
  let t := replace_all (seqs [Star space; chr "/"; Star space]) " / " t in
                                                                  (* /\s*\/\s*/g *)
  replace_all (AtLeast 2 space) " " t.                            (* /\s{2,}/g *)

(** the pattern of [titleCase]: a word boundary, group 1 one letter of
    [a-z], group 2 any run of letters [a-z], digits and apostrophes *)
Definition title_word : re :=
  seqs [WordB;
        Group 1 (Class is_lower);
        Group 2 (Star (Class (fun c => is_lower c || is_digit c
                                       || Ascii.eqb c "'")))].

Definition titleCase (s : string) : string :=
  replace_all_with title_word
    (fun m => toUpperCase (default "" (capture 1 (groups m)))
              +:+ default "" (capture 2 (groups m)))
    (toLowerCase s).

Definition PRECINCT_OR_DIRECTION : list string :=
  ["EAST"; "WEST"; "NORTH"; "SOUTH"; "CENTRAL"; "MIDTOWN"; "DOWNTOWN"].

Definition pickDisplayCity (cityName : value) : string :=
  let raw := trim (to_String (or_else cityName (VStr ""))) in
  if is_empty raw then "Nashville"
  else if existsb (String.eqb (toUpperCase raw)) PRECINCT_OR_DIRECTION
       then "Nashville"
       else titleCase raw.

Definition buildDisplayAddress (rawStreet cityName : value) : string :=
  let street := titleCase (normalizeIntersection (or_else rawStreet (VStr ""))) in
  let city := pickDisplayCity cityName in
  if is_empty street then city +:+ ", TN"
  else street +:+ ", " +:+ city +:+ ", TN".

Definition extractAddress (props : value) : value :=
  first_defined props
    ["Address"; "ADDRESS"; "Location"; "LOCATION"; "addr_full"; "Street"; "STREET"]
    VNull.

(** An element of [prelim]: [props] carries the feed's own fields, from
    which [id], [category], [name], [updatedAt] and [callTimeReceived] are
    computed; [displayAddress] is the address that is returned. *)
Record prelim : Type := Prelim {
  props : value;
  displayAddress : string
}.

(** [props.CityName || props.city || props.CITYNAME] *)
Definition cityName_of (props : value) : value :=
  or_else (or_else (prop props "CityName") (prop props "city"))
          (prop props "CITYNAME").

Definition extract (f : value) : prelim :=
  let props := or_else (getq f "properties") (VObj []) in
  let baseAddr := extractAddress props in
  let cityName := cityName_of props in
  Prelim props (buildDisplayAddress baseAddr cityName).

(** [Array.isArray(geojson?.features) ? geojson.features : []] *)
Definition features_of (geojson : value) : list value :=
  items_of (getq geojson "features").

(** the dedup pass: [uniqueAddrMap], normalised address to display address *)
Definition uniqueAddrMap (rows : list prelim) : list (string * string) :=
  fold_left
    (fun m row =>
       if is_empty (displayAddress row) then m
       else omap_add_new (normalizeAddress (displayAddress row))
                         (displayAddress row) m)
    rows [].

Definition NASHVILLE_CENTER : num * num := (Fin 36.1627, Fin (-86.7816)).
Definition MAX_MILES : num := Fin 40.

(** [/, [^,]+, TN$/i] and [/TN$/i] *)
Definition trailing_city_TN : re :=
  seqs [lit ", "; Plus (none_of ","); lit_i ", TN"; Eol].
Definition trailing_TN : re := Seq (lit_i "TN") Eol.

Definition forceNashville (address : string) : string :=
  let s := address in
  if test trailing_city_TN s then replace trailing_city_TN ", Nashville, TN" s
  else if test trailing_TN s then s
  else s +:+ ", Nashville, TN".

Section Adapter.
Context {S : Type} (geocode : resolver S) (M : Math).

(** [haversineMiles(a, b)] on two [{lat, lon}] pairs *)
Definition haversineMiles (a b : num * num) : num :=
  if negb (finite (fst a)) || negb (finite (snd a))
     || negb (finite (fst b)) || negb (finite (snd b))
  then PosInf
  else
    let R := Fin 3958.7613 in
    let rad x := div (mul x (PI M)) (Fin 180) in
    let dLat := rad (sub (fst b) (fst a)) in
    let dLon := rad (sub (snd b) (snd a)) in
    let lat1 := rad (fst a) in
    let lat2 := rad (fst b) in
    let sinDLat := sin M (div dLat (Fin 2)) in
    let sinDLon := sin M (div dLon (Fin 2)) in
    let h := add (mul sinDLat sinDLat)
                 (mul (mul (mul (cos M lat1) (cos M lat2)) sinDLon) sinDLon) in
    let c := mul (Fin 2) (atan2 M (sqrt M h) (sqrt M (sub (Fin 1) h))) in
    mul R c.

Definition too_far (g : geo) : bool :=
  finite (g_lat g) && finite (g_lon g)
  && gt (haversineMiles (g_lat g, g_lon g) NASHVILLE_CENTER) MAX_MILES.

Definition within_radius (g : geo) : bool :=
  finite (g_lat g) && finite (g_lon g)
  && le (haversineMiles (g_lat g, g_lon g) NASHVILLE_CENTER) MAX_MILES.

(** The worker run for one key of [uniqueAddrMap]; [original] is
    [uniqueAddrMap.get(norm)].  An exception of either call of the resolver
    leaves [geocodeResults] as it was. *)
Definition worker (norm original : string)
    (acc : gmap string geo * fetch_state S) : gmap string geo * fetch_state S :=
  let '(results, st) := acc in
  match resolve geocode original st with
  | (None, st1) => (results, st1)
  | (Some g, st1) =>
      if too_far g then
        let forced := forceNashville original in
        match resolve geocode forced st1 with
        | (None, st2) => (results, st2)
        | (Some g2, st2) =>
            if within_radius g2 then (<[norm := g2]> results, st2)
            else (<[norm := g]> results, st2)
        end
      else (<[norm := g]> results, st1)
  end.

(** The results of [mapWithConcurrency(uniqueNormKeys, 5, worker)] when the
    keys are taken in order and each worker is run to its end before the
    next one starts.  The runners of the pool interleave: [Pool] has every
    run of theirs and the order of the calls, [NashvilleAdapter] the fetch
    built on it. *)
Definition geocode_all (uniq : list (string * string)) (st : fetch_state S)
  : gmap string geo * fetch_state S :=
  fold_left (fun acc kv => worker (fst kv) (snd kv) acc) uniq (∅, st).

(** the body of the loop that builds [places] *)
Definition place_of (results : gmap string geo) (r : prelim)
  : option (place prelim) :=
  if is_empty (displayAddress r) then None
  else
    let norm := normalizeAddress (displayAddress r) in
    if is_empty norm then None
    else match results !! norm with
         | Some g =>
             if negb (finite (g_lat g)) || negb (finite (g_lon g)) then None
             else Some (Place r (g_lat g) (g_lon g) (VStr (displayAddress r)))
         | None => None
         end.

(** What one fetch produces from the parsed body of the feed. *)
Record fetched : Type := Fetched {
  places : list (place prelim);
  geocodeResults : gmap string geo;
  final : fetch_state S
}.

Definition fetchCity (geojson : value) (s0 : S) : fetched :=
  let rows := map extract (features_of geojson) in
  let uniq := uniqueAddrMap rows in
  let '(results, st) := geocode_all uniq (s0, []) in
  Fetched (omap (place_of results) rows) results st.

End Adapter.
End Nashville.

(** ** adapters/pdx.js *)

Module Pdx.
Import JsString JsNum JsValue Regex Geocode Common.

Definition withCityState (address : value) : value :=
  if negb (truthy address) then VStr "Portland, OR"
  else
    let lower := toLowerCase (to_String address) in
    if includes "portland" lower || includes " or" lower || includes "oregon" lower
    then address
    else VStr (to_String address +:+ ", Portland, OR").

(** a tag: [<], any characters but [>], then [>] *)
Definition html_tag : re := seqs [chr "<"; Star (none_of ">"); chr ">"].

Definition stripHtml (s : string) : string :=
  trim (collapse_spaces (replace_all html_tag " " s)).

Definition weekday_short : re :=
  alts (map lit_i ["Sun"; "Mon"; "Tue"; "Tues"; "Wed"; "Thu"; "Thur"; "Thurs";
                   "Fri"; "Sat"]).
Definition weekday_long : re :=
  alts (map lit_i ["Sunday"; "Monday"; "Tuesday"; "Wednesday"; "Thursday";
                   "Friday"; "Saturday"]).

(** what follows the weekday in both time stamp patterns: a comma, a month
    word, the day, a comma, the year, [h:mm] and [AM] or [PM] *)
Definition stamp_tail : list re :=
  [chr ","; Plus space; Plus (Class is_alpha); Plus space;
   Rep 1 2 digit; chr ","; Plus space; Times 4 digit; Plus space;
   Rep 1 2 digit; chr ":"; Times 2 digit; Plus space;
   Alt (lit_i "AM") (lit_i "PM"); WordB].

Definition TS_INLINE : re :=
  seqs ([WordB; weekday_short; Opt (lit_i "day")] ++ stamp_tail).

Definition TS_ANYWHERE : re := seqs ([WordB; weekday_long] ++ stamp_tail).

(** the bracketed incident id: [[], one of the three agency names, any
    characters but [#], [#], group 1 the id, []] *)
Definition INCIDENT_ID : re :=
  seqs [chr "[";
        alts [lit_i "Portland Police"; lit_i "PPB"; lit_i "Police"];
        Star (none_of "#"); chr "#";
        Group 1 (Plus (Class (fun c => is_alpha c || is_digit c || Ascii.eqb c "-")));
        chr "]"].

(** a comma, white space, [PORT] or [PORTLAND], a word boundary and an
    optional full stop *)
Definition TRAILING_PORT : re :=
  seqs [chr ","; Star space; lit_i "PORT"; Opt (lit_i "LAND"); WordB;
        Opt (chr ".")].

Record description : Type := Description {
  cleanAddress : string;
  incidentId : option string;
  updatedAt : option string
}.

Section Parsers.
(** [date_parse s] is the time value of [new Date(s)] for a string [s],
    [None] for an invalid date. *)
Context (date_parse : string -> option Z).

Definition parseKmlDescription (descRaw : string) : description :=
  let desc := stripHtml descRaw in
  let addrPart :=
    match indexOf " at " (toLowerCase desc) with
    | Some atIdx => drop (atIdx + 4) desc
    | None => desc
    end in
  let addrPart := trim (default EmptyString (List.head (split (String "010" EmptyString) addrPart))) in
  let addrPart := trim (replace TS_INLINE "" addrPart) in
  let incidentId := exec INCIDENT_ID addrPart ≫= (fun m => capture 1 (groups m)) in
  let addrPart := trim (replace INCIDENT_ID "" addrPart) in
  let addrPart := replace_all (AtLeast 2 space) " " addrPart in
  let addrPart := replace_all (seqs [Star space; chr ","; Star space]) ", " addrPart in
  let addrPart := replace TRAILING_PORT "" addrPart in
  let addrPart := replace_all (seqs [chr ","; Star space; Plus (chr ",")]) "," addrPart in
  let addrPart := replace_all (Alt (Seq Bol (chr ",")) (Seq (chr ",") Eol)) "" addrPart in
  let addrPart := trim addrPart in
  let updatedAt :=
    m ← exec TS_ANYWHERE desc;
    let stamp := matched m in
    d ← match date_parse (stamp +:+ " GMT-0700") with
        | Some t => Some t
        | None => date_parse (stamp +:+ " GMT-0800")
        end;
    Some (JsDate.toISOString d) in
  Description addrPart incidentId updatedAt.

(** [Math.random().toString(36).slice(2)] is not evaluated: an identifier
    is either taken from the feed or random. *)
Inductive ident : Type :=
| Given (s : string)
| Random.

(** A row as the three parsers build it. *)
Record row : Type := Row {
  r_id : ident;
  r_name : value;
  r_category : value;
  r_lat : value;
  r_lon : value;
  r_address : value;
  r_updatedAt : value;
  r_extras : list (string * value)
}.

Definition opt_str (o : option string) : value :=
  match o with Some s => VStr s | None => VUndef end.

(** a string, or [undefined] when it is empty: [s || undefined] *)
Definition str_or_undef (s : string) : value :=
  if is_empty s then VUndef else VStr s.

(** [Number.isFinite(x) ? x : undefined] *)
Definition finite_or_undef (x : value) : value :=
  if isFinite x then x else VUndef.

(** [s && s.trim()] on an element of a split *)
Definition and_trim (s : string) : string := if is_empty s then s else trim s.

(** [latStr ? Number(latStr) : undefined], [None] standing for a missing
    element of the split *)
Definition coord_of (o : option string) : value :=
  match o with
  | Some s => if is_empty s then VUndef else VNum (of_string s)
  | None => VUndef
  end.

(** the callback of [placemarks.map] *)
Definition kml_row (pm : value) : row :=
  let title := or_else (or_else (getq pm "name") (getq pm "Name")) (VStr "Incident") in
  let description := to_String (or_else (getq pm "description") (VStr "")) in
  let coordText :=
    or_else (or_else (getq (getq pm "Point") "coordinates") (getq pm "coordinates"))
            (VStr "") in
  let parts := map and_trim (split "," (to_String coordText)) in
  let lat := coord_of (parts !! 1) in
  let lon := coord_of (parts !! 0) in
  let name := trim (default EmptyString (List.head (split " at " (to_String title)))) in
  let d := parseKmlDescription description in
  let idv := or_else (getq pm "id") (getq pm "name") in
  Row (if truthy idv then Given (to_String idv) else Random)
      (VStr (if is_empty name then "Incident" else name))
      VUndef
      (finite_or_undef lat)
      (finite_or_undef lon)
      (str_or_undef (cleanAddress d))
      (opt_str (updatedAt d))
      [("incidentTypeCode", VUndef);
       ("incidentTypeName", str_or_undef name);
       ("incidentId", opt_str (incidentId d))].

(** [parseKML] after [parser.parse(text)] has returned [kml] *)
Definition parseKML_doc (kml : value) : list row :=
  let doc :=
    or_else (or_else (getq (getq kml "kml") "Document") (getq kml "Document"))
            (getq kml "kml") in
  let pms := getq doc "Placemark" in
  let placemarks :=
    if isArray pms then items_of pms
    else if truthy pms then [pms] else [] in
  map kml_row placemarks.

(** [safeISO(ts)] *)
Definition safeISO (ts : value) : result value :=
  if negb (truthy ts) then Ok VUndef
  else match ts with
       | VNum n =>
           match JsDate.time_of_num n with
           | Some t => Ok (VStr (JsDate.toISOString t))
           | None => Throw RangeError
           end
       | VBool _ => Ok (VStr (JsDate.toISOString 1))
       | _ =>
           match date_parse (to_String ts) with
           | Some t => Ok (VStr (JsDate.toISOString t))
           | None => Ok VUndef
           end
       end.

(** [a && b] *)
Definition and_then (a b : value) : value := if truthy a then b else a.

(** the callback of [rows.map] in [parseJSONVariant] *)
Definition json_row (r : value) : result row :=
  id ← get r "id";
  let id :=
    coalesce id
      (first_defined r ["objectid"; "OBJECTID"; "GlobalID"; "GLOBALID"; "callid"; "CallID"]
                     VUndef) in
  let typeName :=
    first_defined r ["IncidentTypeName"; "type_name"; "type"; "CallType";
                     "description"; "Description"] VUndef in
  let typeCode :=
    first_defined r ["IncidentTypeCode"; "type_code"; "code"; "CallTypeCode"] VUndef in
  let addressRaw :=
    first_defined r ["Address"; "address"; "Location"; "location"; "addr_full"] VNull in
  let geometry := prop r "geometry" in
  let coordinates := and_then geometry (getq geometry "coordinates") in
  let lat :=
    coalesce (prop r "lat")
      (coalesce (prop r "latitude")
         (and_then coordinates (at_indexq coordinates 1))) in
  let lon :=
    coalesce (prop r "lon")
      (coalesce (prop r "longitude")
         (and_then coordinates (at_indexq coordinates 0))) in
  let updatedAt :=
    first_defined r ["updatedAt"; "LastUpdate"; "time"; "datetime"; "LastUpdated";
                     "CreationDate"] VUndef in
  iso ← safeISO updatedAt;
  Ok (Row (if nullish id then Random else Given (to_String id))
          (VStr (to_String (or_else typeName (VStr "Incident"))))
          (first_defined r ["Category"; "category"] VUndef)
          (VNum (to_Number lat))
          (VNum (to_Number lon))
          (if truthy addressRaw then VStr (to_String addressRaw) else VNull)
          iso
          [("incidentTypeCode", typeCode);
           ("incidentTypeName", typeName);
           ("priority", first_defined r ["Priority"; "priority"] VUndef)]).

(** [{ ...(f.properties || {}), ...f }]: the fields of [f] win *)
Definition merge_feature (f : value) : result value :=
  properties ← get f "properties";
  Ok (VObj (spread f ++ spread (or_else properties (VObj [])))).

Definition parseJSONVariant (json : value) : result (list row) :=
  rows ←
    (if isArray json then Ok (items_of json)
     else if isArray (getq json "incidents") then Ok (items_of (getq json "incidents"))
     else if isArray (getq json "features")
          then map_result merge_feature (items_of (getq json "features"))
          else Ok []);
  map_result json_row rows.

(** *** The HTML table

    What [cheerio] finds in the document: for every [tr] of the first
    table, the text of its [th] and [td] cells, the text of its [td] cells,
    and the [href] of the map links found under those [td] cells, all in
    document order. *)
Record tr : Type := Tr {
  cells : list string;
  tds : list string;
  links : list string
}.

Definition find_index (r : re) (l : list string) : option nat :=
  fst <$> list_find (test r) l.

(** the two shapes of coordinates in a map link: [q=lat,lon] after [?] or
    [&], and [!3dlat!4dlon]; groups 1 and 3 are the numbers *)
Definition decimal (whole fraction : nat) : re :=
  Group whole (seqs [Opt (chr "-"); Plus digit;
                     Opt (Group fraction (Seq (chr ".") (Plus digit)))]).
Definition Q_LINK : re :=
  seqs [Alt (chr "?") (chr "&"); lit "q="; decimal 1 2; chr ","; Star space;
        decimal 3 4].
Definition D3_LINK : re := seqs [lit "!3d"; decimal 1 2; lit "!4d"; decimal 3 4].

Definition link_coords (href : string) : option (value * value) :=
  let read m :=
    (VNum (of_string (default EmptyString (capture 1 (groups m)))),
     VNum (of_string (default EmptyString (capture 3 (groups m))))) in
  match exec Q_LINK href with
  | Some m => Some (read m)
  | None => read <$> exec D3_LINK href
  end.

Definition html_row (idxProblem idxAddress idxTime : option nat) (t : tr)
  : result (option row) :=
  if decide (tds t = []) then Ok None
  else
    let get_cell idx :=
      match idx with
      | Some i => match tds t !! i with
                  | Some text => VStr (trim text)
                  | None => VUndef
                  end
      | None => VUndef
      end in
    let name := or_else (get_cell idxProblem) (VStr "Incident") in
    let addressRaw := get_cell idxAddress in
    updatedAt ← safeISO (get_cell idxTime);
    let '(lat, lon) :=
      fold_left (fun acc href => default acc (link_coords href))
                (links t) (VUndef, VUndef) in
    Ok (Some (Row Random name VUndef
                  (finite_or_undef lat) (finite_or_undef lon)
                  addressRaw updatedAt
                  [("incidentTypeCode", VUndef); ("incidentTypeName", name)])).

(** [parseHTMLTable] after [cheerio.load(text)]: [table] is the list of the
    [tr] of the first table, [None] when the document has no table *)
Definition parseHTMLTable_dom (table : option (list tr)) : result (list row) :=
  match table with
  | None => Ok []
  | Some trs =>
      let headers :=
        match trs with
        | first :: _ => map (fun c => toLowerCase (trim c)) (cells first)
        | [] => []
        end in
      let idxProblem := find_index (alts [lit "problem"; lit "type"; lit "incident"]) headers in
      let idxAddress := find_index (alts [lit "address"; lit "location"]) headers in
      let idxTime :=
        find_index (alts [lit "received"; lit "time"; lit "datetime"; lit "updated"])
                   headers in
      match map_result (html_row idxProblem idxAddress idxTime) (List.tail trs) with
      | Ok rs => Ok (omap (fun o : option row => o) rs)
      | Throw e => Throw e
      end
  end.

End Parsers.
End Pdx.

Module PdxFetch.
Import JsString JsNum JsValue Regex Geocode Common Pdx.

(** [String(addr || "")], the conversion made by [normalizeAddress] and by
    the request of the resolver *)
Definition text_of (address : value) : string :=
  to_String (or_else address (VStr "")).

Definition native_coords (r : row) : bool :=
  isFinite (r_lat r) && isFinite (r_lon r).

(** [if (r.address) r.address = withCityState(r.address)] *)
Definition tidy (r : row) : row :=
  if truthy (r_address r)
  then Row (r_id r) (r_name r) (r_category r) (r_lat r) (r_lon r)
           (withCityState (r_address r)) (r_updatedAt r) (r_extras r)
  else r.

Definition needs_geocoding (r : row) : bool :=
  negb (native_coords r) && truthy (r_address r).

(** the dedup pass: [uniqueMap], normalised address to the address of the
    first row that has it *)
Definition uniqueMap (rows : list row) : list (string * value) :=
  fold_left
    (fun m r => omap_add_new (normalizeAddress (text_of (r_address r)))
                             (r_address r) m)
    (filter (fun r => needs_geocoding r = true) rows) [].

(** [/<kml[\s>]/i] and [/<html[\s>]/i] *)
Definition kml_sniff : re :=
  Seq (lit_i "<kml") (Class (fun c => is_space c || Ascii.eqb c ">")).
Definition html_sniff : re :=
  Seq (lit_i "<html") (Class (fun c => is_space c || Ascii.eqb c ">")).

Section Adapter.
Context {S : Type} (geocode : resolver S).
(** The libraries and built-in parsers the adapter calls: [xml_parse] is
    [new XMLParser(...).parse], [JSON_parse] is [JSON.parse], [first_table]
    is what [cheerio] finds (see [Pdx.tr]), [date_parse] is [new Date] on a
    string. *)
Context (xml_parse : string -> result value)
        (JSON_parse : string -> result value)
        (first_table : string -> option (list tr))
        (date_parse : string -> option Z).

Definition parseKML (text : string) : result (list row) :=
  kml ← xml_parse text; Ok (parseKML_doc date_parse kml).

Definition parseHTMLTable (text : string) : result (list row) :=
  parseHTMLTable_dom date_parse (first_table text).

(** the content sniffing of [fetchCity] *)
Definition parse_rows (text : string) : result (list row) :=
  if test kml_sniff text then parseKML text
  else
    try_catch (json ← JSON_parse text; parseJSONVariant date_parse json)
              (if test html_sniff text then parseHTMLTable text else Ok []).

(** the worker run for one key of [uniqueMap] *)
Definition worker (norm : string) (original : value)
    (acc : gmap string geo * fetch_state S) : gmap string geo * fetch_state S :=
  let '(results, st) := acc in
  match resolve geocode (text_of original) st with
  | (Some g, st1) => (<[norm := g]> results, st1)
  | (None, st1) => (results, st1)
  end.

Definition geocode_all (uniq : list (string * value)) (st : fetch_state S)
  : gmap string geo * fetch_state S :=
  fold_left (fun acc kv => worker (fst kv) (snd kv) acc) uniq (∅, st).

(** the coordinates and address chosen for a row: its own when both are
    finite, else those of the result stored for its address, if any *)
Definition chosen (results : gmap string geo) (r : row) : value * value * value :=
  if negb (native_coords r) && truthy (r_address r) then
    match results !! normalizeAddress (text_of (r_address r)) with
    | Some g =>
        (VNum (g_lat g), VNum (g_lon g), or_else (g_formatted g) (r_address r))
    | None => (r_lat r, r_lon r, r_address r)
    end
  else (r_lat r, r_lon r, r_address r).

(** the body of the loop that builds [places] *)
Definition place_of (results : gmap string geo) (r : row) : option (place row) :=
  let '(lat, lon, address) := chosen results r in
  if negb (isFinite lat) || negb (isFinite lon) then None
  else Some (Place r (to_Number lat) (to_Number lon) address).

Record fetched : Type := Fetched {
  places : list (place row);
  geoResults : gmap string geo;
  final : fetch_state S
}.

(** the pipeline once the rows are parsed *)
Definition fetch_rows (parsed : list row) (s0 : S) : fetched :=
  let rows := map tidy parsed in
  let '(results, st) := geocode_all (uniqueMap rows) (s0, []) in
  Fetched (omap (place_of results) rows) results st.

(** [fetchCity], from the text of the response on *)
Definition fetchCity (text : string) (s0 : S) : result fetched :=
  parsed ← parse_rows text; Ok (fetch_rows parsed s0).

End Adapter.
End PdxFetch.

(** ** adapters/sf.js *)

Module Sf.
Import JsString JsNum JsValue Regex Common.

(** a number with an optional sign and an optional fraction *)
Definition signed_number : re :=
  seqs [Opt (chr "-"); Plus digit; Opt (Seq (chr ".") (Plus digit))].

(** the WKT point: [POINT], an opening parenthesis, group 1 the first
    number, white space, group 2 the second number, a closing parenthesis,
    white space being allowed around the parentheses *)
Definition WKT_POINT : re :=
  seqs [lit_i "POINT"; Star space; chr "("; Star space;
        Group 1 signed_number; Plus space; Group 2 signed_number;
        Star space; chr ")"].

Definition both_finite (c : num * num) : bool := finite (fst c) && finite (snd c).

(** a pair of coordinates is kept when both are finite *)
Definition keep (c : num * num) : option (num * num) :=
  if both_finite c then Some c else None.

Definition or_opt {A} (a b : option A) : option A :=
  match a with Some _ => a | None => b end.

(** the three readings of one candidate container, in the order of the
    source: a GeoJSON point [[lon, lat]], the fields [latitude] and
    [longitude], a WKT point; [None] when none gives two finite numbers *)
Definition coords_in (loc : value) : option (num * num) :=
  let cs := prop loc "coordinates" in
  let geojson :=
    if isObject loc && isArray cs && (2 <=? length (items_of cs))
    then keep (to_Number (at_index cs 1), to_Number (at_index cs 0))
    else None in
  let fields :=
    keep (to_Number (prop loc "latitude"), to_Number (prop loc "longitude")) in
  let wkt :=
    match loc with
    | VStr text =>
        m ← exec WKT_POINT text;
        keep (of_string (default EmptyString (capture 2 (groups m))),
              of_string (default EmptyString (capture 1 (groups m))))
    | _ => None
    end in
  or_opt geojson (or_opt fields wkt).

Fixpoint first_coords (candidates : list value) : option (num * num) :=
  match candidates with
  | [] => None
  | loc :: rest =>
      if negb (truthy loc) then first_coords rest
      else match coords_in loc with
           | Some c => Some c
           | None => first_coords rest
           end
  end.

(** [extractCoords(row)]: [Some (lat, lon)] with both finite, or [None] for
    [{ lat: undefined, lon: undefined }] *)
Definition extractCoords (row : value) : result (option (num * num)) :=
  latitude ← get row "latitude";
  let top := (to_Number latitude, to_Number (prop row "longitude")) in
  if both_finite top then Ok (Some top)
  else Ok (first_coords
             (map (prop row)
                  ["intersection_point"; "location"; "point"; "location_1";
                   "geom"; "geometry"])).

(** An emitted place: the row it was built from (its address, name and
    extras are computed from the row alone) and its coordinates. *)
Record sf_place : Type := SfPlace {
  row : value;
  lat : num;
  lon : num
}.

Definition place_of (r : value) : result (option sf_place) :=
  c ← extractCoords r;
  match c with
  | Some (lat, lon) => Ok (Some (SfPlace r lat lon))
  | None => Ok None
  end.

Section Adapter.
Context (JSON_parse : string -> result value).

(** [fetchCity], from the text of the response on.  A text that is not
    JSON, and a JSON value that is not a non-empty array, give no place. *)
Definition fetchCity (text : string) : result (list sf_place) :=
  match JSON_parse text with
  | Throw _ => Ok []
  | Ok rows =>
      if negb (isArray rows) then Ok []
      else
        match map_result place_of (items_of rows) with
        | Ok l => Ok (omap (fun o : option sf_place => o) l)
        | Throw e => Throw e
        end
  end.

End Adapter.
End Sf.

(** ** adapters/sf.js, the variant with a bounding box and geocoding *)

Module SfBBox.
Import JsString JsNum JsValue Regex Geocode Common.

(** [SF_BBOX] and [ENFORCE_BBOX] *)
Record config : Type := Config {
  minLat : num;
  maxLat : num;
  minLon : num;
  maxLon : num;
  ENFORCE_BBOX : bool
}.

(** [Number(process.env.X ?? d)] and [String(process.env.X ?? "true") === "true"] *)
Definition bound_of_env (v : option string) (d : Q) : num :=
  match v with Some s => of_string s | None => Fin d end.
Definition enforce_of_env (v : option string) : bool :=
  match v with Some s => String.eqb s "true" | None => true end.

Definition config_of_env (min_lat max_lat min_lon max_lon enforce : option string)
  : config :=
  Config (bound_of_env min_lat 37.55) (bound_of_env max_lat 37.95)
         (bound_of_env min_lon (-122.60)) (bound_of_env max_lon (-122.20))
         (enforce_of_env enforce).

Definition default_config : config := config_of_env None None None None None.

Definition in_box (cfg : config) (lat lon : num) : bool :=
  ge lat (minLat cfg) && le lat (maxLat cfg)
  && ge lon (minLon cfg) && le lon (maxLon cfg).

(** [pick(v, ...keys)] *)
Fixpoint pick (v : value) (keys : list string) : value :=
  match keys with
  | [] => VUndef
  | k :: rest =>
      if truthy v && negb (nullish (prop v k)) then prop v k else pick v rest
  end.

(** [s(v)]: [(v ?? "").toString().trim()] *)
Definition s (v : value) : string := trim (to_String (coalesce v (VStr ""))).

Definition looksStreetSpecific (str : value) : bool :=
  let t := toLowerCase (to_String (match str with VUndef => VStr "" | _ => str end)) in
  test (seqs [Plus digit; Plus space; Class is_alpha]) t
  || includes "&" t
  || includes " / " t
  || test (Seq (lit_i " block") WordB) t
  || test (seqs [WordB;
                 alts (map lit_i ["st"; "street"; "ave"; "avenue"; "blvd"; "dr";
                                  "rd"; "ln"; "terr"; "pl"; "ct"]);
                 WordB]) t.

(** [withCityState] on a string *)
Definition withCityState (addr : string) : string :=
  if is_empty addr then "San Francisco, CA"
  else
    let clean :=
      trim (replace_all (seqs [chr ","; Plus space; chr ","]) ","
              (replace_all (Seq (Plus space) (chr ",")) "," addr)) in
    let lower := toLowerCase clean in
    if includes "san francisco" lower || includes " ca" lower
       || includes "california" lower
    then clean
    else clean +:+ ", San Francisco, CA".

(** [withCityState] on any value: a value that is not a string has no
    [replace] method *)
Definition withCityState_value (addr : value) : result string :=
  if negb (truthy addr) then Ok "San Francisco, CA"
  else match addr with
       | VStr a => Ok (withCityState a)
       | _ => Throw TypeError
       end.

Section Adapter.
Context {S : Type} (geocode : resolver S) (cfg : config).
Context (JSON_parse : string -> result value).

(** [inSF(lat, lon)] *)
Definition inSF (lat lon : value) : bool :=
  if negb (isFinite lat) || negb (isFinite lon) then false
  else if negb (ENFORCE_BBOX cfg) then true
  else in_box cfg (num_of lat) (num_of lon).

Definition strict_pair (lat lon : num) : option (value * value) :=
  if inSF (VNum lat) (VNum lon) then Some (VNum lat, VNum lon) else None.

(** [extractCoordsStrict(row)]; [(undefined, undefined)] when no known
    shape gives a point that passes [inSF] *)
Definition extractCoordsStrict (row : value) : result (value * value) :=
  latitude ← get row "latitude";
  match strict_pair (to_Number latitude) (to_Number (prop row "longitude")) with
  | Some c => Ok c
  | None =>
      let loc :=
        fold_right (fun k rest => or_else (prop row k) rest) (prop row "geometry")
                   ["location"; "point"; "location_1"; "geom"] in
      if truthy loc && isObject loc then
        match strict_pair (to_Number (prop loc "latitude"))
                          (to_Number (prop loc "longitude")) with
        | Some c => Ok c
        | None =>
            let cs := prop loc "coordinates" in
            if isArray cs && (2 <=? length (items_of cs)) then
              match strict_pair (to_Number (at_index cs 1))
                                (to_Number (at_index cs 0)) with
              | Some c => Ok c
              | None => Ok (VUndef, VUndef)
              end
            else Ok (VUndef, VUndef)
        end
      else Ok (VUndef, VUndef)
  end.

(** [buildAddressFromHumanAddress(ha)]: any exception gives [undefined],
    that of [JSON.parse] and that of [join] on a part that cannot be
    converted *)
Definition buildAddressFromHumanAddress (ha : value) : value :=
  let obj := match ha with VStr text => JSON_parse text | _ => Ok ha end in
  match obj with
  | Throw _ => VUndef
  | Ok o =>
      let parts :=
        filter (fun v => truthy v = true)
               (map (getq o) ["address"; "city"; "state"; "zip"]) in
      if existsb unprintable parts then VUndef
      else VStr (join ", " (map to_String parts))
  end.

Definition bestStreetFromDataset (r : value) : string :=
  let candidates :=
    [s (pick r ["address"]);
     s (pick r ["intersection"]);
     (if truthy (prop r "location") && isObject (prop r "location")
      then s (buildAddressFromHumanAddress (prop (prop r "location") "human_address"))
      else EmptyString);
     s (pick r ["location_text"])] in
  default EmptyString (List.find (fun c => negb (is_empty c)) candidates).

Definition bestAddressForGeocode (r : value) : string :=
  let a := bestStreetFromDataset r in
  if negb (is_empty a) then a
  else let b := s (pick r ["neighborhood_district"]) in
       if negb (is_empty b) then b else "San Francisco City Hall".

(** An element of [prelim]: [raw] carries the row, from which the
    identifier, name, time stamp and extras are computed. *)
Record prelim : Type := Prelim {
  raw : value;
  p_lat : value;
  p_lon : value;
  streetFromDataset : string;
  geocodeQuery : string
}.

Definition extract (r : value) : result prelim :=
  c ← extractCoordsStrict r;
  Ok (Prelim r (fst c) (snd c) (bestStreetFromDataset r) (bestAddressForGeocode r)).

Definition has_coords (p : prelim) : bool := isFinite (p_lat p) && isFinite (p_lon p).

Definition key_of (p : prelim) : string :=
  normalizeAddress (withCityState (geocodeQuery p)).

Definition uniqueMap (rows : list prelim) : list (string * string) :=
  fold_left
    (fun m p => omap_add_new (key_of p) (withCityState (geocodeQuery p)) m)
    (filter (fun p => (negb (has_coords p) && negb (is_empty (geocodeQuery p))) = true)
            rows) [].

(** the worker run for one key of [uniqueMap]: a result is stored only when
    it passes [inSF] *)
Definition worker (norm original : string)
    (acc : gmap string geo * fetch_state S) : gmap string geo * fetch_state S :=
  let '(results, st) := acc in
  match resolve geocode original st with
  | (Some g, st1) =>
      if inSF (VNum (g_lat g)) (VNum (g_lon g))
      then (<[norm := g]> results, st1) else (results, st1)
  | (None, st1) => (results, st1)
  end.

Definition geocode_all (uniq : list (string * string)) (st : fetch_state S)
  : gmap string geo * fetch_state S :=
  fold_left (fun acc kv => worker (fst kv) (snd kv) acc) uniq (∅, st).

(** the coordinates a record ends with *)
Definition final_coords (results : gmap string geo) (p : prelim) : value * value :=
  if negb (has_coords p) && negb (is_empty (geocodeQuery p)) then
    match results !! key_of p with
    | Some g => (VNum (g_lat g), VNum (g_lon g))
    | None => (p_lat p, p_lon p)
    end
  else (p_lat p, p_lon p).

(** the display address: the street of the dataset, else the formatted
    address of the stored result when it looks like a street *)
Definition display_of (results : gmap string geo) (p : prelim) : result string :=
  let display := trim (streetFromDataset p) in
  if negb (is_empty display) then Ok (withCityState display)
  else
    let formatted :=
      match results !! key_of p with
      | Some g => g_formatted g
      | None => VUndef
      end in
    withCityState_value
      (if looksStreetSpecific formatted then formatted else VStr "").

(** the body of the loop that builds [places] *)
Definition place_of (results : gmap string geo) (p : prelim)
  : result (option (place prelim)) :=
  let '(lat, lon) := final_coords results p in
  if negb (inSF lat lon) then Ok None
  else
    display ← display_of results p;
    Ok (Some (Place p (num_of lat) (num_of lon) (VStr display))).

Record fetched : Type := Fetched {
  places : list (place prelim);
  geoResults : gmap string geo;
  final : fetch_state S
}.

(** [fetchCity], from the text of the response on *)
Definition fetchCity (text : string) (s0 : S) : result fetched :=
  match JSON_parse text with
  | Throw _ => Ok (Fetched [] ∅ (s0, []))
  | Ok rows =>
      if negb (isArray rows) || (length (items_of rows) =? 0) then
        Ok (Fetched [] ∅ (s0, []))
      else
        match map_result extract (items_of rows) with
        | Throw e => Throw e
        | Ok records =>
            let '(results, st) := geocode_all (uniqueMap records) (s0, []) in
            match map_result (place_of results) records with
            | Throw e => Throw e
            | Ok l => Ok (Fetched (omap (fun o : option (place prelim) => o) l) results st)
            end
        end
  end.

End Adapter.
End SfBBox.

(** ** Concrete inputs used by the examples *)

Module Inputs.
Import JsString JsNum JsValue Geocode.

Definition nashville_center_hit : value :=
  VObj [("results",
         VArr [VObj [("geometry", VObj [("lat", VNum (Fin 36.1627));
                                        ("lng", VNum (Fin (-86.7816)))]);
                     ("formatted", VStr "Nashville, TN, USA")]])].

Definition cfg_with_key : config := Config (Some "k") default_TTL.

Definition upstream_ok (_ : string) : response :=
  Response 200 "" (Ok nashville_center_hit).

(** a resolver without state that places every address in New York *)
Definition new_york : geo := Geo (Fin 40.7128) (Fin (-74.0060)) (VStr "New York, NY, USA").
Definition downtown : geo := Geo (Fin 36.1627) (Fin (-86.7816)) (VStr "Nashville, TN, USA").

Definition geocode_far : Common.resolver unit := fun _ st => (Some new_york, st).

(** a resolver that finds Nashville only when the address names it *)
Definition geocode_by_city : Common.resolver unit := fun address st =>
  (Some (if includes "Nashville" address then downtown else new_york), st).

(** a resolver whose every call throws *)
Definition geocode_down : Common.resolver unit := fun _ st => (None, st).

(** two features of the Nashville feed whose addresses differ in case and
    spacing only *)
Definition feature (address : string) : value :=
  VObj [("properties", VObj [("Address", VStr address)])].
Definition fifth_avenue_twice : value :=
  VObj [("features", VArr [feature "5th Ave"; feature "5th   ave"])].

(** a Portland row without coordinates *)
Definition street_row (address : string) : Pdx.row :=
  Pdx.Row Pdx.Random (VStr "Incident") VUndef VUndef VUndef (VStr address) VUndef [].

(** a resolver that answers with a formatted address of its own *)
Definition main_street : geo :=
  Geo (Fin 45.5152) (Fin (-122.6784)) (VStr "123 SW Main St, Portland, OR 97204, USA").
Definition geocode_main_street : Common.resolver unit := fun _ st => (Some main_street, st).

(** rows whose only latitude is 91 *)
Definition json_lat_91 : value :=
  VArr [VObj [("id", VStr "A1"); ("lat", VStr "91"); ("lon", VStr "-122.6");
              ("address", VStr "1 Main St")]].
Definition sf_lat_91 : value :=
  VObj [("cad_number", VStr "251230001"); ("latitude", VStr "91");
        ("longitude", VStr "-122.4"); ("intersection_name", VStr "MARKET ST \ 5TH ST")].
Definition kml_lat_91 : value :=
  VObj [("name", VStr "THEFT at 1 MAIN ST"); ("description", VStr "THEFT at 1 MAIN ST");
        ("Point", VObj [("coordinates", VStr "-122.6,91,0")])].

(** a JSON parser that reads every text as one San Francisco row with
    coordinates of its own; it stands for [JSON.parse] on that text *)
Definition market_street : value :=
  VArr [VObj [("cad_number", VStr "251230002"); ("latitude", VStr "37.7749");
              ("longitude", VStr "-122.4194"); ("address", VStr "1 MARKET ST")]].
Definition parse_market_street : string -> result value := fun _ => Ok market_street.

(** a row without coordinates or street, and a resolver that finds it at
    the city hall *)
Definition city_hall_row : value :=
  VArr [VObj [("cad_number", VStr "251230003"); ("call_type", VStr "PASSING CALL")]].
Definition city_hall : geo :=
  Geo (Fin 37.7793) (Fin (-122.4193))
      (VStr "1 Dr Carlton B Goodlett Pl, San Francisco, CA 94102, USA").
Definition geocode_city_hall : Common.resolver unit := fun _ st => (Some city_hall, st).

(** a row of the dataset with coordinates of its own in New York, outside
    the box of the San Francisco adapter *)
Definition new_york_row : value :=
  VObj [("cad_number", VStr "251230004"); ("latitude", VStr "40.7128");
        ("longitude", VStr "-74.0060"); ("address", VStr "1 MARKET ST")].

(** a Portland row with coordinates of its own *)
Definition row_with_coordinates : Pdx.row :=
  Pdx.Row (Pdx.Given "A1") (VStr "THEFT") VUndef
          (VNum (Fin 45.52)) (VNum (Fin (-122.68)))
          (VStr "1 Main St") VUndef [].

(** an answer of the service as the San Francisco adapter reads it; the
    examples give the value that [JSON.parse] reads from the body and do
    not spell out its text, for which [rows] stands *)
Definition sf_response (status : Z) (body : string) : response :=
  Response status body (Throw SyntaxError).
Definition rows : string := "[...]".

(** two features of the Nashville feed with different addresses *)
Definition two_streets : value :=
  VObj [("features", VArr [feature "5th Ave"; feature "Main St"])].

End Inputs.

(** ** Auxiliary predicates used in the proofs *)

Module Shapes.
Import JsString JsNum JsValue Geocode Common.

(** every cached result has finite coordinates *)
Definition all_finite (cache : gmap string entry) : Prop :=
  forall q e, cache !! q = Some e ->
    finite (g_lat (data e)) = true /\ finite (g_lon (data e)) = true.

(** The shape of a collapsed string: every white space character is a
    space and no two of them are adjacent. *)
Fixpoint single_spaced (prev_space : bool) (s : string) : bool :=
  match s with
  | EmptyString => true
  | String c r =>
      if is_space c
      then negb prev_space && Ascii.eqb c " " && single_spaced true r
      else single_spaced false r
  end.

Definition starts_space (s : string) : bool :=
  match s with String c _ => is_space c | EmptyString => false end.

Fixpoint ends_space (s : string) : bool :=
  match s with
  | EmptyString => false
  | String c EmptyString => is_space c
  | String _ r => ends_space r
  end.

(** a Portland row ends with finite coordinates: its own, or those of the
    result stored for its address *)
Definition has_finite_coords (results : gmap string geo) (r : Pdx.row) : bool :=
  PdxFetch.native_coords r
  || (truthy (Pdx.r_address r)
      && match results !! normalizeAddress (PdxFetch.text_of (Pdx.r_address r)) with
         | Some g => finite (g_lat g) && finite (g_lon g)
         | None => false
         end).

End Shapes.

Module Traces.
Import JsString JsNum JsValue Geocode Common.

(** An ordered map whose keys are distinct and computed from the values. *)
Definition keyed {A} (key : A -> string) (m : list (string * A)) : Prop :=
  NoDup (map fst m) /\ Forall (fun kv => fst kv = key (snd kv) /\ fst kv <> EmptyString) m.

End Traces.

(** ** What a pattern can take from a text *)

Module Matcher.
Import JsString Regex.

(** [takes r s s']: the pattern [r] can match at the start of [s] and leave
    [s'].  Positions are over-approximated at [^] and [\b], which look
    behind; [$] asks for the end of the text. *)
Inductive takes : re -> string -> string -> Prop :=
| takes_Eps s : takes Eps s s
| takes_Class (p : ascii -> bool) x s : p x = true -> takes (Class p) (String x s) s
| takes_Seq a b s s1 s2 : takes a s s1 -> takes b s1 s2 -> takes (Seq a b) s s2
| takes_Alt_l a b s s' : takes a s s' -> takes (Alt a b) s s'
| takes_Alt_r a b s s' : takes b s s' -> takes (Alt a b) s s'
| takes_Star_nil a s : takes (Star a) s s
| takes_Star_more a s s1 s2 :
    takes a s s1 -> takes (Star a) s1 s2 -> takes (Star a) s s2
| takes_Group i a s s' : takes a s s' -> takes (Group i a) s s'
| takes_Bol s : takes Bol s s
| takes_Eol : takes Eol EmptyString EmptyString
| takes_WordB s : takes WordB s s.

Fixpoint all_chars (p : ascii -> bool) (s : string) : bool :=
  match s with
  | EmptyString => true
  | String x r => p x && all_chars p r
  end.

End Matcher.

(** ** adapters/nashville.js: the fields computed from the properties *)

Module NashvilleFields.
Import JsString JsNum JsValue Geocode Common.

Section Fields.
(** [date_parse s] is the time value of [new Date(s)] for a string [s],
    [None] for an invalid date. *)
Context (date_parse : string -> option Z).

(** [toISO(ts)]: a number is converted without a validity check, so that
    [toISOString] throws on a time value that is out of range *)
Definition toISO (ts : value) : result value :=
  if nullish ts then Ok VUndef
  else match ts with
       | VNum n =>
           match JsDate.time_of_num n with
           | Some t => Ok (VStr (JsDate.toISOString t))
           | None => Throw RangeError
           end
       | VStr s =>
           match date_parse s with
           | Some t => Ok (VStr (JsDate.toISOString t))
           | None => Ok VUndef
           end
       | _ => Ok VUndef
       end.

Definition updated_stamp (props : value) : value :=
  first_defined props ["LastUpdated"; "LastUpdate"; "UpdatedAt"] VUndef.

Definition received_stamp (props : value) : value :=
  first_defined props ["CallReceivedTime"; "call_received"; "Call_Received"; "datetime"]
                VUndef.

Definition extractUpdatedAt (props : value) : result value :=
  toISO (updated_stamp props).

Definition extractCallTimeReceived (props : value) : result value :=
  toISO (received_stamp props).

(** [extractId(props)]: the first identifier of the feed as a string, a
    random one when the feed has none *)
Definition extractId (props : value) : Pdx.ident :=
  let v := first_defined props
             ["GlobalID"; "GLOBALID"; "OBJECTID"; "objectid"; "IncidentNumber";
              "Incident_No"; "CallID"; "id"] VUndef in
  if nullish v then Pdx.Random else Pdx.Given (to_String v).

Definition extractCategory (props : value) : value :=
  first_defined props
    ["IncidentDescription"; "CALL_TYPE"; "Event_Type"; "CallType"; "Description"; "TYPE"]
    VUndef.

Definition extractName (props fallbackCat : value) : value :=
  coalesce (prop props "Headline")
    (coalesce (prop props "Title") (coalesce fallbackCat (VStr "Incident"))).

(** An element of [prelim] with the fields that [Nashville.prelim] leaves
    to the properties. *)
Record fields : Type := Fields {
  base : Nashville.prelim;
  id : Pdx.ident;
  category : value;
  name : value;
  updatedAt : value;
  callTimeReceived : value
}.

(** the callback of [features.map]: the fields are computed in the order
    of the object literal *)
Definition premap_one (f : value) : result fields :=
  let props := or_else (getq f "properties") (VObj []) in
  let row := Nashville.extract f in
  let id := extractId props in
  let category := extractCategory props in
  let name := extractName props (extractCategory props) in
  updatedAt ← extractUpdatedAt props;
  callTimeReceived ← extractCallTimeReceived props;
  Ok (Fields row id category name updatedAt callTimeReceived).

Definition premap (geojson : value) : result (list fields) :=
  map_result premap_one (Nashville.features_of geojson).

(** a time stamp on which [toISO] throws: a number that is no valid time
    value *)
Definition bad_stamp (ts : value) : bool :=
  match ts with
  | VNum n => bool_decide (JsDate.time_of_num n = None)
  | _ => false
  end.

Definition bad_feature (f : value) : bool :=
  let props := or_else (getq f "properties") (VObj []) in
  bad_stamp (updated_stamp props) || bad_stamp (received_stamp props).

(** [fetchCity] from the parsed body on, the pre-map included: an exception
    of the pre-map ends the fetch before the resolver is called *)
Definition fetchCity {S : Type} (geocode : resolver S) (M : Math)
    (geojson : value) (s0 : S) : result (list fields * Nashville.fetched (S:=S)) :=
  rows ← premap geojson;
  Ok (rows, Nashville.fetchCity geocode M geojson s0).

End Fields.
End NashvilleFields.

(** ** Auxiliary notions of the pipeline proofs *)

Module Pipeline.
Import JsString JsNum JsValue Geocode Common.

(** the step of the Nashville dedup pass *)
Definition add_row (m : list (string * string)) (row : Nashville.prelim)
  : list (string * string) :=
  if is_empty (Nashville.displayAddress row) then m
  else omap_add_new (normalizeAddress (Nashville.displayAddress row))
                    (Nashville.displayAddress row) m.

(** a key is stored with finite coordinates *)
Definition stored (results : gmap string geo) (k : string) : Prop :=
  exists g, results !! k = Some g /\ finite (g_lat g) = true /\ finite (g_lon g) = true.

End Pipeline.

Module Counting.
Import JsString.

(** the number of occurrences of a character *)
Fixpoint count_char (c : ascii) (s : string) : nat :=
  match s with
  | EmptyString => 0
  | String x r => (if Ascii.eqb x c then 1 else 0) + count_char c r
  end.

End Counting.

Module Mentions.
Import JsString JsValue.

(** the test of Portland's [withCityState] on the lower-cased address *)
Definition names_portland (lower : string) : bool :=
  includes "portland" lower || includes " or" lower || includes "oregon" lower.

(** the test of San Francisco's [withCityState] on the lower-cased address *)
Definition names_san_francisco (lower : string) : bool :=
  includes "san francisco" lower || includes " ca" lower
  || includes "california" lower.

End Mentions.

Module Rows.
Import JsString JsNum JsValue.

(** the array that [parseJSONVariant] maps over, before the features are
    merged with their properties *)
Definition source_items (json : value) : list value :=
  if isArray json then items_of json
  else if isArray (getq json "incidents") then items_of (getq json "incidents")
  else if isArray (getq json "features") then items_of (getq json "features")
  else [].

(** a number on which [toISOString] throws once [safeISO] has let it
    through: an infinity, or a finite number beyond the largest time value *)
Definition beyond_dates (n : num) : bool :=
  match n with
  | Fin q => negb (Qle_bool (Qabs q) (inject_Z JsDate.max_time))
  | NaN => false
  | _ => true
  end.

(** every white space character is a space *)
Definition only_spaces (s : string) : bool :=
  Matcher.all_chars (fun c => negb (is_space c) || Ascii.eqb c " ") s.

End Rows.

(** ** providers/index.js and routes/city.js *)

Module Providers.
Import JsString JsNum JsValue.

(** What [registry[name]] can give: one of the three adapters, or a member
    inherited from [Object.prototype], which is no adapter. *)
Inductive provider : Type :=
| nashvilleMNPD
| pdx
| sf
| Foreign (text : string).

Definition registry : list (string * provider) :=
  [("nashvilleMNPD", nashvilleMNPD); ("pdx", pdx); ("sf", sf)].

Definition CITY_PROVIDER : list (string * string) :=
  [("nashville", "nashvilleMNPD");
   ("portland", "pdx");
   ("pdx", "pdx");
   ("sf", "sf");
   ("san-francisco", "sf");
   ("sanfrancisco", "sf")].

(** The members that an object literal inherits from [Object.prototype],
    each with the text that [String] gives for it: eleven functions, and
    the accessor [__proto__], whose value is [Object.prototype] itself.
    All of them are truthy. *)
Definition native (name : string) : string :=
  "function " +:+ name +:+ "() { [native code] }".

Definition Object_prototype : list (string * string) :=
  [("constructor", native "Object");
   ("__defineGetter__", native "__defineGetter__");
   ("__defineSetter__", native "__defineSetter__");
   ("hasOwnProperty", native "hasOwnProperty");
   ("__lookupGetter__", native "__lookupGetter__");
   ("__lookupSetter__", native "__lookupSetter__");
   ("isPrototypeOf", native "isPrototypeOf");
   ("propertyIsEnumerable", native "propertyIsEnumerable");
   ("toString", native "toString");
   ("valueOf", native "valueOf");
   ("__proto__", "[object Object]");
   ("toLocaleString", native "toLocaleString")].

(** own property [k] of an object literal *)
Definition own {A} (k : string) (fields : list (string * A)) : option A :=
  snd <$> List.find (fun p => String.eqb (fst p) k) fields.

(** [resolveProvider(city)] for a string [city].  [name] is followed as the
    text it has when it is used as a property key and in the message: the
    name itself when it is a string, [String] of the inherited member
    otherwise. *)
Definition resolveProvider (city : string) : result provider :=
  let key := toLowerCase city in
  let name :=
    match own key CITY_PROVIDER with
    | Some n => if is_empty n then "nashvilleMNPD" else n
    | None =>
        match own key Object_prototype with
        | Some text => text
        | None => "nashvilleMNPD"
        end
    end in
  match own name registry with
  | Some p => Ok p
  | None =>
      match own name Object_prototype with
      | Some text => Ok (Foreign text)
      | None => Throw (Failure ("No provider registered: " +:+ name))
      end
  end.

End Providers.

Module CityRoutes.
Import JsString JsNum JsValue Providers.

(** the values of the [X-Cache] header *)
Inductive x_cache : Type := hit | miss | stale_refresh.

Section Handler.
(** [D] is the payload of a fetch and [S] the state of the adapters (the
    feeds, the resolver and its cache).  [cityTTL] is what the config
    module exports under this name, [undefined] when it exports nothing of
    the kind; [fetchCity p city] is [p.fetchCity(city)] for an adapter
    [p]. *)
Context {D S : Type}.
Context (cityTTL : value).
Context (fetchCity : provider -> string -> S -> result D * S).

(** [{ data, expiresAt }] *)
Record entry : Type := Entry {
  data : D;
  expiresAt : num
}.

(** what the handler returns: the payload and the header it has set *)
Record reply : Type := Reply {
  body : D;
  header : x_cache
}.

(** the state of the module: its cache, and the state of the adapters *)
Definition state : Type := (gmap string entry * S)%type.

(** the handler of [GET /v1/city/:city] for the parameter [param], [now]
    being the value of [Date.now()] *)
Definition handle (param : string) (now : Z) (st : state) : result reply * state :=
  let '(cache, s) := st in
  let city := toLowerCase param in
  let key := "city:" +:+ city in
  let cached := cache !! key in
  let fresh :=
    match cached with
    | Some e => if gt (expiresAt e) (of_Z now) then Some (data e) else None
    | None => None
    end in
  match fresh with
  | Some d => (Ok (Reply d hit), st)
  | None =>
      match resolveProvider city with
      | Throw e => (Throw e, st)
      | Ok (Foreign _) => (Throw TypeError, st)      (* no [fetchCity] method *)
      | Ok p =>
          match fetchCity p city s with
          | (Throw e, s') => (Throw e, (cache, s'))
          | (Ok d, s') =>
              (Ok (Reply d (match cached with Some _ => stale_refresh | None => miss end)),
               (<[key := Entry d (add (of_Z now)
                                      (mul (to_Number cityTTL) (of_Z 1000)))]> cache,
                s'))
          end
      end
  end.

(** requests served one after the other: the replies, oldest first, and
    the state they leave *)
Fixpoint serve (requests : list (string * Z)) (st : state)
  : list (result reply) * state :=
  match requests with
  | [] => ([], st)
  | (param, now) :: rest =>
      let '(r, st1) := handle param now st in
      let '(rs, st2) := serve rest st1 in
      (r :: rs, st2)
  end.

Definition is_hit (r : result reply) : bool :=
  match r with
  | Ok (Reply _ hit) => true
  | _ => false
  end.

End Handler.
End CityRoutes.

(** ** Patterns and texts in the proofs about formatting *)

Module TextShapes.
Import JsString Regex.

(** a pattern without a capturing group *)
Fixpoint group_free (r : re) : bool :=
  match r with
  | Seq a b | Alt a b => group_free a && group_free b
  | Star a => group_free a
  | Group _ _ => false
  | _ => true
  end.

(** every character a pattern can take satisfies [P] *)
Fixpoint takes_only (P : ascii -> bool) (r : re) : Prop :=
  match r with
  | Class p => forall c, p c = true -> P c = true
  | Seq a b | Alt a b => takes_only P a /\ takes_only P b
  | Star a | Group _ a => takes_only P a
  | _ => True
  end.

(** the text without the characters that satisfy [p] *)
Fixpoint without (p : ascii -> bool) (s : string) : string :=
  match s with
  | EmptyString => EmptyString
  | String c r => if p c then without p r else String c (without p r)
  end.

(** white space and the two slashes *)
Definition is_separator (c : ascii) : bool :=
  is_space c || Ascii.eqb c "/" || Ascii.eqb c "\".

(** the letters, digits and punctuation of a street, in lower case:
    what is left of it without white space and slashes *)
Definition street_text (s : string) : string :=
  without is_separator (toLowerCase s).

End TextShapes.

(** ** Splitting on a pattern *)

Module RegexSplit.
Import JsString Regex.

(** the texts of the groups [1] to [n] of a match; the patterns that are
    split on have no group that can stay out of a match *)
Definition captures (n : nat) (c : caps) : list string :=
  map (fun i => default EmptyString (capture (S i) c)) (seq 0 n).

(** The loop of [s.split(re)]: [cur] is the text between the end [p] of
    the last separator and the position [q], in reverse, [s] the text from
    [q] on, and [prev] the character before [q].  A match at [q] that ends
    at [p] moves [q] by one character; any other match closes the current
    piece, adds the groups and moves [p] and [q] to its end. *)
Fixpoint split_go (fuel : nat) (r : re) (n : nat) (prev : option ascii)
    (cur : string) (s : string) : list string :=
  match fuel with
  | O => [String.rev cur +:+ s]
  | S fuel' =>
      match s with
      | EmptyString => [String.rev cur]
      | String x s' =>
          match match_here r prev s with
          | Some (rest, c) =>
              if is_empty cur && (String.length rest =? String.length s)
              then split_go fuel' r n (Some x) (String x cur) s'
              else String.rev cur
                   :: captures n c
                   ++ split_go fuel' r n
                        (last_char prev
                           (take (String.length s - String.length rest) s))
                        EmptyString rest
          | None => split_go fuel' r n (Some x) (String x cur) s'
          end
      end
  end.

(** [s.split(re)] for a pattern with [n] groups: the empty text gives no
    piece when the pattern matches it, and itself otherwise *)
Definition split (r : re) (n : nat) (s : string) : list string :=
  match s with
  | EmptyString =>
      match match_here r None EmptyString with
      | Some _ => []
      | None => [EmptyString]
      end
  | _ => split_go (2 * String.length s + 2) r n None EmptyString s
  end.

End RegexSplit.

(** ** adapters/sf.js: the display address *)

Module SfAddress.
Import JsString JsNum JsValue Regex.

Definition UPPER_DIRECTIONS : list string :=
  ["N"; "S"; "E"; "W"; "NE"; "NW"; "SE"; "SW"].

Definition TOKEN_MAP : list (string * string) :=
  [("st", "St"); ("street", "Street");
   ("ave", "Ave"); ("avenue", "Avenue");
   ("blvd", "Blvd"); ("boulevard", "Boulevard");
   ("rd", "Rd"); ("road", "Road");
   ("dr", "Dr"); ("drive", "Drive");
   ("ct", "Ct"); ("court", "Court");
   ("ln", "Ln"); ("lane", "Lane");
   ("ter", "Ter"); ("terrace", "Terrace");
   ("pl", "Pl"); ("place", "Place");
   ("pkwy", "Pkwy"); ("parkway", "Parkway");
   ("hwy", "Hwy"); ("highway", "Highway");
   ("way", "Way")].

Definition LOWER_SMALL : list string :=
  ["of"; "and"; "the"; "at"; "de"; "la"; "del"].

(** [Map.get] *)
Definition map_get (k : string) (m : list (string * string)) : option string :=
  snd <$> List.find (fun p => String.eqb (fst p) k) m.

(** [Set.has] *)
Definition set_has (k : string) (l : list string) : bool :=
  existsb (String.eqb k) l.

(** [w ? w[0].toUpperCase() + w.slice(1).toLowerCase() : w] *)
Definition capFirst (w : string) : string :=
  match w with
  | EmptyString => w
  | String c r => String (upper_char c) (toLowerCase r)
  end.

(** [/^o'/] and [/^mc[a-z]/] *)
Definition STARTS_O : re := Seq Bol (lit "o'").
Definition STARTS_MC : re := seqs [Bol; lit "mc"; Class is_lower].

(** [titleCaseWord(w, idx)].  The function calls itself on the segments of
    a word with hyphens; a segment has no hyphen, so that the calls go one
    level deep, and [fuel] bounds them. *)
Fixpoint titleCaseWord_go (fuel : nat) (w : string) (idx : nat) : string :=
  let raw := w in
  let t := toLowerCase w in
  if set_has (toUpperCase raw) UPPER_DIRECTIONS then toUpperCase raw
  else
    match map_get t TOKEN_MAP with
    | Some v => v
    | None =>
        if set_has t LOWER_SMALL && (0 <? idx) then t
        else if test STARTS_O t then "O'" +:+ capFirst (drop 2 t)
        else if test STARTS_MC t then "Mc" +:+ capFirst (drop 2 t)
        else if includes "-" raw then
          match fuel with
          | O => raw
          | S fuel' =>
              join "-" (imap (fun i seg => titleCaseWord_go fuel' seg i)
                             (JsString.split "-" raw))
          end
        else capFirst t
    end.

Definition titleCaseWord (w : string) (idx : nat) : string :=
  titleCaseWord_go (String.length w) w idx.

(** [str.trim().split(/\s+/).map(titleCaseWord).join(" ")] *)
Definition titleCaseStreet (str : string) : string :=
  join " " (imap (fun i w => titleCaseWord w i)
                 (RegexSplit.split (Plus space) 0 (trim str))).

(** [/\s*\\+\s*/g] and [/\s*\/\s*/g] *)
Definition BACKSLASHES : re := seqs [Star space; Plus (chr "\"); Star space].
Definition SLASH : re := seqs [Star space; chr "/"; Star space].

Definition normalizeIntersection (str : string) : string :=
  let sep := replace_all SLASH " / " (replace_all BACKSLASHES " / " str) in
  join " / " (map titleCaseStreet (JsString.split " / " sep)).

(** [/[\\\/]/] *)
Definition ANY_SLASH : re := Class (fun c => Ascii.eqb c "\" || Ascii.eqb c "/").

Definition prettifyStreet (street : string) : string :=
  if is_empty street then EmptyString
  else if test ANY_SLASH street then normalizeIntersection street
       else titleCaseStreet street.

Definition bestStreetFromDataset (r : value) : string :=
  let candidates :=
    map (fun k => SfBBox.s (SfBBox.pick r [k]))
        ["address"; "intersection_name"; "intersection"; "location_text"] in
  default EmptyString (List.find (fun c => negb (is_empty c)) candidates).

(** the [address] of the place built from a row:
    [withCityState(prettyStreet || "San Francisco, CA")] *)
Definition address_of (r : value) : string :=
  let prettyStreet := prettifyStreet (bestStreetFromDataset r) in
  SfBBox.withCityState
    (if is_empty prettyStreet then "San Francisco, CA" else prettyStreet).

End SfAddress.

(** ** adapters/nashville.js: the name of the incident type *)

Module IncidentType.
Import JsString JsNum JsValue Regex.

(** [[\/\- ]] *)
Definition is_delim (c : ascii) : bool :=
  Ascii.eqb c "/" || Ascii.eqb c "-" || Ascii.eqb c " ".

(** [/([\/\- ]+)/] and [/^[\/\- ]+$/] *)
Definition DELIMS : re := Group 1 (Plus (Class is_delim)).
Definition ONLY_DELIMS : re := seqs [Bol; Plus (Class is_delim); Eol].

(** [part.charAt(0).toUpperCase() + part.slice(1)] *)
Definition capitalize (part : string) : string :=
  match part with
  | EmptyString => EmptyString
  | String c r => String (upper_char c) r
  end.

Definition format_part (part : string) : string :=
  if test ONLY_DELIMS part then part else capitalize part.

(** [formatIncidentTypeName(raw)] *)
Definition formatIncidentTypeName (raw : value) : value :=
  if negb (truthy raw) then VUndef
  else
    VStr (trim (join EmptyString
                  (map format_part
                       (RegexSplit.split DELIMS 1 (toLowerCase (to_String raw)))))).

End IncidentType.

(** ** Conversions that can throw *)

Module JsConv.
Import JsString JsNum JsValue.

(** [String(v)] *)
Definition String_of (v : value) : result string :=
  if unprintable v then Throw TypeError else Ok (to_String v).

(** [Number(v)] *)
Definition Number_of (v : value) : result num :=
  if unprintable v then Throw TypeError else Ok (to_Number v).

(** No object inside [v] has a member named [toString]: every value that
    can be read from [v] converts without an exception. *)
Fixpoint plain (v : value) : bool :=
  match v with
  | VObj fields =>
      negb (has_own "toString" fields)
      && (fix all (l : list (string * value)) : bool :=
            match l with
            | [] => true
            | (_, x) :: r => plain x && all r
            end) fields
  | VArr items => forallb plain items
  | _ => true
  end.

(** A text within ASCII, the range on which the text functions of the
    embedding are those of the source language. *)
Definition is_ascii (c : ascii) : bool := (N_of_ascii c <? 128)%N.
Definition ascii_text (s : string) : bool := Matcher.all_chars is_ascii s.

(** [JSON.parse(text)]: a text that holds nothing but the white space of
    JSON (space, tab, line feed, carriage return), the empty text included,
    is no JSON text and throws a SyntaxError; [value_of] reads every other
    text. *)
Definition is_json_space (c : ascii) : bool :=
  match N_of_ascii c with
  | 9%N | 10%N | 13%N | 32%N => true
  | _ => false
  end.

Definition JSON_parse (value_of : string -> result value) (text : string)
  : result value :=
  if Matcher.all_chars is_json_space text then Throw SyntaxError
  else value_of text.

End JsConv.

(** ** mapWithConcurrency *)

Module Pool.
Import Geocode.

Section Pool.
(** [E] is the type of the items, [T] what a worker keeps while it waits
    for the resolver.  [start e] is the worker of the item [e] run from its
    beginning to its first [await geocode(...)]: the address of the call
    and what is kept.  [resume e t answer results] is the worker run from
    the answer to that call, a result or [None] for an exception, to its
    next call or to its end ([None]), with the map of the results as the
    worker leaves it. *)
Context {E T : Type}.
Context (start : E -> string * T)
        (resume : E -> T -> option geo -> gmap string geo
                  -> option (string * T) * gmap string geo).

(** One of the [run] loops: inside the worker of an item, at a call of the
    resolver that has not been answered; at the head of the loop, between
    two workers; or returned. *)
Inductive runner : Type :=
| Waiting (e : E) (t : T)
| Ready
| Finished.

(** [todo] are the items from index [i] on, [log] the addresses the
    resolver has been called with, oldest first. *)
Record state : Type := State {
  todo : list E;
  runners : list runner;
  results : gmap string geo;
  log : list string
}.

(** the runner [i] is at the head of its loop: it takes the next item and
    runs the worker to its first call, or returns when no item is left *)
Definition take (i : nat) (st : state) : option state :=
  match runners st !! i with
  | Some Ready =>
      match todo st with
      | e :: rest =>
          let '(address, t) := start e in
          Some (State rest (<[i := Waiting e t]> (runners st)) (results st)
                      (log st ++ [address]))
      | [] => Some (State [] (<[i := Finished]> (runners st)) (results st) (log st))
      end
  | _ => None
  end.

(** the call that the runner [i] waits for is answered *)
Definition answer (i : nat) (ans : option geo) (st : state) : option state :=
  match runners st !! i with
  | Some (Waiting e t) =>
      match resume e t ans (results st) with
      | (Some (address, t'), results') =>
          Some (State (todo st) (<[i := Waiting e t']> (runners st)) results'
                      (log st ++ [address]))
      | (None, results') =>
          Some (State (todo st) (<[i := Ready]> (runners st)) results' (log st))
      end
  | _ => None
  end.

(** What happens next is not decided by the program: which call is answered,
    with what, and which runner goes on.  A schedule lists it. *)
Inductive event : Type :=
| Take (i : nat)
| Answer (i : nat) (ans : option geo).

Definition step (st : state) (ev : event) : option state :=
  match ev with
  | Take i => take i st
  | Answer i ans => answer i ans st
  end.

Fixpoint run (st : state) (schedule : list event) : option state :=
  match schedule with
  | [] => Some st
  | ev :: rest =>
      match step st ev with
      | Some st' => run st' rest
      | None => None
      end
  end.

(** [Array.from({ length: Math.min(limit, items.length) }, run)]: the
    runners are started one after the other, and each runs to the first
    call of its first worker before the next one starts *)
Definition init (limit : nat) (items : list E) : state :=
  let n := Nat.min limit (length items) in
  fold_left (fun st i => default st (take i st)) (seq 0 n)
            (State items (replicate n Ready) ∅ []).

Definition is_finished (r : runner) : bool :=
  match r with Finished => true | _ => false end.

(** [await Promise.all(runners)] is over *)
Definition finished (st : state) : bool := forallb is_finished (runners st).

End Pool.

(** What one fetch leaves: the places it returns or the exception it
    throws, the results the workers have stored and the addresses the
    resolver has been called with. *)
Record outcome (P : Type) : Type := Outcome {
  returned : result (list P);
  found : gmap string geo;
  called : list string
}.
Arguments Outcome {P} returned found called.
Arguments returned {P} o.
Arguments found {P} o.
Arguments called {P} o.

End Pool.

(** ** adapters/nashville.js: [fetchCity] with its exceptions and its pool *)

Module NashvilleAdapter.
Import JsString JsNum JsValue JsConv Geocode Common Nashville.

(** the identifier of the feed that [extractId] converts, [undefined] when
    the feed has none and the identifier is a random one *)
Definition id_value (props : value) : value :=
  first_defined props
    ["GlobalID"; "GLOBALID"; "OBJECTID"; "objectid"; "IncidentNumber";
     "Incident_No"; "CallID"; "id"] VUndef.

Section Adapter.
Context (M : Math) (date_parse : string -> option Z).

(** The callback of [features.map].  Before the time stamps are read,
    [normalizeIntersection] converts the street with [String(s || "")],
    [pickDisplayCity] the city with [(cityName || "").toString()] and
    [extractId] the identifier with [String]; the fields themselves are
    those of [NashvilleFields.premap_one]. *)
Definition premap_one (f : value) : result NashvilleFields.fields :=
  let props := or_else (getq f "properties") (VObj []) in
  _ ← String_of (or_else (extractAddress props) (VStr ""));
  _ ← String_of (or_else (cityName_of props) (VStr ""));
  _ ← String_of (id_value props);
  NashvilleFields.premap_one date_parse f.

Definition premap (geojson : value) : result (list NashvilleFields.fields) :=
  map_result premap_one (features_of geojson).

(** The worker between its calls of the resolver: it waits for the answer
    to its first call, or for the answer to the retry, the first result
    kept. *)
Inductive phase : Type :=
| First
| Retry (g : geo).

Definition start (e : string * string) : string * phase := (snd e, First).

(** [e] is the pair of [norm] and [original].  An exception of either call
    ends the worker and leaves [geocodeResults] as it is. *)
Definition resume (e : string * string) (ph : phase) (ans : option geo)
    (results : gmap string geo)
  : option (string * phase) * gmap string geo :=
  match ans, ph with
  | None, _ => (None, results)
  | Some g, First =>
      if too_far M g then (Some (forceNashville (snd e), Retry g), results)
      else (None, <[fst e := g]> results)
  | Some g2, Retry g =>
      (None, <[fst e := if within_radius M g2 then g2 else g]> results)
  end.

(** The body of the loop that builds [places]: a record with a stored
    result is pushed, after [String(r.name)], [String(r.category)] for a
    category that is not falsy, and [String(raw)] in
    [formatIncidentTypeName] for a type name that is not falsy. *)
Definition emit (results : gmap string geo) (r : NashvilleFields.fields)
  : result (option (place prelim)) :=
  match place_of results (NashvilleFields.base r) with
  | None => Ok None
  | Some p =>
      _ ← String_of (NashvilleFields.name r);
      _ ← (if truthy (NashvilleFields.category r)
           then String_of (NashvilleFields.category r) else Ok EmptyString);
      _ ← (let raw := prop (props (NashvilleFields.base r)) "IncidentTypeName" in
           if truthy raw then String_of raw else Ok EmptyString);
      Ok (Some p)
  end.

Definition build_places (results : gmap string geo)
    (rows : list NashvilleFields.fields) : result (list (place prelim)) :=
  match map_result (emit results) rows with
  | Ok l => Ok (omap (fun o : option (place prelim) => o) l)
  | Throw e => Throw e
  end.

(** [fetchCity] from the parsed body on, for a schedule of the pool.  An
    exception of the pre-map ends the fetch before the pool is started;
    [None] stands for a schedule that is not one of this fetch: an event
    that cannot happen, or a pool left unfinished. *)
Definition fetchCity (geojson : value) (schedule : list Pool.event)
  : option (Pool.outcome (place prelim)) :=
  match premap geojson with
  | Throw e => Some (Pool.Outcome (Throw e) ∅ [])
  | Ok rows =>
      let uniqueAddrMap := uniqueAddrMap (map NashvilleFields.base rows) in
      match Pool.run start resume (Pool.init start 5 uniqueAddrMap) schedule with
      | Some st =>
          if Pool.finished st
          then Some (Pool.Outcome (build_places (Pool.results st) rows)
                                  (Pool.results st) (Pool.log st))
          else None
      | None => None
      end
  end.

End Adapter.
End NashvilleAdapter.

(** ** adapters/pdx.js: [fetchCity] with its exceptions and its pool *)

Module PdxAdapter.
Import JsString JsNum JsValue JsConv Regex Geocode Common Pdx PdxFetch.

(** [placemarks] of [parseKML] *)
Definition placemarks (kml : value) : list value :=
  let doc :=
    or_else (or_else (getq (getq kml "kml") "Document") (getq kml "Document"))
            (getq kml "kml") in
  let pms := getq doc "Placemark" in
  if isArray pms then items_of pms
  else if truthy pms then [pms] else [].

(** the operands of the conversions of [parseJSONVariant] *)
Definition json_id (r : value) : value :=
  first_defined r ["id"; "objectid"; "OBJECTID"; "GlobalID"; "GLOBALID"; "callid";
                   "CallID"] VUndef.
Definition json_typeName (r : value) : value :=
  first_defined r ["IncidentTypeName"; "type_name"; "type"; "CallType";
                   "description"; "Description"] VUndef.
Definition json_addressRaw (r : value) : value :=
  first_defined r ["Address"; "address"; "Location"; "location"; "addr_full"] VNull.
Definition json_coordinate (r : value) (key long_key : string) (i : nat) : value :=
  let geometry := prop r "geometry" in
  let coordinates := and_then geometry (getq geometry "coordinates") in
  coalesce (prop r key)
    (coalesce (prop r long_key) (and_then coordinates (at_indexq coordinates i))).
Definition json_updatedAt (r : value) : value :=
  first_defined r ["updatedAt"; "LastUpdate"; "time"; "datetime"; "LastUpdated";
                   "CreationDate"] VUndef.

Section Adapter.
(** The libraries and built-in parsers the adapter calls: [xml_parse] is
    [new XMLParser(...).parse], [JSON_value] reads a JSON text that is not
    blank, [first_table] is what [cheerio] finds (see [Pdx.tr]),
    [date_parse] is [new Date] on a string. *)
Context (xml_parse : string -> result value)
        (JSON_value : string -> result value)
        (first_table : string -> option (list tr))
        (date_parse : string -> option Z).

(** The callback of [placemarks.map]: [String(pm?.description || "")],
    [String(coordText)], [String(title)] and
    [String(pm?.id || pm?.name || ...)] are made in this order; the row is
    that of [Pdx.kml_row]. *)
Definition kml_row (pm : value) : result row :=
  _ ← String_of (or_else (getq pm "description") (VStr ""));
  _ ← String_of (or_else (or_else (getq (getq pm "Point") "coordinates")
                                  (getq pm "coordinates")) (VStr ""));
  _ ← String_of (or_else (or_else (getq pm "name") (getq pm "Name"))
                         (VStr "Incident"));
  _ ← String_of (or_else (getq pm "id") (getq pm "name"));
  Ok (Pdx.kml_row date_parse pm).

Definition parseKML (text : string) : result (list row) :=
  kml ← xml_parse text; map_result kml_row (placemarks kml).

(** The callback of [rows.map] in [parseJSONVariant]: [r.id] is read
    first, then come [String(id)], [String(typeName || "Incident")],
    [Number(lat)], [Number(lon)], [String(addressRaw)] for an address that
    is not falsy, and [new Date(ts)] in [safeISO] for a time stamp that is
    neither falsy nor a number; the row is that of [Pdx.json_row]. *)
Definition json_row (r : value) : result row :=
  _ ← get r "id";
  _ ← String_of (json_id r);
  _ ← String_of (or_else (json_typeName r) (VStr "Incident"));
  _ ← Number_of (json_coordinate r "lat" "latitude" 1);
  _ ← Number_of (json_coordinate r "lon" "longitude" 0);
  _ ← (if truthy (json_addressRaw r) then String_of (json_addressRaw r)
       else Ok EmptyString);
  _ ← (if truthy (json_updatedAt r) then String_of (json_updatedAt r)
       else Ok EmptyString);
  Pdx.json_row date_parse r.

Definition parseJSONVariant (json : value) : result (list row) :=
  rows ←
    (if isArray json then Ok (items_of json)
     else if isArray (getq json "incidents") then Ok (items_of (getq json "incidents"))
     else if isArray (getq json "features")
          then map_result merge_feature (items_of (getq json "features"))
          else Ok []);
  map_result json_row rows.

Definition parseHTMLTable (text : string) : result (list row) :=
  parseHTMLTable_dom date_parse (first_table text).

(** the content sniffing of [fetchCity] *)
Definition parse_rows (text : string) : result (list row) :=
  if test kml_sniff text then parseKML text
  else
    try_catch (json ← JSON_parse JSON_value text; parseJSONVariant json)
              (if test html_sniff text then parseHTMLTable text else Ok []).

(** [if (r.address) r.address = withCityState(r.address)]:
    [withCityState] converts the address with [String] *)
Definition tidy_one (r : row) : result row :=
  if truthy (r_address r) then _ ← String_of (r_address r); Ok (tidy r)
  else Ok r.

(** the worker: one call, and the result stored when there is one *)
Definition start (e : string * value) : string * unit := (text_of (snd e), tt).

Definition resume (e : string * value) (_ : unit) (ans : option geo)
    (results : gmap string geo)
  : option (string * unit) * gmap string geo :=
  (None, match ans with Some g => <[fst e := g]> results | None => results end).

(** The body of the loop that builds [places]: a row that ends with finite
    coordinates is pushed, after [String(r.name)] for a name and
    [String(r.category)] for a category that are not falsy. *)
Definition emit (results : gmap string geo) (r : row)
  : result (option (place row)) :=
  match place_of results r with
  | None => Ok None
  | Some p =>
      _ ← (if truthy (r_name r) then String_of (r_name r) else Ok EmptyString);
      _ ← (if truthy (r_category r) then String_of (r_category r)
           else Ok EmptyString);
      Ok (Some p)
  end.

Definition build_places (results : gmap string geo) (rows : list row)
  : result (list (place row)) :=
  match map_result (emit results) rows with
  | Ok l => Ok (omap (fun o : option (place row) => o) l)
  | Throw e => Throw e
  end.

(** The pipeline once the rows are parsed, for a schedule of the pool;
    [None] stands for a schedule that is not one of this fetch. *)
Definition fetch_rows (parsed : list row) (schedule : list Pool.event)
  : option (Pool.outcome (place row)) :=
  match map_result tidy_one parsed with
  | Throw e => Some (Pool.Outcome (Throw e) ∅ [])
  | Ok rows =>
      match Pool.run start resume (Pool.init start 5 (uniqueMap rows)) schedule with
      | Some st =>
          if Pool.finished st
          then Some (Pool.Outcome (build_places (Pool.results st) rows)
                                  (Pool.results st) (Pool.log st))
          else None
      | None => None
      end
  end.

(** [fetchCity], from the text of the response on *)
Definition fetchCity (text : string) (schedule : list Pool.event)
  : option (Pool.outcome (place row)) :=
  match parse_rows text with
  | Throw e => Some (Pool.Outcome (Throw e) ∅ [])
  | Ok parsed => fetch_rows parsed schedule
  end.

End Adapter.
End PdxAdapter.

(** ** adapters/sf.js: [fetchCity] from the response on *)

Module SfAdapter.
Import JsString JsNum JsValue JsConv Geocode Common.

Section Adapter.
Context (JSON_value : string -> result value).

(** the body of the loop over the rows: a row without coordinates is
    skipped, the address of a place is computed from the row *)
Definition place_of (r : value) : result (option (place value)) :=
  c ← Sf.extractCoords r;
  match c with
  | Some (lat, lon) => Ok (Some (Place r lat lon (VStr (SfAddress.address_of r))))
  | None => Ok None
  end.

(** [fetchCity]: an answer with an error status throws; a body that is no
    JSON, or no array, gives no place *)
Definition fetchCity (res : response) : result (list (place value)) :=
  if (400 <=? statusCode res)%Z then
    Throw (Failure ("SF adapter HTTP " +:+ Z_to_string (statusCode res)
                    +:+ ": " +:+ take 200 (body_text res)))
  else
    match JSON_parse JSON_value (body_text res) with
    | Throw _ => Ok []
    | Ok rows =>
        if negb (isArray rows) || (length (items_of rows) =? 0) then Ok []
        else
          match map_result place_of (items_of rows) with
          | Ok l => Ok (omap (fun o : option (place value) => o) l)
          | Throw e => Throw e
          end
    end.

End Adapter.
End SfAdapter.

(** ** Invariants of the pool *)

Module PoolShapes.
Import JsNum Geocode Pool.

Section Shapes.
Context {E T : Type}.

(** the number of runners, and the items left once a runner has returned *)
Definition sized (limit : nat) (items : list E) (st : state (E:=E) (T:=T)) : Prop :=
  length (runners st) = Nat.min limit (length items)
  /\ (Finished ∈ runners st -> todo st = [])
  /\ exists started, items = started ++ todo st.

(** what a runner has left to do before it takes its next item, [depth]
    bounding the calls that the worker can still make after the one it
    waits for *)
Definition rank (depth : T -> nat) (r : option (runner (E:=E) (T:=T))) : nat :=
  match r with
  | Some (Waiting _ t) => 2 + depth t
  | Some Ready => 1
  | _ => 0
  end.

End Shapes.

(** every call of the resolver gets the answer [a] *)
Definition answered_with (a : option geo) (ev : event) : Prop :=
  match ev with
  | Answer _ x => x = a
  | Take _ => True
  end.

(** what is left of the Nashville worker after the call it waits for: the
    retry, after the first call *)
Definition calls_left (ph : NashvilleAdapter.phase) : nat :=
  match ph with
  | NashvilleAdapter.First => 1
  | NashvilleAdapter.Retry _ => 0
  end.

(** schedules in which every call of the resolver throws, and in which
    every call is answered with finite coordinates *)
Definition every_call_throws (schedule : list event) : bool :=
  forallb (fun ev => match ev with Answer _ (Some _) => false | _ => true end)
          schedule.

Definition finite_answer (ev : event) : bool :=
  match ev with
  | Answer _ (Some g) => finite (g_lat g) && finite (g_lon g)
  | Answer _ None => false
  | Take _ => true
  end.

Definition every_call_answered (schedule : list event) : bool :=
  forallb finite_answer schedule.

(** The calls of the Nashville pool: the items taken so far have had their
    first call, some of them a retry as well, and nothing else has been
    asked.  A worker that waits for its first answer has made no retry,
    one that waits for the answer to its retry has made it, and no two
    runners work on the same item. *)
Definition accounted (items : list (string * string))
    (st : state (E:=string * string) (T:=NashvilleAdapter.phase)) : Prop :=
  exists started retried,
    items = started ++ todo st
    /\ NoDup retried
    /\ (forall e, e ∈ retried -> e ∈ started)
    /\ log st ≡ₚ map snd started
                 ++ map (fun e => Nashville.forceNashville (snd e)) retried
    /\ (forall i e ph, runners st !! i = Some (Waiting e ph) ->
          e ∈ started
          /\ match ph with
             | NashvilleAdapter.First => e ∉ retried
             | NashvilleAdapter.Retry _ => e ∈ retried
             end)
    /\ (forall i j e ph e' ph',
          i <> j -> runners st !! i = Some (Waiting e ph) ->
          runners st !! j = Some (Waiting e' ph') -> e <> e').

(** The calls of the Portland pool: one for every item taken, in the order
    of the items. *)
Definition called_once (items : list (string * JsValue.value))
    (st : state (E:=string * JsValue.value) (T:=unit)) : Prop :=
  exists started,
    items = started ++ todo st
    /\ log st = map (fun e => PdxFetch.text_of (snd e)) started.

(** Every item taken is stored with finite coordinates, or still with a
    runner; a first result kept for the retry is finite. *)
Definition settled (items : list (string * string))
    (st : state (E:=string * string) (T:=NashvilleAdapter.phase)) : Prop :=
  (exists started,
     items = started ++ todo st
     /\ forall e, e ∈ started ->
          Pipeline.stored (results st) (fst e)
          \/ exists i ph, runners st !! i = Some (Waiting e ph))
  /\ (forall i e g, runners st !! i = Some (Waiting e (NashvilleAdapter.Retry g)) ->
        finite (g_lat g) = true /\ finite (g_lon g) = true).

End PoolShapes.

(** ** The values that the conversions of an adapter accept *)

Module Convertible.
Import JsString JsNum JsValue JsConv Geocode Common.

(** the street, the city and the identifier of a Nashville feature *)
Definition feature (f : value) : bool :=
  let props := or_else (getq f "properties") (VObj []) in
  negb (unprintable (Nashville.extractAddress props)
        || unprintable (Nashville.cityName_of props)
        || unprintable (NashvilleAdapter.id_value props)).

(** the name, the category and the type name of a Nashville record *)
Definition fields (r : NashvilleFields.fields) : bool :=
  negb (unprintable (NashvilleFields.name r)
        || unprintable (NashvilleFields.category r)
        || unprintable (prop (Nashville.props (NashvilleFields.base r))
                             "IncidentTypeName")).

(** the description, the coordinates, the title and the identifier of a
    placemark *)
Definition placemark (pm : value) : bool :=
  negb (unprintable (getq pm "description")
        || unprintable (or_else (getq (getq pm "Point") "coordinates")
                                (getq pm "coordinates"))
        || unprintable (or_else (getq pm "name") (getq pm "Name"))
        || unprintable (or_else (getq pm "id") (getq pm "name"))).

(** the address of a Portland row, and its name and category *)
Definition address (r : Pdx.row) : bool := negb (unprintable (Pdx.r_address r)).

Definition row (r : Pdx.row) : bool :=
  negb (unprintable (Pdx.r_name r) || unprintable (Pdx.r_category r)).

(** the rows and records that the loop over the places gets through: those
    that are skipped, and those that are pushed once their fields are
    converted *)
Definition pushed_row (results : gmap string geo) (r : Pdx.row) : bool :=
  match PdxFetch.place_of results r with
  | Some _ => row r
  | None => true
  end.

Definition pushed_fields (results : gmap string geo) (r : NashvilleFields.fields)
  : bool :=
  match Nashville.place_of results (NashvilleFields.base r) with
  | Some _ => fields r
  | None => true
  end.

End Convertible.

(** * Properties *)

(** ** The geocode resolver *)

Section GeocodeProps.
Import JsString JsNum JsValue Geocode Shapes.

Lemma isFinite_num_of v : isFinite v = true -> finite (num_of v) = true.
Proof. by destruct v. Qed.

Lemma geocode_ok_finite cfg upstream now cache address g :
  all_finite cache ->
  fst (geocode cfg upstream now cache address) = Ok g ->
  finite (g_lat g) = true /\ finite (g_lon g) = true.
Proof.
  intros Hc. unfold geocode.
  destruct (key_missing cfg); [done|].
  unfold cached.
  destruct (cache !! normalizeAddress address) as [e|] eqn:Hq.
  - destruct (gt (expiresAt e) (of_Z now)); simpl.
    + intros [= <-]. by apply (Hc _ _ Hq).
    + destruct (400 <=? statusCode (upstream address))%Z; [done|].
      destruct (body_json (upstream address)) as [b|]; [|done].
      destruct (isFinite (hit_lat (top_hit b))) eqn:E1;
        destruct (isFinite (hit_lon (top_hit b))) eqn:E2; simpl; try done.
      intros [= <-]. simpl. auto using isFinite_num_of.
  - destruct (400 <=? statusCode (upstream address))%Z; [done|].
    destruct (body_json (upstream address)) as [b|]; [|done].
    destruct (isFinite (hit_lat (top_hit b))) eqn:E1;
      destruct (isFinite (hit_lon (top_hit b))) eqn:E2; simpl; try done.
    intros [= <-]. simpl. auto using isFinite_num_of.
Qed.

Lemma geocode_cache_finite cfg upstream now cache address :
  all_finite cache ->
  all_finite (snd (geocode cfg upstream now cache address)).
Proof.
  intros Hc.
  destruct (geocode cfg upstream now cache address) as [r c'] eqn:E.
  pose proof (geocode_ok_finite cfg upstream now cache address) as Hg.
  rewrite E in Hg. simpl in *.
  revert E. unfold geocode.
  destruct (key_missing cfg); [by intros [= _ <-]|].
  destruct (cached cache _ now); [by intros [= _ <-]|].
  destruct (400 <=? statusCode (upstream address))%Z; [by intros [= _ <-]|].
  destruct (body_json (upstream address)) as [b|]; [|by intros [= _ <-]].
  destruct (negb (isFinite (hit_lat (top_hit b))) ||
            negb (isFinite (hit_lon (top_hit b)))); [by intros [= _ <-]|].
  intros [= <- <-]. intros q e.
  rewrite lookup_insert. case_decide.
  - intros [= <-]. simpl. by apply (Hg _ Hc eq_refl).
  - apply Hc.
Qed.

Lemma reachable_all_finite cfg cache : reachable cfg cache -> all_finite cache.
Proof.
  induction 1 as [|cache upstream now address _ IH].
  - intros q e. by rewrite lookup_empty.
  - by apply geocode_cache_finite.
Qed.

(** C7.  [geocode(address)] throws exactly when no key is configured, or
    when the cache does not answer and the service then responds with a
    status of 400 or more or with a body holding no first result with finite
    latitude and longitude; whenever it returns, the latitude and longitude
    of the result are finite. *)
Theorem geocode_throws_exactly cfg upstream now cache address :
  reachable cfg cache ->
  (returns (fst (geocode cfg upstream now cache address)) = false <->
     key_missing cfg = true \/
     (cached cache (normalizeAddress address) now = None /\
      ((400 <=? statusCode (upstream address))%Z = true \/
       has_finite_hit (upstream address) = false)))
  /\ (forall g, fst (geocode cfg upstream now cache address) = Ok g ->
        finite (g_lat g) = true /\ finite (g_lon g) = true).
Proof.
  intros Hr. split.
  - unfold geocode, has_finite_hit.
    destruct (key_missing cfg); [simpl; tauto|].
    destruct (cached cache _ now) as [d|]; simpl.
    { split; [done|]. intros [?|[? _]]; done. }
    destruct (400 <=? statusCode (upstream address))%Z; simpl; [tauto|].
    destruct (body_json (upstream address)) as [b|]; simpl; [|tauto].
    destruct (isFinite (hit_lat (top_hit b))), (isFinite (hit_lon (top_hit b)));
      simpl; split; try tauto; try done.
    intros [?|[_ [?|?]]]; done.
  - intros g. apply geocode_ok_finite, reachable_all_finite with cfg, Hr.
Qed.

End GeocodeProps.

Lemma geocode_throws_exactly_witness :
  Geocode.reachable Inputs.cfg_with_key ∅
  /\ let r := fst (Geocode.geocode Inputs.cfg_with_key Inputs.upstream_ok 0 ∅
                     "Nashville, TN") in
     (returns r = false <->
        Geocode.key_missing Inputs.cfg_with_key = true \/
        (Geocode.cached ∅ (Geocode.normalizeAddress "Nashville, TN") 0 = None /\
         ((400 <=? Geocode.statusCode (Inputs.upstream_ok "Nashville, TN"))%Z = true \/
          Geocode.has_finite_hit (Inputs.upstream_ok "Nashville, TN") = false)))
     /\ (forall g, r = Ok g ->
           JsNum.finite (Geocode.g_lat g) = true /\
           JsNum.finite (Geocode.g_lon g) = true).
Proof.
  split; [apply Geocode.reachable_empty|].
  apply (geocode_throws_exactly Inputs.cfg_with_key Inputs.upstream_ok 0 ∅
           "Nashville, TN").
  apply Geocode.reachable_empty.
Defined.

(** The resolver at work: a first call stores its result, a second call
    within the time to live is answered by the cache whatever the service
    would say, and a call without a key throws. *)
Example geocode_then_cached :
  let first := Geocode.geocode Inputs.cfg_with_key Inputs.upstream_ok 0 ∅
                 "Nashville,  TN" in
  fst first = Ok Inputs.downtown
  /\ fst (Geocode.geocode Inputs.cfg_with_key
            (fun _ => Geocode.Response 500 "down" (Throw SyntaxError)) 1000
            (snd first) "nashville, tn") = Ok Inputs.downtown
  /\ returns (fst (Geocode.geocode (Geocode.Config None Geocode.default_TTL)
                     Inputs.upstream_ok 0 ∅ "Nashville, TN")) = false.
Proof. vm_compute. repeat split; reflexivity. Qed.

(** ** Address normalisation *)

Section NormalizeProps.
Import JsString Geocode Shapes.

Lemma is_space_lower c : is_space (lower_char c) = is_space c.
Proof. destruct c as [[] [] [] [] [] [] [] []]; reflexivity. Qed.

Lemma lower_char_idem c : lower_char (lower_char c) = lower_char c.
Proof. destruct c as [[] [] [] [] [] [] [] []]; reflexivity. Qed.

Lemma toLowerCase_idem s : toLowerCase (toLowerCase s) = toLowerCase s.
Proof. induction s as [|c r IH]; simpl; [done|]. by rewrite lower_char_idem, IH. Qed.

Lemma trimStart_lower s : trimStart (toLowerCase s) = toLowerCase (trimStart s).
Proof.
  induction s as [|c r IH]; simpl; [done|].
  rewrite is_space_lower. by destruct (is_space c).
Qed.

Lemma trimEnd_lower s : trimEnd (toLowerCase s) = toLowerCase (trimEnd s).
Proof.
  induction s as [|c r IH]; simpl; [done|].
  rewrite IH, is_space_lower.
  destruct (trimEnd r) eqn:E; simpl; [by destruct (is_space c)|done].
Qed.

Lemma trim_lower s : trim (toLowerCase s) = toLowerCase (trim s).
Proof. unfold trim. by rewrite trimStart_lower, trimEnd_lower. Qed.

Lemma collapse_from_lower b s :
  collapse_from b (toLowerCase s) = toLowerCase (collapse_from b s).
Proof.
  revert b. induction s as [|c r IH]; intros b; simpl; [done|].
  rewrite is_space_lower.
  destruct (is_space c), b; simpl; by rewrite ?IH.
Qed.

Lemma collapse_from_single b s : single_spaced b (collapse_from b s) = true.
Proof.
  revert b. induction s as [|c r IH]; intros b; simpl; [done|].
  destruct (is_space c) eqn:E.
  - destruct b; [apply IH|]. simpl. apply IH.
  - simpl. rewrite E. apply IH.
Qed.

Lemma single_spaced_fix b s : single_spaced b s = true -> collapse_from b s = s.
Proof.
  revert b. induction s as [|c r IH]; intros b; simpl; [done|].
  destruct (is_space c) eqn:E.
  - destruct b; simpl; [done|].
    intros H. apply andb_prop in H as [H1 H2].
    apply Ascii.eqb_eq in H1. subst c. by rewrite (IH true H2).
  - intros H. by rewrite (IH false H).
Qed.

Lemma trimStart_starts s : starts_space (trimStart s) = false.
Proof. induction s as [|c r IH]; simpl; [done|]. by destruct (is_space c) eqn:E. Qed.

Lemma trimStart_fix s : starts_space s = false -> trimStart s = s.
Proof. destruct s as [|c r]; simpl; [done|]. by intros ->. Qed.

Lemma trimEnd_ends s : ends_space (trimEnd s) = false.
Proof.
  induction s as [|c r IH]; simpl; [done|].
  destruct (trimEnd r) as [|c' r'] eqn:E.
  - by destruct (is_space c) eqn:Ec.
  - exact IH.
Qed.

Lemma trimEnd_fix s : ends_space s = false -> trimEnd s = s.
Proof.
  induction s as [|c r IH]; simpl; [done|].
  destruct r as [|c' r'].
  - simpl. by intros ->.
  - intros H. by rewrite (IH H).
Qed.

Lemma trimEnd_starts s : starts_space s = false -> starts_space (trimEnd s) = false.
Proof.
  destruct s as [|c r]; simpl; [done|]. intros H.
  destruct (trimEnd r); simpl; by rewrite ?H.
Qed.

Lemma trim_starts s : starts_space (trim s) = false.
Proof. apply trimEnd_starts, trimStart_starts. Qed.

Lemma trim_ends s : ends_space (trim s) = false.
Proof. apply trimEnd_ends. Qed.

Lemma trim_fix s : starts_space s = false -> ends_space s = false -> trim s = s.
Proof. intros H1 H2. unfold trim. rewrite (trimStart_fix _ H1). by apply trimEnd_fix. Qed.

Lemma collapse_starts s :
  starts_space s = false -> starts_space (collapse_from false s) = false.
Proof. destruct s as [|c r]; simpl; [done|]. intros H. by rewrite H. Qed.

Lemma collapse_from_empty b s :
  collapse_from b s = EmptyString ->
  s = EmptyString \/ (b = true /\ ends_space s = true).
Proof.
  revert b. induction s as [|c r IH]; intros b; simpl; [by left|].
  destruct (is_space c) eqn:E; [|done].
  destruct b; [|done]. intros H. right. split; [done|].
  destruct (IH _ H) as [->|[_ H']]; [done|]. by destruct r.
Qed.

Lemma collapse_ends b s :
  ends_space s = false -> ends_space (collapse_from b s) = false.
Proof.
  revert b. induction s as [|c r IH]; intros b; simpl; [done|].
  destruct r as [|c' r'].
  - intros H. simpl in H. cbn. rewrite H. cbn. by rewrite H.
  - intros H.
    destruct (is_space c) eqn:E.
    + destruct b.
      * by apply IH.
      * remember (collapse_from true (String c' r')) as t eqn:Et.
        destruct t as [|c2 t2].
        -- symmetry in Et. apply collapse_from_empty in Et as [?|[_ ?]]; congruence.
        -- change (ends_space (String c2 t2) = false). rewrite Et. by apply IH.
    + remember (collapse_from false (String c' r')) as t eqn:Et.
      destruct t as [|c2 t2].
      * symmetry in Et. apply collapse_from_empty in Et as [?|[? _]]; congruence.
      * change (ends_space (String c2 t2) = false). rewrite Et. by apply IH.
Qed.

(** C9.  Address normalisation is idempotent:
    [normalizeAddress (normalizeAddress x) = normalizeAddress x] for every
    string [x]. *)
Theorem normalizeAddress_idempotent (x : string) :
  normalizeAddress (normalizeAddress x) = normalizeAddress x.
Proof.
  unfold normalizeAddress, collapse_spaces.
  rewrite trim_lower, collapse_from_lower, toLowerCase_idem. f_equal.
  set (t := collapse_from false (trim x)).
  assert (Ht : trim t = t).
  { apply trim_fix.
    - apply collapse_starts, trim_starts.
    - apply collapse_ends, trim_ends. }
  rewrite Ht. apply single_spaced_fix, collapse_from_single.
Qed.

End NormalizeProps.

(** ** The matcher on runs of white space *)

Section RegexProps.
Import JsString Regex Shapes.

Lemma append_assoc (a b c : string) : (a +:+ b) +:+ c = a +:+ (b +:+ c).
Proof.
  induction a as [|x a IH]; [done|].
  change (String x ((a +:+ b) +:+ c) = String x (a +:+ (b +:+ c))). by rewrite IH.
Qed.

Lemma append_empty (a : string) : a +:+ EmptyString = a.
Proof.
  induction a as [|x a IH]; [done|].
  change (String x (a +:+ EmptyString) = String x a). by rewrite IH.
Qed.

Lemma trimStart_length s : String.length (trimStart s) <= String.length s.
Proof. induction s as [|x s IH]; simpl; [lia|]. destruct (is_space x); simpl; lia. Qed.

Lemma star_space_loop n prev s c :
  String.length s <= n ->
  star_loop (run space) accept n prev s c = Some (trimStart s, c).
Proof.
  revert prev s. induction n as [|n IH]; intros prev s Hn.
  - destruct s; [done|simpl in Hn; lia].
  - destruct s as [|x s]; [done|]. simpl in Hn. cbn [star_loop run space].
    destruct (is_space x) eqn:Ex.
    + replace (String.length s <? String.length (String x s)) with true
        by (symmetry; apply Nat.ltb_lt; simpl; lia).
      rewrite IH by lia. simpl. by rewrite Ex.
    + simpl. by rewrite Ex.
Qed.

Lemma match_here_spaces prev s :
  match_here (Plus space) prev s
  = match s with
    | String x s' => if is_space x then Some (trimStart s', []) else None
    | EmptyString => None
    end.
Proof.
  unfold match_here, Plus. destruct s as [|x s]; [done|].
  cbn [run space]. destruct (is_space x); [|done].
  apply (star_space_loop (String.length s) (Some x) s []). lia.
Qed.

Lemma rev_app_app s acc : String.rev_app s acc = String.rev s +:+ acc.
Proof.
  unfold String.rev. revert acc. induction s as [|x s IH]; intros acc; simpl; [done|].
  rewrite (IH (String x acc)), (IH (String x EmptyString)).
  by rewrite append_assoc.
Qed.

Lemma rev_cons x s : String.rev (String x s) = String.rev s +:+ String x "".
Proof. unfold String.rev at 1. simpl. apply rev_app_app. Qed.

Lemma collapse_true_trimStart s :
  collapse_from true s = collapse_from false (trimStart s).
Proof.
  induction s as [|x s IH]; simpl; [done|].
  destruct (is_space x) eqn:Ex; [done|]. simpl. by rewrite Ex.
Qed.

(** the first run of white space, as the search finds it *)
Lemma search_from_spaces prev pre s :
  match search_from (Plus space) prev pre s with
  | None => collapse_from false s = s
  | Some m =>
      exists w x t,
        before m = String.rev pre +:+ w /\
        matched m = String x t /\
        String.length (after m) < String.length s /\
        collapse_from false s = w +:+ " " +:+ collapse_from false (after m)
  end.
Proof.
  revert prev pre. induction s as [|x s IH]; intros prev pre.
  - done.
  - cbn [search_from]. rewrite match_here_spaces.
    destruct (is_space x) eqn:Ex.
    + pose proof (trimStart_length s) as Hl.
      exists EmptyString, x,
        (take (String.length s - String.length (trimStart s)) s).
      cbn [before matched after].
      split; [by rewrite append_empty|]. split.
      { replace (String.length (String x s) - String.length (trimStart s))
          with (S (String.length s - String.length (trimStart s)))
          by (simpl; lia). done. }
      split; [simpl; lia|].
      simpl. rewrite Ex. by rewrite collapse_true_trimStart.
    + specialize (IH (Some x) (String x pre)).
      destruct (search_from (Plus space) (Some x) (String x pre) s) as [m|].
      * destruct IH as (w & y & t & Hb & Hm & Hl & Hc).
        exists (String x w), y, t. rewrite Hb, rev_cons. simpl. rewrite Ex.
        split; [by rewrite append_assoc|].
        split; [done|]. split; [lia|]. by rewrite Hc.
      * simpl. rewrite Ex. by rewrite IH.
Qed.

Lemma replace_all_go_spaces fuel prev s :
  String.length s < fuel ->
  replace_all_go fuel (Plus space) (fun _ => " ") prev s = collapse_from false s.
Proof.
  revert prev s. induction fuel as [|fuel IH]; intros prev s Hf; [lia|].
  cbn [replace_all_go].
  pose proof (search_from_spaces prev EmptyString s) as H.
  destruct (search_from (Plus space) prev "" s) as [m|]; [|done].
  destruct H as (w & x & t & Hb & Hm & Hl & Hc).
  rewrite Hm, Hb, Hc. simpl. rewrite IH by lia. done.
Qed.

(** The function that stands for the replacement of every run of white
    space by one space agrees with that pattern run by the matcher. *)
Lemma collapse_spaces_is_replace_all s :
  replace_all (Plus space) " " s = collapse_spaces s.
Proof. apply replace_all_go_spaces. lia. Qed.

End RegexProps.

(** ** Soundness of the matcher *)

Section MatcherProps.
Import JsString Regex Matcher.

Lemma star_loop_sound a step (k : cont) n prev s c res :
  (forall prev s c k' res, step prev s c k' = Some res ->
     exists p' s' c', takes a s s' /\ k' p' s' c' = Some res) ->
  star_loop step k n prev s c = Some res ->
  exists p' s' c', takes (Star a) s s' /\ k p' s' c' = Some res.
Proof.
  intros Hstep. revert prev s c. induction n as [|n IH]; intros prev s c; simpl.
  - intros H. exists prev, s, c. split; [constructor|done].
  - destruct (step prev s c _) as [v|] eqn:E.
    + intros [= ->]. apply Hstep in E as (p1 & s1 & c1 & Ha & E).
      destruct (_ <? _); [|done].
      apply IH in E as (p2 & s2 & c2 & Hs & E).
      exists p2, s2, c2. split; [by eapply takes_Star_more|done].
    + intros H. exists prev, s, c. split; [constructor|done].
Qed.

(** a match found by the matcher is a match of the pattern, and went
    through the continuation *)
Lemma run_sound r prev s c (k : cont) res :
  run r prev s c k = Some res ->
  exists p' s' c', takes r s s' /\ k p' s' c' = Some res.
Proof.
  revert prev s c k res.
  induction r as [|p|a IHa b IHb|a IHa b IHb|a IHa|i a IHa| | |];
    intros prev s c k res; simpl.
  - intros H. exists prev, s, c. split; [constructor|done].
  - destruct s as [|x s]; [done|]. destruct (p x) eqn:Ep; [|done].
    intros H. exists (Some x), s, c. split; [by constructor|done].
  - intros H. apply IHa in H as (p1 & s1 & c1 & Ha & H).
    apply IHb in H as (p2 & s2 & c2 & Hb & H).
    exists p2, s2, c2. split; [by econstructor|done].
  - destruct (run a prev s c k) as [v|] eqn:E.
    + intros [= ->]. apply IHa in E as (p1 & s1 & c1 & Ha & H).
      exists p1, s1, c1. split; [by apply takes_Alt_l|done].
    + intros H. apply IHb in H as (p1 & s1 & c1 & Hb & H).
      exists p1, s1, c1. split; [by apply takes_Alt_r|done].
  - apply star_loop_sound. intros. by eapply IHa.
  - intros H. apply IHa in H as (p1 & s1 & c1 & Ha & H).
    exists p1, s1, ((i, take (String.length s - String.length s1) s) :: c1).
    split; [by constructor|done].
  - destruct prev; [done|]. intros H. exists None, s, c. split; [constructor|done].
  - destruct s; [|done]. intros H. exists prev, EmptyString, c. split; [constructor|done].
  - destruct (xorb _ _); [|done]. intros H. exists prev, s, c. split; [constructor|done].
Qed.

(** what is left is the end of the text *)
Lemma takes_suffix r s s' : takes r s s' -> exists w, s = w +:+ s'.
Proof.
  induction 1 as [s|p x s Hp|a b s s1 s2 _ [u ->] _ [v ->]|a b s s' _ IH
                 |a b s s' _ IH|a s|a s s1 s2 _ [u ->] _ [v ->]|i a s s' _ IH|s| |s].
  - by exists EmptyString.
  - by exists (String x EmptyString).
  - exists (u +:+ v). by rewrite append_assoc.
  - done.
  - done.
  - by exists EmptyString.
  - exists (u +:+ v). by rewrite append_assoc.
  - done.
  - by exists EmptyString.
  - by exists EmptyString.
  - by exists EmptyString.
Qed.

Lemma append_length (a b : string) :
  String.length (a +:+ b) = String.length a + String.length b.
Proof.
  induction a as [|x a IH]; [done|].
  change (S (String.length (a +:+ b)) = S (String.length a + String.length b)).
  by rewrite IH.
Qed.

Lemma take_append (a b : string) :
  take (String.length (a +:+ b) - String.length b) (a +:+ b) = a.
Proof.
  rewrite append_length. replace (_ + _ - _) with (String.length a) by lia.
  induction a as [|x a IH]; simpl.
  - by destruct b.
  - change (String x (take (String.length a) (a +:+ b)) = String x a). by rewrite IH.
Qed.

Lemma match_here_sound r prev s s' c :
  match_here r prev s = Some (s', c) ->
  takes r s s' /\ take (String.length s - String.length s') s +:+ s' = s.
Proof.
  intros E. apply run_sound in E as (p' & s1 & c1 & Ht & [= <- <-]).
  split; [done|]. apply takes_suffix in Ht as [w ->]. by rewrite take_append.
Qed.

(** a match splits the text, and its middle part matches the pattern *)
Lemma search_from_sound r prev pre s m :
  search_from r prev pre s = Some m ->
  String.rev pre +:+ s = before m +:+ matched m +:+ after m
  /\ takes r (matched m +:+ after m) (after m).
Proof.
  revert prev pre. induction s as [|x s IH]; intros prev pre; cbn [search_from].
  - destruct (match_here r prev "") as [[s' c]|] eqn:E; [|done].
    intros [= <-]. cbn [before matched after].
    apply match_here_sound in E as [Ht E].
    split; [f_equal; symmetry; exact E|]. revert Ht. by rewrite <- E at 1.
  - destruct (match_here r prev (String x s)) as [[s' c]|] eqn:E.
    + intros [= <-]. cbn [before matched after].
      apply match_here_sound in E as [Ht E].
      split; [f_equal; symmetry; exact E|]. revert Ht. by rewrite <- E at 1.
    + intros H. apply IH in H as [H Ht]. split; [|done].
      rewrite <- H, rev_cons, append_assoc. done.
Qed.

Lemma exec_sound r s m :
  exec r s = Some m ->
  s = before m +:+ matched m +:+ after m
  /\ takes r (matched m +:+ after m) (after m).
Proof. apply search_from_sound. Qed.

(** ** The patterns of [forceNashville] *)

Lemma takes_run_of p s s' :
  takes (Star (Class p)) s s' -> exists w, s = w +:+ s' /\ all_chars p w = true.
Proof.
  intros H. remember (Star (Class p)) as r eqn:Er. revert Er.
  induction H as [| | | | |a s|a s s1 s2 Ha _ _ IH| | | |]; intros Er; try discriminate.
  - by exists EmptyString.
  - injection Er as ->. destruct (IH eq_refl) as (w & -> & Hw).
    inversion Ha as [|p' x s' Hp| | | | | | | | |]; subst.
    exists (String x w). split; [done|]. simpl. by rewrite Hp.
Qed.

Lemma takes_Seq_inv a b s s2 :
  takes (Seq a b) s s2 -> exists s1, takes a s s1 /\ takes b s1 s2.
Proof. inversion 1; subst; eauto. Qed.

Lemma takes_Class_inv p s s' :
  takes (Class p) s s' -> exists x, s = String x s' /\ p x = true.
Proof. inversion 1; subst; eauto. Qed.

Lemma takes_Eol_inv s s' : takes Eol s s' -> s = EmptyString /\ s' = EmptyString.
Proof. by inversion 1. Qed.

(** a match of the first pattern is [, <city>, TN] at the end of the text,
    the city not empty and without a comma *)
Lemma takes_trailing_city_TN s s' :
  takes Nashville.trailing_city_TN s s' ->
  s' = EmptyString /\
  exists city tn,
    s = ", " +:+ city +:+ ", " +:+ tn
    /\ city <> EmptyString
    /\ all_chars (fun x => negb (Ascii.eqb x ",")) city = true
    /\ toLowerCase tn = "tn".
Proof.
  unfold Nashville.trailing_city_TN. cbn [seqs lit lit_i Plus none_of chr chr_i].
  intros H.
  apply takes_Seq_inv in H as (s1 & H1 & H).
  apply takes_Seq_inv in H1 as (s0 & Hc & Hsp).
  apply takes_Class_inv in Hc as (x & -> & Hx), Hsp as (y & -> & Hy).
  apply Ascii.eqb_eq in Hx as <-, Hy as <-.
  apply takes_Seq_inv in H as (s2 & Hcity & H).
  apply takes_Seq_inv in Hcity as (s3 & Hz & Hw).
  apply takes_Class_inv in Hz as (z & -> & Hz).
  apply takes_run_of in Hw as (w & -> & Hw).
  apply takes_Seq_inv in H as (s4 & Htn & He).
  apply takes_Eol_inv in He as [-> ->].
  apply takes_Seq_inv in Htn as (s5 & Hk1 & H).
  apply takes_Class_inv in Hk1 as (k1 & -> & Hk1).
  apply takes_Seq_inv in H as (s6 & Hk2 & H).
  apply takes_Class_inv in Hk2 as (k2 & -> & Hk2).
  apply takes_Seq_inv in H as (s7 & Hk3 & Hk4).
  apply takes_Class_inv in Hk3 as (k3 & -> & Hk3), Hk4 as (k4 & -> & Hk4).
  apply Ascii.eqb_eq in Hk1, Hk2, Hk3, Hk4.
  split; [done|].
  assert (k1 = ","%char) as ->
    by (destruct k1 as [[] [] [] [] [] [] [] []]; vm_compute in Hk1; congruence).
  assert (k2 = " "%char) as ->
    by (destruct k2 as [[] [] [] [] [] [] [] []]; vm_compute in Hk2; congruence).
  exists (String z w), (String k3 (String k4 EmptyString)).
  split; [done|]. split; [done|]. split.
  - simpl. by rewrite Hz.
  - simpl. by rewrite Hk3, Hk4.
Qed.

(** the three cases of [forceNashville] *)
Lemma forceNashville_cases (original : string) :
  if test Nashville.trailing_city_TN original
  then exists pre city tn,
         original = pre +:+ ", " +:+ city +:+ ", " +:+ tn
         /\ city <> EmptyString
         /\ all_chars (fun x => negb (Ascii.eqb x ",")) city = true
         /\ toLowerCase tn = "tn"
         /\ Nashville.forceNashville original = pre +:+ ", Nashville, TN"
  else if test Nashville.trailing_TN original
       then Nashville.forceNashville original = original
       else Nashville.forceNashville original = original +:+ ", Nashville, TN".
Proof.
  unfold Nashville.forceNashville, replace, replace_with, test.
  destruct (exec Nashville.trailing_city_TN original) as [m|] eqn:E.
  - rewrite bool_decide_eq_true_2 by eauto.
    apply exec_sound in E as [Hs Ht].
    apply takes_trailing_city_TN in Ht as (Ha & city & tn & Hm & Hc & Hcs & Htn).
    rewrite Ha in *. rewrite append_empty in Hm, Hs.
    exists (before m), city, tn. rewrite append_empty. rewrite Hs, Hm. done.
  - rewrite bool_decide_eq_false_2 by (intros [? [=]]).
    by destruct (bool_decide _).
Qed.

End MatcherProps.

(** ** Ordered maps and call logs *)

Section CommonProps.
Import JsString JsNum JsValue Geocode Common Traces.

Lemma is_empty_true s : is_empty s = true <-> s = EmptyString.
Proof. destruct s; simpl; split; congruence. Qed.

Lemma is_empty_false s : is_empty s = false <-> s <> EmptyString.
Proof. destruct s; simpl; split; congruence. Qed.

Lemma omap_has_false {A} k (m : list (string * A)) :
  omap_has k m = false <-> k ∉ map fst m.
Proof.
  unfold omap_has. induction m as [|[k' v] m IH]; simpl.
  - split; [intros _; apply not_elem_of_nil | done].
  - rewrite not_elem_of_cons, orb_false_iff, IH, String.eqb_neq.
    split; intros [? ?]; split; auto; congruence.
Qed.

Lemma keyed_nil {A} (key : A -> string) : keyed key [].
Proof. split; constructor. Qed.

Lemma keyed_add_new {A} (key : A -> string) k v m :
  k = key v -> keyed key m -> keyed key (omap_add_new k v m).
Proof.
  intros Hk [Hnd Hall]. unfold omap_add_new.
  destruct (is_empty k) eqn:Ek; simpl; [by split|].
  destruct (omap_has k m) eqn:Eh; simpl; [by split|].
  apply omap_has_false in Eh. apply is_empty_false in Ek. split.
  - rewrite map_app. simpl. apply NoDup_app. split; [done|]. split.
    + intros x Hx Hx'. apply list_elem_of_singleton in Hx'. by subst.
    + apply NoDup_singleton.
  - apply Forall_app. split; [done|]. by repeat constructor.
Qed.

Lemma add_new_subset {A} k (v : A) m kv :
  kv ∈ omap_add_new k v m -> kv ∈ m \/ kv = (k, v).
Proof.
  unfold omap_add_new. destruct (_ && _); [|by left].
  rewrite elem_of_app, list_elem_of_singleton. tauto.
Qed.

Lemma resolve_calls {S} (geocode : resolver S) address st :
  calls (snd (resolve geocode address st)) = calls st ++ [address].
Proof. unfold resolve. by destruct (geocode address (fst st)). Qed.

End CommonProps.

(** ** The Nashville adapter *)

Section NashvilleProps.
Import JsString JsNum JsValue Geocode Common Traces Nashville.
Context {S : Type} (geocode : resolver S) (M : Math).

Lemma uniqueAddrMap_keyed rows : keyed normalizeAddress (uniqueAddrMap rows).
Proof.
  unfold uniqueAddrMap.
  assert (H : forall m, keyed normalizeAddress m ->
            keyed normalizeAddress
              (fold_left
                 (fun m row =>
                    if is_empty (displayAddress row) then m
                    else omap_add_new (normalizeAddress (displayAddress row))
                                      (displayAddress row) m) rows m)).
  { induction rows as [|r rows IH]; intros m Hm; simpl; [done|].
    apply IH. destruct (is_empty (displayAddress r)); [done|].
    by apply keyed_add_new. }
  apply H, keyed_nil.
Qed.

Lemma fetchCity_places geojson s0 :
  places (fetchCity geocode M geojson s0)
  = omap (place_of (geocodeResults (fetchCity geocode M geojson s0)))
         (map extract (features_of geojson)).
Proof.
  unfold fetchCity.
  by destruct (geocode_all geocode M _ _).
Qed.

(** the loop body, read backwards *)
Lemma place_of_Some results r p :
  place_of results r = Some p ->
  exists g,
    results !! normalizeAddress (displayAddress r) = Some g /\
    finite (g_lat g) = true /\ finite (g_lon g) = true /\
    p = Place r (g_lat g) (g_lon g) (VStr (displayAddress r)).
Proof.
  unfold place_of.
  destruct (is_empty (displayAddress r)); [done|].
  destruct (is_empty (normalizeAddress (displayAddress r))); [done|].
  destruct (results !! normalizeAddress (displayAddress r)) as [g|]; [|done].
  destruct (finite (g_lat g)) eqn:E1, (finite (g_lon g)) eqn:E2; simpl; try done.
  intros [= <-]. by exists g.
Qed.

End NashvilleProps.

(** C2, as amended.  When the first result for an address lies more than
    40 miles from the centre, the worker calls the resolver a second time
    with [forceNashville original].  When the address ends with
    [, <city>, TN] (the city not empty and without a comma, [TN] in either
    case), that is the text before this ending followed by
    [, Nashville, TN]; it is the address unchanged when it otherwise ends in
    [TN], and the address followed by [, Nashville, TN] in every other
    case.  When that second call returns,
    the entry stored for the address is the second result if and only if it
    lies within 40 miles, and the first result otherwise. *)
Theorem nashville_retry_policy {S : Type} (geocode : Common.resolver S)
    (M : Common.Math) (norm original : string)
    (results : gmap string Geocode.geo) (st st1 : Common.fetch_state S)
    (g : Geocode.geo) :
  Common.resolve geocode original st = (Some g, st1) ->
  Nashville.too_far M g = true ->
  let out := Nashville.worker geocode M norm original (results, st) in
  Common.calls (snd out)
    = Common.calls st ++ [original; Nashville.forceNashville original]
  /\ (if Regex.test Nashville.trailing_city_TN original
      then exists pre city tn,
             original = pre +:+ ", " +:+ city +:+ ", " +:+ tn
             /\ city <> EmptyString
             /\ Matcher.all_chars (fun x => negb (Ascii.eqb x ",")) city = true
             /\ JsString.toLowerCase tn = "tn"
             /\ Nashville.forceNashville original = pre +:+ ", Nashville, TN"
      else if Regex.test Nashville.trailing_TN original
           then Nashville.forceNashville original = original
           else Nashville.forceNashville original = original +:+ ", Nashville, TN")
  /\ forall g2 st2,
       Common.resolve geocode (Nashville.forceNashville original) st1
         = (Some g2, st2) ->
       fst out = <[norm := if Nashville.within_radius M g2 then g2 else g]> results.
Proof.
  intros H1 Hfar out. subst out. unfold Nashville.worker.
  pose proof (resolve_calls geocode original st) as Hc1.
  rewrite H1 in Hc1 |- *. rewrite Hfar. simpl in Hc1.
  pose proof (resolve_calls geocode (Nashville.forceNashville original) st1) as Hc2.
  destruct (Common.resolve geocode (Nashville.forceNashville original) st1)
    as [[g2|] st2] eqn:H2; simpl in Hc2.
  - split; [|split; [exact (forceNashville_cases original)|]].
    + destruct (Nashville.within_radius M g2); simpl;
        rewrite Hc2, Hc1; by rewrite <- app_assoc.
    + intros g2' st2' [= <- <-].
      by destruct (Nashville.within_radius M g2).
  - split; [|split; [exact (forceNashville_cases original)|]].
    + simpl. rewrite Hc2, Hc1. by rewrite <- app_assoc.
    + intros g2' st2' [=].
Qed.

Lemma nashville_retry_policy_witness :
  Common.resolve Inputs.geocode_by_city "1 Main St, Franklin, TN" (tt, [])
    = (Some Inputs.new_york, (tt, ["1 Main St, Franklin, TN"]))
  /\ Nashville.too_far FixedMath.math Inputs.new_york = true
  /\ let out :=
       Nashville.worker Inputs.geocode_by_city FixedMath.math
         "1 main st, franklin, tn" "1 Main St, Franklin, TN" (∅, (tt, [])) in
     Common.calls (snd out)
       = Common.calls (tt, [])
         ++ ["1 Main St, Franklin, TN";
             Nashville.forceNashville "1 Main St, Franklin, TN"]
     /\ (if Regex.test Nashville.trailing_city_TN "1 Main St, Franklin, TN"
         then exists pre city tn,
                "1 Main St, Franklin, TN" = pre +:+ ", " +:+ city +:+ ", " +:+ tn
                /\ city <> EmptyString
                /\ Matcher.all_chars (fun x => negb (Ascii.eqb x ",")) city = true
                /\ JsString.toLowerCase tn = "tn"
                /\ Nashville.forceNashville "1 Main St, Franklin, TN"
                   = pre +:+ ", Nashville, TN"
         else if Regex.test Nashville.trailing_TN "1 Main St, Franklin, TN"
              then Nashville.forceNashville "1 Main St, Franklin, TN"
                   = "1 Main St, Franklin, TN"
              else Nashville.forceNashville "1 Main St, Franklin, TN"
                   = "1 Main St, Franklin, TN" +:+ ", Nashville, TN")
     /\ forall g2 st2,
          Common.resolve Inputs.geocode_by_city
            (Nashville.forceNashville "1 Main St, Franklin, TN")
            (tt, ["1 Main St, Franklin, TN"]) = (Some g2, st2) ->
          fst out
          = <["1 main st, franklin, tn" :=
                if Nashville.within_radius FixedMath.math g2 then g2
                else Inputs.new_york]> ∅.
Proof.
  split; [reflexivity|]. split; [vm_compute; reflexivity|].
  apply (nashville_retry_policy Inputs.geocode_by_city FixedMath.math
           "1 main st, franklin, tn" "1 Main St, Franklin, TN" ∅ (tt, [])
           (tt, ["1 Main St, Franklin, TN"]) Inputs.new_york).
  - reflexivity.
  - vm_compute; reflexivity.
Defined.

(** The retry in action: the forced address is found downtown and replaces
    the first result. *)
Example nashville_retry_replaces :
  fst (Nashville.worker Inputs.geocode_by_city FixedMath.math
         "1 main st, franklin, tn" "1 Main St, Franklin, TN" (∅, (tt, [])))
    !! "1 main st, franklin, tn" = Some Inputs.downtown.
Proof. vm_compute. reflexivity. Qed.

(** C2, counterexample.  The address [Franklin, TN] of a record without a
    street has no trailing [, <other>, TN] and still is not followed by
    [, Nashville, TN]: the second call repeats the address as it is. *)
Lemma nashville_retry_keeps_address :
  Nashville.too_far FixedMath.math Inputs.new_york = true
  /\ Regex.test Nashville.trailing_city_TN "Franklin, TN" = false
  /\ Common.calls
       (snd (Nashville.worker Inputs.geocode_far FixedMath.math
               "franklin, tn" "Franklin, TN" (∅, (tt, []))))
     = ["Franklin, TN"; "Franklin, TN"]
  /\ "Franklin, TN" <> "Franklin, TN" +:+ ", Nashville, TN".
Proof. vm_compute. repeat split; congruence. Qed.

(** What the worker does when the second call throws: nothing is stored
    for the address, the first result included. *)
Example nashville_retry_failure_leaves_missing :
  let geocode : Common.resolver unit := fun address st =>
    (if JsString.includes "Nashville" address then None else Some Inputs.new_york, st) in
  Nashville.worker geocode FixedMath.math
    "1 main st, franklin, tn" "1 Main St, Franklin, TN" (∅, (tt, []))
  = (∅, (tt, ["1 Main St, Franklin, TN"; "1 Main St, Nashville, TN"])).
Proof. vm_compute. reflexivity. Qed.

(** The display address and the forced address on some inputs. *)
Example buildDisplayAddress_samples :
  Nashville.buildDisplayAddress (JsValue.VStr "5th   ave") JsValue.VUndef
    = "5th Ave, Nashville, TN"
  /\ Nashville.buildDisplayAddress
       (JsValue.VStr "OLD HICKORY BLVD \ LEBANON PIKE") (JsValue.VStr "HERMITAGE")
     = "Old Hickory Blvd / Lebanon Pike, Hermitage, TN"
  /\ Nashville.buildDisplayAddress (JsValue.VStr "100 BROADWAY") (JsValue.VStr "DOWNTOWN")
     = "100 Broadway, Nashville, TN"
  /\ Nashville.buildDisplayAddress JsValue.VNull (JsValue.VStr "Franklin")
     = "Franklin, TN".
Proof. vm_compute. repeat split; reflexivity. Qed.

Example forceNashville_samples :
  Nashville.forceNashville "1 Main St, Franklin, TN" = "1 Main St, Nashville, TN"
  /\ Nashville.forceNashville "1 Main St, Franklin, tn" = "1 Main St, Nashville, TN"
  /\ Nashville.forceNashville "5th Ave, Nashville, TN" = "5th Ave, Nashville, TN"
  /\ Nashville.forceNashville "Franklin, TN" = "Franklin, TN"
  /\ Nashville.forceNashville "1 Main St" = "1 Main St, Nashville, TN".
Proof. vm_compute. repeat split; reflexivity. Qed.

(** ** The Portland adapter *)

Section PdxProps.
Import JsString JsNum JsValue Geocode Common Traces Pdx PdxFetch.
Context {S : Type} (geocode : resolver S).

Lemma uniqueMap_keyed rows :
  keyed (fun v => normalizeAddress (text_of v)) (uniqueMap rows).
Proof.
  unfold uniqueMap.
  generalize (filter (fun r => needs_geocoding r = true) rows). intros l.
  assert (H : forall m, keyed (fun v => normalizeAddress (text_of v)) m ->
            keyed (fun v => normalizeAddress (text_of v))
              (fold_left
                 (fun m r => omap_add_new (normalizeAddress (text_of (r_address r)))
                                          (r_address r) m) l m)).
  { induction l as [|r l IH]; intros m Hm; simpl; [done|].
    apply IH. by apply keyed_add_new. }
  apply H, keyed_nil.
Qed.

Lemma uniqueMap_from_rows rows kv :
  kv ∈ uniqueMap rows ->
  exists r, r ∈ rows /\ needs_geocoding r = true /\ snd kv = r_address r.
Proof.
  unfold uniqueMap.
  assert (H : forall l m,
            kv ∈ fold_left
                   (fun m r => omap_add_new (normalizeAddress (text_of (r_address r)))
                                            (r_address r) m) l m ->
            kv ∈ m \/ exists r, r ∈ l /\ snd kv = r_address r).
  { induction l as [|r l IH]; intros m; simpl; [by left|].
    intros Hin. destruct (IH _ Hin) as [Hm|(r' & Hr' & Hkv)].
    - apply add_new_subset in Hm as [Hm| ->]; [by left|].
      right. exists r. split; [left|done].
    - right. exists r'. split; [by right|done]. }
  intros Hin. destruct (H _ _ Hin) as [Hnil|(r & Hr & Hkv)].
  - by apply elem_of_nil in Hnil.
  - apply list_elem_of_filter in Hr as [Hneed Hr]. by exists r.
Qed.

Lemma fetch_rows_places rows s0 :
  places (fetch_rows geocode rows s0)
  = omap (place_of (geoResults (fetch_rows geocode rows s0))) (map tidy rows).
Proof.
  unfold fetch_rows. by destruct (geocode_all geocode _ _).
Qed.

End PdxProps.

(** ** Deduplication of the resolver calls *)

(** C3, counterexample.  Two Nashville features whose addresses are
    [5th Ave] and [5th   ave] share one normalised address; when the
    resolver places it far from the centre, the retry calls the resolver
    again with the same address: two calls for one distinct query. *)
Lemma nashville_calls_same_query_twice :
  let log :=
    Common.calls
      (Nashville.final
         (Nashville.fetchCity Inputs.geocode_far FixedMath.math
            Inputs.fifth_avenue_twice tt)) in
  log = ["5th Ave, Nashville, TN"; "5th Ave, Nashville, TN"]
  /\ map Geocode.normalizeAddress log
     = ["5th ave, nashville, tn"; "5th ave, nashville, tn"].
Proof. vm_compute. split; reflexivity. Qed.

(** ** The places that are emitted *)

Section PlaceProps.
Import JsString JsNum JsValue Geocode Common Shapes.

Lemma isFinite_VNum v : isFinite v = true -> v = VNum (to_Number v).
Proof. by destruct v. Qed.

Lemma isFinite_to_Number v : isFinite v = true -> finite (to_Number v) = true.
Proof. by destruct v. Qed.

(** the body of the Portland loop, read backwards *)
Lemma pdx_place_of_Some results r p :
  PdxFetch.place_of results r = Some p ->
  src p = r /\ finite (lat p) = true /\ finite (lon p) = true /\
  ((PdxFetch.native_coords r = true /\
    Pdx.r_lat r = VNum (lat p) /\ Pdx.r_lon r = VNum (lon p) /\
    address p = Pdx.r_address r)
   \/ (PdxFetch.native_coords r = false /\ truthy (Pdx.r_address r) = true /\
       exists g,
         results !! normalizeAddress (PdxFetch.text_of (Pdx.r_address r)) = Some g /\
         lat p = g_lat g /\ lon p = g_lon g /\
         address p = or_else (g_formatted g) (Pdx.r_address r))).
Proof.
  unfold PdxFetch.place_of, PdxFetch.chosen.
  destruct (PdxFetch.native_coords r) eqn:En; simpl.
  - unfold PdxFetch.native_coords in En. apply andb_prop in En as [E1 E2].
    rewrite E1, E2. simpl. intros [= <-]. simpl.
    split; [done|]. split; [by apply isFinite_to_Number|].
    split; [by apply isFinite_to_Number|]. left.
    split; [done|]. split; [by apply isFinite_VNum|]. split; [by apply isFinite_VNum|done].
  - destruct (truthy (Pdx.r_address r)) eqn:Et; simpl.
    + destruct (results !! _) as [g|] eqn:Eg.
      * simpl. destruct (finite (g_lat g)) eqn:E1, (finite (g_lon g)) eqn:E2;
          simpl; try done.
        intros [= <-]. simpl. split; [done|]. split; [done|]. split; [done|].
        right. split; [done|]. split; [done|]. by exists g.
      * unfold PdxFetch.native_coords in En.
        destruct (isFinite (Pdx.r_lat r)), (isFinite (Pdx.r_lon r)); done.
    + unfold PdxFetch.native_coords in En.
      destruct (isFinite (Pdx.r_lat r)), (isFinite (Pdx.r_lon r)); done.
Qed.

Lemma pdx_place_of_is_Some results r :
  is_Some (PdxFetch.place_of results r) <-> has_finite_coords results r = true.
Proof.
  unfold PdxFetch.place_of, PdxFetch.chosen, has_finite_coords.
  destruct (PdxFetch.native_coords r) eqn:En; simpl.
  - unfold PdxFetch.native_coords in En. apply andb_prop in En as [E1 E2].
    rewrite E1, E2. simpl. split; [done|]. intros _. by eexists.
  - destruct (truthy (Pdx.r_address r)) eqn:Et; simpl.
    + destruct (results !! _) as [g|] eqn:Eg; simpl.
      * destruct (finite (g_lat g)), (finite (g_lon g)); simpl;
          split; try done; try (by intros [? ?]); intros _; by eexists.
      * unfold PdxFetch.native_coords in En.
        destruct (isFinite (Pdx.r_lat r)), (isFinite (Pdx.r_lon r));
          simpl in *; try done; split; try done; by intros [? ?].
    + unfold PdxFetch.native_coords in En.
      destruct (isFinite (Pdx.r_lat r)), (isFinite (Pdx.r_lon r));
        simpl in *; try done; split; try done; by intros [? ?].
Qed.

(** membership in the result of a [map] that may throw *)
Lemma map_result_elem {A B} (f : A -> result B) l bs b :
  map_result f l = Ok bs -> b ∈ bs -> exists a, a ∈ l /\ f a = Ok b.
Proof.
  revert bs. induction l as [|a l IH]; intros bs; simpl.
  - intros [= <-] Hb. by apply elem_of_nil in Hb.
  - destruct (f a) as [b0|] eqn:Ea; simpl; [|done].
    destruct (map_result f l) as [bs0|] eqn:El; simpl; [|done].
    intros [= <-] Hb. apply elem_of_cons in Hb as [->|Hb].
    + exists a. split; [left|done].
    + destruct (IH _ eq_refl Hb) as (a' & Ha' & Hf). exists a'. split; [by right|done].
Qed.

Lemma omap_id_elem {A} (l : list (option A)) (x : A) :
  x ∈ omap (fun o : option A => o) l <-> Some x ∈ l.
Proof.
  rewrite list_elem_of_omap. split.
  - intros (o & Ho & ->). done.
  - intros H. by exists (Some x).
Qed.

End PlaceProps.

(** Every place emitted by an adapter has a finite latitude and a finite
    longitude. *)
Lemma nashville_places_finite {S : Type} (geocode : Common.resolver S)
    (M : Common.Math) geojson s0 p :
  p ∈ Nashville.places (Nashville.fetchCity geocode M geojson s0) ->
  JsNum.finite (Common.lat p) = true /\ JsNum.finite (Common.lon p) = true.
Proof.
  rewrite fetchCity_places, list_elem_of_omap.
  intros (r & _ & Hp). apply place_of_Some in Hp as (g & _ & H1 & H2 & ->). done.
Qed.

Lemma pdx_places_finite {S : Type} (geocode : Common.resolver S) rows s0 p :
  p ∈ PdxFetch.places (PdxFetch.fetch_rows geocode rows s0) ->
  JsNum.finite (Common.lat p) = true /\ JsNum.finite (Common.lon p) = true.
Proof.
  rewrite fetch_rows_places, list_elem_of_omap.
  intros (r & _ & Hp). apply pdx_place_of_Some in Hp as (_ & H1 & H2 & _). done.
Qed.

Lemma sf_places_finite JSON_parse text l p :
  Sf.fetchCity JSON_parse text = Ok l -> p ∈ l ->
  JsNum.finite (Sf.lat p) = true /\ JsNum.finite (Sf.lon p) = true.
Proof.
  unfold Sf.fetchCity.
  destruct (JSON_parse text) as [rows|]; [|by intros [= <-] H; apply elem_of_nil in H].
  destruct (negb (JsValue.isArray rows));
    [by intros [= <-] H; apply elem_of_nil in H|].
  destruct (map_result Sf.place_of (JsValue.items_of rows)) as [os|] eqn:E; [|done].
  intros [= <-] Hp. apply omap_id_elem in Hp.
  destruct (map_result_elem _ _ _ _ E Hp) as (r & _ & Hr).
  unfold Sf.place_of in Hr.
  assert (Hk : forall c c', Sf.keep c = Some c' -> Sf.both_finite c' = true).
  { intros c c'. unfold Sf.keep. destruct (Sf.both_finite c) eqn:Ec; [|done].
    by intros [= <-]. }
  assert (Hor : forall (a b : option (JsNum.num * JsNum.num)) c,
            Sf.or_opt a b = Some c -> a = Some c \/ b = Some c).
  { intros [a|] b c; simpl; auto. }
  assert (Hin : forall loc c, Sf.coords_in loc = Some c -> Sf.both_finite c = true).
  { intros loc c. unfold Sf.coords_in. intros H.
    apply Hor in H as [H|H]; [|apply Hor in H as [H|H]].
    - destruct (_ && _) in H; [by apply Hk in H|done].
    - by apply Hk in H.
    - destruct loc; try done.
      destruct (Regex.exec Sf.WKT_POINT s) as [m|]; simpl in H; [|done].
      by apply Hk in H. }
  assert (Hfirst : forall cs c, Sf.first_coords cs = Some c -> Sf.both_finite c = true).
  { induction cs as [|loc cs IH]; intros c; simpl; [done|].
    destruct (negb (JsValue.truthy loc)); [apply IH|].
    destruct (Sf.coords_in loc) as [c0|] eqn:E0; [|apply IH].
    intros [= <-]. by apply Hin in E0. }
  unfold Sf.extractCoords in Hr.
  destruct (JsValue.get r "latitude") as [latitude|];
    cbv beta iota delta [mbind result_bind] in Hr; [|done].
  remember (map (JsValue.prop r) _) as cs eqn:Ecs in Hr. clear Ecs.
  destruct (Sf.both_finite _) eqn:Et in Hr.
  - injection Hr as <-. simpl. by apply andb_prop in Et.
  - destruct (Sf.first_coords cs) as [[la lo]|] eqn:Ef; [|done].
    injection Hr as <-. simpl. apply Hfirst in Ef. by apply andb_prop in Ef.
Qed.

(** C1, the failing input.  A row whose only latitude is [91] is emitted
    with that latitude by every adapter that reads coordinates from the
    feed: the adapters test that the coordinates are finite and nothing else.
    The first part runs the JSON parser and the pipeline of the Portland
    adapter on a row with [lat = "91"], the second the KML reader on a point
    [-122.6,91,0], the third the San Francisco adapter on a row with
    [latitude = "91"]. *)
Theorem latitude_91_is_emitted :
  (forall (S : Type) (geocode : Common.resolver S) (date_parse : string -> option Z)
          (s0 : S),
     exists rows,
       Pdx.parseJSONVariant date_parse Inputs.json_lat_91 = Ok rows /\
       map (fun p => (Common.lat p, Common.lon p))
           (PdxFetch.places (PdxFetch.fetch_rows geocode rows s0))
       = [(JsNum.Fin 91, JsNum.Fin (-122.6))])
  /\ (forall (S : Type) (geocode : Common.resolver S) (date_parse : string -> option Z)
             (s0 : S),
        map (fun p => (Common.lat p, Common.lon p))
            (PdxFetch.places
               (PdxFetch.fetch_rows geocode
                  [Pdx.kml_row date_parse Inputs.kml_lat_91] s0))
        = [(JsNum.Fin 91, JsNum.Fin (-122.6))])
  /\ Sf.place_of Inputs.sf_lat_91
     = Ok (Some (Sf.SfPlace Inputs.sf_lat_91 (JsNum.Fin 91) (JsNum.Fin (-122.4))))
  /\ JsNum.le (JsNum.Fin 91) (JsNum.Fin 90) = false.
Proof.
  split; [|split; [|split]].
  - intros S geocode date_parse s0. eexists. split; [vm_compute; reflexivity|].
    rewrite fetch_rows_places. vm_compute. reflexivity.
  - intros S geocode date_parse s0.
    rewrite fetch_rows_places. vm_compute. reflexivity.
  - vm_compute. reflexivity.
  - reflexivity.
Qed.

(** C4, counterexample.  A Portland row without coordinates whose address
    is [123 Main St] is emitted with the formatted address of the
    resolver. *)
Lemma pdx_address_is_formatted :
  map Common.address
      (PdxFetch.places
         (PdxFetch.fetch_rows Inputs.geocode_main_street
            [Inputs.street_row "123 Main St"] tt))
  = [JsValue.VStr "123 SW Main St, Portland, OR 97204, USA"]
  /\ PdxFetch.tidy (Inputs.street_row "123 Main St")
     = Inputs.street_row "123 Main St, Portland, OR".
Proof. vm_compute. split; reflexivity. Qed.

(** Each adapter emits a place on these inputs. *)
Example nashville_emits_place :
  map (fun p => (Common.lat p, Common.lon p, Common.address p))
      (Nashville.places
         (Nashville.fetchCity Inputs.geocode_by_city FixedMath.math
            Inputs.fifth_avenue_twice tt))
  = [(JsNum.Fin 36.1627, JsNum.Fin (-86.7816), JsValue.VStr "5th Ave, Nashville, TN");
     (JsNum.Fin 36.1627, JsNum.Fin (-86.7816), JsValue.VStr "5th Ave, Nashville, TN")].
Proof. vm_compute. reflexivity. Qed.

Example pdx_emits_geocoded_place :
  map (fun p => (Common.lat p, Common.lon p))
      (PdxFetch.places
         (PdxFetch.fetch_rows Inputs.geocode_main_street
            [Inputs.street_row "123 Main St"] tt))
  = [(JsNum.Fin 45.5152, JsNum.Fin (-122.6784))].
Proof. vm_compute. reflexivity. Qed.

(** ** The parsers of the Portland adapter *)

(** C6, evaluated.  On the description of the scenario the sub-parser finds
    the incident id [PP1] and the instant [2025-08-17T23:20:00.000Z], which
    is 4:20 PM Pacific daylight time; the clean address it returns ends with
    a comma.  The comma that followed the street is rewritten to a comma and
    a space before the pattern for a final comma is applied, so that pattern
    does not match, and the final [trim] then removes the space only. *)
Theorem kml_description_scenario :
  Pdx.parseKmlDescription JsDate.parse_legacy
    "Theft at 123 Main St, Sunday, August 17, 2025 4:20 PM [Portland Police #PP1]"
  = Pdx.Description "123 Main St," (Some "PP1") (Some "2025-08-17T23:20:00.000Z")
  /\ (forall date_parse,
        Pdx.cleanAddress
          (Pdx.parseKmlDescription date_parse
             "Theft at 123 Main St, Sunday, August 17, 2025 4:20 PM [Portland Police #PP1]")
        = "123 Main St,")
  /\ "123 Main St," <> "123 Main St".
Proof.
  split; [vm_compute; reflexivity|]. split; [|congruence].
  intros date_parse. vm_compute. reflexivity.
Qed.

(** The address of a description in the usual layout of the feed, where the
    time stamp does not follow the street, has no final comma. *)
Example kml_description_usual_layout :
  Pdx.parseKmlDescription JsDate.parse_legacy
    "THEFT - COLD at 100 SE MAIN ST, PORT [Portland Police #PP25000223544]<br>Sunday, August 17, 2025 4:20 PM"
  = Pdx.Description "100 SE MAIN ST" (Some "PP25000223544")
      (Some "2025-08-17T23:20:00.000Z").
Proof. vm_compute. reflexivity. Qed.

Section ParserProps.
Import JsString JsNum JsValue Regex Pdx PdxFetch.
Context (xml_parse : string -> result value)
        (JSON_parse : string -> result value)
        (first_table : string -> option (list tr))
        (date_parse : string -> option Z).

Lemma map_result_returns {A B} (f : A -> result B) l :
  (forall a, returns (f a) = true) -> returns (map_result f l) = true.
Proof.
  intros Hf. induction l as [|a l IH]; simpl; [done|].
  specialize (Hf a). destruct (f a); [|done]. simpl.
  destruct (map_result f l); done.
Qed.

Lemma safeISO_text_returns o :
  returns (safeISO date_parse (match o with Some t => VStr (trim t) | None => VUndef end))
  = true.
Proof.
  destruct o as [t|]; [|done]. unfold safeISO.
  destruct (negb (truthy (VStr (trim t)))); [done|].
  by destruct (date_parse _).
Qed.

Lemma html_row_returns i j k t : returns (html_row date_parse i j k t) = true.
Proof.
  unfold html_row. destruct (decide (tds t = [])); [done|].
  assert (H : returns (safeISO date_parse
                (match k with
                 | Some i0 => match tds t !! i0 with
                              | Some text => VStr (trim text)
                              | None => VUndef
                              end
                 | None => VUndef
                 end)) = true).
  { destruct k as [i0|]; [|done]. apply (safeISO_text_returns (tds t !! i0)). }
  destruct (safeISO date_parse _); [|done]. simpl.
  by destruct (fold_left _ _ _).
Qed.

Lemma parseHTMLTable_dom_returns table :
  returns (parseHTMLTable_dom date_parse table) = true.
Proof.
  unfold parseHTMLTable_dom. destruct table as [trs|]; [|done].
  match goal with
  | |- context [map_result ?f ?l] =>
      pose proof (map_result_returns f l (html_row_returns _ _ _)) as H;
      destruct (map_result f l)
  end; done.
Qed.

End ParserProps.

(** ** The bounding box of the San Francisco adapter *)

Section BoxProps.
Import JsString JsNum JsValue Geocode Common SfBBox.
Context {S : Type} (geocode : resolver S) (cfg : config).
Hypothesis enforced : ENFORCE_BBOX cfg = true.

Lemma inSF_in_box la lo :
  inSF cfg la lo = true -> in_box cfg (num_of la) (num_of lo) = true.
Proof.
  unfold inSF. destruct (negb (isFinite la) || negb (isFinite lo)); [done|].
  by rewrite enforced.
Qed.

Lemma worker_keeps_box norm original results st :
  map_Forall (fun _ g => in_box cfg (g_lat g) (g_lon g) = true) results ->
  map_Forall (fun _ g => in_box cfg (g_lat g) (g_lon g) = true)
             (fst (worker geocode cfg norm original (results, st))).
Proof.
  intros H. unfold worker.
  destruct (resolve geocode original st) as [[g|] st1]; [|done].
  destruct (inSF cfg (VNum (g_lat g)) (VNum (g_lon g))) eqn:E; [|done].
  simpl. apply map_Forall_insert_2; [|done].
  by apply inSF_in_box in E.
Qed.

Lemma geocode_all_keeps_box uniq st :
  map_Forall (fun _ g => in_box cfg (g_lat g) (g_lon g) = true)
             (fst (geocode_all geocode cfg uniq st)).
Proof.
  unfold geocode_all.
  assert (H : forall acc,
            map_Forall (fun _ g => in_box cfg (g_lat g) (g_lon g) = true) (fst acc) ->
            map_Forall (fun _ g => in_box cfg (g_lat g) (g_lon g) = true)
              (fst (fold_left (fun acc kv => worker geocode cfg (fst kv) (snd kv) acc)
                              uniq acc))).
  { induction uniq as [|[k a] uniq IH]; intros [results st']; cbn [fold_left fst snd];
      [done|].
    intros H. apply IH. by apply worker_keeps_box. }
  apply H. simpl. apply map_Forall_empty.
Qed.

End BoxProps.

(** the default box, in terms of the order on rationals *)
Lemma in_box_default (la lo : Q) :
  SfBBox.in_box SfBBox.default_config (JsNum.Fin la) (JsNum.Fin lo) = true <->
  (37.55 <= la /\ la <= 37.95 /\ -122.60 <= lo /\ lo <= -122.20)%Q.
Proof.
  unfold SfBBox.in_box, SfBBox.default_config, SfBBox.config_of_env,
    SfBBox.bound_of_env, JsNum.ge, JsNum.le. cbn [SfBBox.minLat SfBBox.maxLat
    SfBBox.minLon SfBBox.maxLon].
  rewrite !andb_true_iff, !Qle_bool_iff. tauto.
Qed.

(** C10.  With the bounding box enforced, every place emitted by the
    variant lies inside the configured box, and so does every result that
    entered the result map; the configuration read from an environment
    without settings enforces the box from 37.55 to 37.95 in latitude and
    from -122.60 to -122.20 in longitude. *)
Theorem sf_places_inside_box {S : Type} (geocode : Common.resolver S)
    (cfg : SfBBox.config) (JSON_parse : string -> result JsValue.value)
    (text : string) (s0 : S) (out : SfBBox.fetched) :
  SfBBox.ENFORCE_BBOX cfg = true ->
  SfBBox.fetchCity geocode cfg JSON_parse text s0 = Ok out ->
  (forall p, p ∈ SfBBox.places out ->
     SfBBox.in_box cfg (Common.lat p) (Common.lon p) = true)
  /\ (forall k g, SfBBox.geoResults out !! k = Some g ->
        SfBBox.in_box cfg (Geocode.g_lat g) (Geocode.g_lon g) = true)
  /\ SfBBox.default_config
     = SfBBox.Config (JsNum.Fin 37.55) (JsNum.Fin 37.95)
                     (JsNum.Fin (-122.60)) (JsNum.Fin (-122.20)) true.
Proof.
  intros Henf. unfold SfBBox.fetchCity.
  destruct (JSON_parse text) as [rows|].
  2:{ intros [= <-]. simpl. split; [|split; [|reflexivity]].
      - intros p H. by apply elem_of_nil in H.
      - intros k g. by rewrite lookup_empty. }
  destruct (_ || _).
  { intros [= <-]. simpl. split; [|split; [|reflexivity]].
    - intros p H. by apply elem_of_nil in H.
    - intros k g. by rewrite lookup_empty. }
  destruct (map_result _ (JsValue.items_of rows)) as [records|]; [|done].
  pose proof (geocode_all_keeps_box geocode cfg Henf (SfBBox.uniqueMap records) (s0, []))
    as Hbox.
  destruct (SfBBox.geocode_all geocode cfg (SfBBox.uniqueMap records) (s0, []))
    as [results st].
  destruct (map_result (SfBBox.place_of cfg results) records) as [os|] eqn:E; [|done].
  intros [= <-]. simpl in *. split; [|split; [|reflexivity]].
  - intros p Hp. apply omap_id_elem in Hp.
    destruct (map_result_elem _ _ _ _ E Hp) as (r & _ & Hr).
    unfold SfBBox.place_of in Hr.
    destruct (SfBBox.final_coords results r) as [la lo].
    destruct (SfBBox.inSF cfg la lo) eqn:Ein; simpl in Hr; [|done].
    destruct (SfBBox.display_of results r) as [d|]; simpl in Hr; [|done].
    injection Hr as <-. simpl. by apply inSF_in_box.
  - intros k g Hg. by apply (Hbox k g).
Qed.

Lemma sf_places_inside_box_witness :
  SfBBox.ENFORCE_BBOX SfBBox.default_config = true
  /\ exists out,
       SfBBox.fetchCity Inputs.geocode_down SfBBox.default_config
         Inputs.parse_market_street EmptyString tt = Ok out
       /\ length (SfBBox.places out) = 1
       /\ (forall p, p ∈ SfBBox.places out ->
             SfBBox.in_box SfBBox.default_config (Common.lat p) (Common.lon p) = true)
       /\ (forall k g, SfBBox.geoResults out !! k = Some g ->
             SfBBox.in_box SfBBox.default_config (Geocode.g_lat g) (Geocode.g_lon g)
             = true)
       /\ SfBBox.default_config
          = SfBBox.Config (JsNum.Fin 37.55) (JsNum.Fin 37.95)
                          (JsNum.Fin (-122.60)) (JsNum.Fin (-122.20)) true.
Proof.
  split; [reflexivity|]. eexists. split; [vm_compute; reflexivity|].
  split; [reflexivity|].
  apply (sf_places_inside_box Inputs.geocode_down SfBBox.default_config
           Inputs.parse_market_street EmptyString tt).
  - reflexivity.
  - vm_compute; reflexivity.
Defined.

(** A geocoded record of the variant: without a street in the dataset, the
    formatted address of the resolver is shown; and a result outside the
    box is not stored, so the record is dropped. *)
Example sf_shows_formatted_address :
  (fun out => map Common.address (SfBBox.places out))
    <$> SfBBox.fetchCity Inputs.geocode_city_hall SfBBox.default_config
          (fun _ => Ok Inputs.city_hall_row) EmptyString tt
  = Ok [JsValue.VStr "1 Dr Carlton B Goodlett Pl, San Francisco, CA 94102, USA"].
Proof. vm_compute. reflexivity. Qed.

Example sf_drops_result_outside_box :
  (fun out => (SfBBox.places out, SfBBox.geoResults out))
    <$> SfBBox.fetchCity Inputs.geocode_far SfBBox.default_config
          (fun _ => Ok Inputs.city_hall_row) EmptyString tt
  = Ok ([], ∅).
Proof. vm_compute. reflexivity. Qed.

(** ** The cache of the resolver *)

Section GeocodeCacheProps.
Import JsString JsNum JsValue Geocode Shapes.



(** X2.  Once the clock has reached the expiry of the entry of an address, or
    when that expiry is not a number, the entry answers nothing: the call
    returns what it returns with an empty cache. *)
Theorem geocode_ignores_expired_entry cfg upstream now cache address e :
  cache !! normalizeAddress address = Some e ->
  gt (expiresAt e) (of_Z now) = false ->
  fst (geocode cfg upstream now cache address)
  = fst (geocode cfg upstream now ∅ address).
Proof.
  intros He Hx. unfold geocode, cached. rewrite He, Hx, lookup_empty.
  destruct (key_missing cfg); [done|].
  destruct (400 <=? statusCode (upstream address))%Z; [done|].
  destruct (body_json (upstream address)) as [b|]; [|done].
  by destruct (negb (isFinite (hit_lat (top_hit b))) ||
               negb (isFinite (hit_lon (top_hit b)))).
Qed.

(** X3.  A call changes at most the entry of the normalised address, and a call
    that throws changes nothing. *)
Theorem geocode_cache_frame cfg upstream now cache address :
  (forall q, q <> normalizeAddress address ->
     snd (geocode cfg upstream now cache address) !! q = cache !! q)
  /\ (returns (fst (geocode cfg upstream now cache address)) = false ->
      snd (geocode cfg upstream now cache address) = cache).
Proof.
  unfold geocode.
  destruct (key_missing cfg); [done|].
  destruct (cached cache _ now); [done|].
  destruct (400 <=? statusCode (upstream address))%Z; [done|].
  destruct (body_json (upstream address)) as [b|]; [|done].
  destruct (negb (isFinite (hit_lat (top_hit b))) ||
            negb (isFinite (hit_lon (top_hit b)))); [done|].
  simpl. split; [|done]. intros q Hq. by rewrite lookup_insert_ne.
Qed.

End GeocodeCacheProps.


Lemma geocode_ignores_expired_entry_witness :
  fst (Geocode.geocode Inputs.cfg_with_key
         (fun _ => Geocode.Response 500 "down" (Throw SyntaxError))
         2592000000
         (snd (Geocode.geocode Inputs.cfg_with_key Inputs.upstream_ok 0 ∅ "Nashville, TN"))
         "Nashville, TN")
  = fst (Geocode.geocode Inputs.cfg_with_key
           (fun _ => Geocode.Response 500 "down" (Throw SyntaxError))
           2592000000 ∅ "Nashville, TN").
Proof.
  eapply (geocode_ignores_expired_entry Inputs.cfg_with_key _ 2592000000 _
            "Nashville, TN").
  - vm_compute. reflexivity.
  - vm_compute. reflexivity.
Defined.

(** ** The shape of a normalised address *)

Section NormalizeShapeProps.
Import JsString Geocode Shapes Matcher.

Lemma is_empty_lower s : is_empty (toLowerCase s) = is_empty s.
Proof. by destruct s. Qed.

Lemma trimStart_all_space s :
  is_empty (trimStart s) = all_chars is_space s.
Proof.
  induction s as [|c r IH]; simpl; [done|].
  by destruct (is_space c).
Qed.

Lemma trimEnd_is_empty s :
  starts_space s = false -> is_empty (trimEnd s) = is_empty s.
Proof.
  destruct s as [|c r]; simpl; [done|]. intros ->. by destruct (trimEnd r).
Qed.

Lemma trim_all_space s : is_empty (trim s) = all_chars is_space s.
Proof.
  unfold trim. rewrite trimEnd_is_empty by apply trimStart_starts.
  apply trimStart_all_space.
Qed.

Lemma collapse_is_empty s : is_empty (collapse_from false s) = is_empty s.
Proof. destruct s as [|c r]; simpl; [done|]. by destruct (is_space c). Qed.

Lemma all_chars_app p (a b : string) :
  all_chars p (a +:+ b) = all_chars p a && all_chars p b.
Proof.
  induction a as [|x a IH]; [done|].
  change (p x && all_chars p (a +:+ b) = p x && all_chars p a && all_chars p b).
  by rewrite IH, andb_assoc.
Qed.

Lemma normalizeAddress_blank (x : string) :
  is_empty (normalizeAddress x) = all_chars is_space x.
Proof.
  unfold normalizeAddress, collapse_spaces.
  by rewrite is_empty_lower, collapse_is_empty, trim_all_space.
Qed.

(** X4.  The normalised form of an address is empty exactly when the address
    holds nothing but white space. *)
Theorem normalizeAddress_empty_iff_blank (x : string) :
  is_empty (normalizeAddress x) = all_chars is_space x.
Proof. apply normalizeAddress_blank. Qed.

(** X5.  Two addresses that differ in letter case only have the same normalised
    form. *)
Theorem normalizeAddress_ignores_case (a b : string) :
  toLowerCase a = toLowerCase b -> normalizeAddress a = normalizeAddress b.
Proof.
  intros H. unfold normalizeAddress, collapse_spaces.
  by rewrite <- !collapse_from_lower, <- !trim_lower, H.
Qed.

(** X6.  A normalised address has no white space at either end, no white space
    character other than single spaces between words, and no upper case
    letter. *)
Theorem normalizeAddress_shape (x : string) :
  starts_space (normalizeAddress x) = false
  /\ ends_space (normalizeAddress x) = false
  /\ single_spaced false (normalizeAddress x) = true
  /\ toLowerCase (normalizeAddress x) = normalizeAddress x.
Proof.
  unfold normalizeAddress, collapse_spaces.
  rewrite <- collapse_from_lower, <- trim_lower.
  split; [apply collapse_starts, trim_starts|].
  split; [apply collapse_ends, trim_ends|].
  split; [apply collapse_from_single|].
  by rewrite <- collapse_from_lower, <- trim_lower, toLowerCase_idem.
Qed.

End NormalizeShapeProps.

Lemma normalizeAddress_ignores_case_witness :
  Geocode.normalizeAddress "5th AVE,  Nashville, TN"
  = Geocode.normalizeAddress "5TH Ave,  NASHVILLE, tn".
Proof. apply normalizeAddress_ignores_case. reflexivity. Defined.

(** ** The Portland pipeline and the resolver *)

Section PdxPipelineProps.
Import JsString JsNum JsValue Geocode Common Pdx PdxFetch.
Context {S : Type} (geocode : resolver S).

Lemma tidy_native r : native_coords (tidy r) = native_coords r.
Proof. unfold tidy. by destruct (truthy (r_address r)). Qed.

Lemma place_of_native results r :
  native_coords r = true ->
  place_of results r
  = Some (Place r (to_Number (r_lat r)) (to_Number (r_lon r)) (r_address r)).
Proof.
  intros Hn. unfold place_of, chosen. rewrite Hn. simpl.
  unfold native_coords in Hn. apply andb_prop in Hn as [-> ->]. done.
Qed.

Lemma place_of_no_result r :
  native_coords r = false -> place_of ∅ r = None.
Proof.
  intros Hn. unfold place_of, chosen. rewrite Hn, lookup_empty. simpl.
  unfold native_coords in Hn.
  destruct (truthy (r_address r)), (isFinite (r_lat r)), (isFinite (r_lon r)); done.
Qed.

End PdxPipelineProps.

(** ** The Nashville pipeline and the resolver *)

Section NashvillePipelineProps.
Import JsString JsNum JsValue Geocode Common Shapes Matcher Traces Pipeline Nashville.
Context {S : Type} (geocode : resolver S) (M : Math).

Lemma buildDisplayAddress_not_blank rawStreet cityName :
  all_chars is_space (buildDisplayAddress rawStreet cityName) = false.
Proof.
  unfold buildDisplayAddress. destruct (is_empty _).
  - rewrite all_chars_app. apply andb_false_r.
  - rewrite !all_chars_app. by rewrite !andb_false_r.
Qed.

Lemma extract_keyed f :
  is_empty (displayAddress (extract f)) = false
  /\ is_empty (normalizeAddress (displayAddress (extract f))) = false.
Proof.
  unfold extract. cbn [displayAddress].
  pose proof (buildDisplayAddress_not_blank
                (extractAddress (or_else (getq f "properties") (VObj [])))
                (cityName_of (or_else (getq f "properties") (VObj [])))) as H.
  split; [|by rewrite normalizeAddress_blank].
  by destruct (buildDisplayAddress _ _).
Qed.

Lemma omap_has_add_new {A} k k' (v : A) m :
  omap_has k' (omap_add_new k v m) = omap_has k' m || (negb (is_empty k) && String.eqb k k').
Proof.
  unfold omap_add_new, omap_has.
  destruct (is_empty k) eqn:Ek; simpl; [by rewrite orb_false_r|].
  destruct (existsb (fun p => String.eqb (fst p) k) m) eqn:Eh; simpl.
  - destruct (String.eqb k k') eqn:Ekk; [|by rewrite orb_false_r].
    apply String.eqb_eq in Ekk. subst. by rewrite Eh.
  - by rewrite existsb_app; simpl; rewrite orb_false_r.
Qed.

Lemma fold_add_row_keeps rows m k :
  omap_has k m = true -> omap_has k (fold_left add_row rows m) = true.
Proof.
  revert m. induction rows as [|r rows IH]; intros m Hk; simpl; [done|].
  apply IH. unfold add_row. destruct (is_empty (displayAddress r)); [done|].
  by rewrite omap_has_add_new, Hk.
Qed.

Lemma fold_add_row_has rows m r :
  r ∈ rows ->
  is_empty (displayAddress r) = false ->
  is_empty (normalizeAddress (displayAddress r)) = false ->
  omap_has (normalizeAddress (displayAddress r)) (fold_left add_row rows m) = true.
Proof.
  intros Hin Hd Hn. revert m. induction rows as [|r' rows IH]; intros m.
  - by apply elem_of_nil in Hin.
  - simpl. apply elem_of_cons in Hin as [<-|Hin]; [|by apply IH].
    apply fold_add_row_keeps. unfold add_row. rewrite Hd, omap_has_add_new, Hn.
    by rewrite String.eqb_refl, orb_true_r.
Qed.

Lemma omap_has_elem {A} k (m : list (string * A)) :
  omap_has k m = true -> k ∈ map fst m.
Proof.
  intros H. destruct (decide (k ∈ map fst m)) as [|Hn]; [done|].
  apply omap_has_false in Hn. congruence.
Qed.

Lemma omap_all_Some {A B} (f : A -> option B) (proj : B -> A) (l : list A) :
  (forall a, a ∈ l -> exists b, f a = Some b /\ proj b = a) ->
  map proj (omap f l) = l.
Proof.
  induction l as [|a l IH]; intros H; [done|].
  change (omap f (a :: l))
    with (match f a with Some b => b :: omap f l | None => omap f l end).
  destruct (H a) as (b & -> & Hb); [left|].
  cbn [map]. rewrite Hb. f_equal. apply IH. intros a' Ha'. apply H. by right.
Qed.

End NashvillePipelineProps.

(** ** The forced address *)

Section ForceNashvilleProps.
Import JsString Regex Matcher Counting Nashville.

Lemma count_char_app c (a b : string) :
  count_char c (a +:+ b) = count_char c a + count_char c b.
Proof.
  induction a as [|x a IH]; [done|].
  change (count_char c (String x (a +:+ b))
          = count_char c (String x a) + count_char c b).
  cbn [count_char]. rewrite IH. lia.
Qed.

Lemma count_char_none c s :
  all_chars (fun x => negb (Ascii.eqb x c)) s = true -> count_char c s = 0.
Proof.
  induction s as [|x s IH]; cbn [all_chars count_char]; [done|].
  destruct (Ascii.eqb x c); cbn [negb andb]; [done|]. exact IH.
Qed.

Lemma lower_tn_no_comma tn : toLowerCase tn = "tn" -> count_char "," tn = 0.
Proof.
  destruct tn as [|a [|b [|? ?]]]; cbn [toLowerCase count_char]; try done.
  intros [= Ha Hb].
  destruct (Ascii.eqb a ",") eqn:Ea.
  { apply Ascii.eqb_eq in Ea. subst a. vm_compute in Ha. done. }
  destruct (Ascii.eqb b ",") eqn:Eb; [|done].
  apply Ascii.eqb_eq in Eb. subst b. vm_compute in Hb. done.
Qed.

(** two ways of cutting one text: one of the cuts comes first *)
Lemma append_cuts (x y s1 s2 : string) :
  x +:+ s1 = y +:+ s2 ->
  exists z, (x = y +:+ z /\ s2 = z +:+ s1) \/ (y = x +:+ z /\ s1 = z +:+ s2).
Proof.
  revert y. induction x as [|a x IH]; intros y H.
  - exists y. right. done.
  - destruct y as [|b y].
    + exists (String a x). left. done.
    + change (String a (x +:+ s1) = String b (y +:+ s2)) in H.
      injection H as -> H. destruct (IH _ H) as (z & [[-> ->]|[-> ->]]).
      * exists z. left. done.
      * exists z. right. done.
Qed.

(** a text has one cut only that leaves a comma first and two commas in all *)
Lemma two_comma_cut (x y s1 s2 : string) :
  x +:+ s1 = y +:+ s2 ->
  startsWith "," s1 = true -> startsWith "," s2 = true ->
  count_char "," s1 = 2 -> count_char "," s2 = 2 ->
  x = y.
Proof.
  intros H H1 H2 C1 C2.
  destruct (append_cuts _ _ _ _ H) as (z & [[-> ->]|[-> ->]]).
  - destruct z as [|a z]; [by rewrite append_empty|].
    change (startsWith "," (String a (z +:+ s1)) = true) in H2.
    cbn [startsWith] in H2. apply andb_prop in H2 as [Ha _].
    apply Ascii.eqb_eq in Ha. subst a.
    change (String "," z +:+ s1) with (String "," (z +:+ s1)) in C2.
    cbn [count_char] in C2. rewrite Ascii.eqb_refl, count_char_app in C2. lia.
  - destruct z as [|a z]; [by rewrite append_empty|].
    change (startsWith "," (String a (z +:+ s2)) = true) in H1.
    cbn [startsWith] in H1. apply andb_prop in H1 as [Ha _].
    apply Ascii.eqb_eq in Ha. subst a.
    change (String "," z +:+ s2) with (String "," (z +:+ s2)) in C1.
    cbn [count_char] in C1. rewrite Ascii.eqb_refl, count_char_app in C1. lia.
Qed.

(** a pattern that matches at some place of a text is found by the search *)
Lemma search_from_complete r prev pre (w s : string) :
  (forall p, is_Some (match_here r p s)) ->
  is_Some (search_from r prev pre (w +:+ s)).
Proof.
  intros Hs. revert prev pre. induction w as [|x w IH]; intros prev pre.
  - change (EmptyString +:+ s) with s.
    destruct s as [|y s]; cbn [search_from];
      destruct (Hs prev) as [[s' c] ->]; by eexists.
  - change (String x w +:+ s) with (String x (w +:+ s)). cbn [search_from].
    destruct (match_here r prev _) as [[s' c]|]; [by eexists|]. apply IH.
Qed.

Lemma forced_suffix_matches p :
  is_Some (match_here trailing_city_TN p ", Nashville, TN").
Proof. by eexists. Qed.

(** an address that ends with the forced suffix is replaced by itself *)
Lemma forceNashville_forced (pre : string) :
  forceNashville (pre +:+ ", Nashville, TN") = pre +:+ ", Nashville, TN".
Proof.
  pose proof (forceNashville_cases (pre +:+ ", Nashville, TN")) as H.
  assert (Ht : test trailing_city_TN (pre +:+ ", Nashville, TN") = true).
  { apply bool_decide_eq_true_2. apply search_from_complete, forced_suffix_matches. }
  rewrite Ht in H. destruct H as (pre' & city & tn & Hs & Hc & Hcs & Htn & ->).
  f_equal. symmetry. eapply (two_comma_cut _ _ _ _ Hs); try done.
  rewrite !count_char_app, (count_char_none _ _ Hcs), (lower_tn_no_comma _ Htn).
  done.
Qed.

Lemma takes_trailing_TN s s' :
  takes trailing_TN s s' ->
  s' = EmptyString /\ toLowerCase s = "tn".
Proof.
  unfold trailing_TN. cbn [lit_i chr_i]. intros H.
  apply takes_Seq_inv in H as (s1 & H & He).
  apply takes_Eol_inv in He as [-> ->].
  apply takes_Seq_inv in H as (s2 & Hk1 & Hk2).
  apply takes_Class_inv in Hk1 as (k1 & -> & Hk1), Hk2 as (k2 & -> & Hk2).
  apply Ascii.eqb_eq in Hk1, Hk2. split; [done|]. simpl. by rewrite Hk1, Hk2.
Qed.

(** X11.  The forced address always ends in [TN], in either letter case. *)
Theorem forceNashville_ends_in_TN (address : string) :
  exists pre tn,
    forceNashville address = pre +:+ tn /\ toLowerCase tn = "tn".
Proof.
  pose proof (forceNashville_cases address) as H.
  destruct (test trailing_city_TN address).
  - destruct H as (pre & city & tn & _ & _ & _ & _ & ->).
    exists (pre +:+ ", Nashville, "), "TN". by rewrite append_assoc.
  - unfold test in H. destruct (exec trailing_TN address) as [m|] eqn:E.
    + rewrite bool_decide_eq_true_2 in H by eauto. rewrite H.
      apply exec_sound in E as [Hs Ht].
      apply takes_trailing_TN in Ht as [Ha Hm]. rewrite Ha, append_empty in Hm, Hs.
      exists (before m), (matched m). done.
    + rewrite bool_decide_eq_false_2 in H by (intros [? [=]]). rewrite H.
      exists (address +:+ ", Nashville, "), "TN". by rewrite append_assoc.
Qed.

(** X12.  Forcing an address a second time changes nothing. *)
Theorem forceNashville_idempotent (address : string) :
  forceNashville (forceNashville address) = forceNashville address.
Proof.
  pose proof (forceNashville_cases address) as H.
  destruct (test trailing_city_TN address) eqn:E1.
  - destruct H as (pre & city & tn & _ & _ & _ & _ & ->).
    apply forceNashville_forced.
  - destruct (test trailing_TN address) eqn:E2.
    + rewrite H. unfold forceNashville at 1. by rewrite E1, E2.
    + rewrite H. apply forceNashville_forced.
Qed.

End ForceNashvilleProps.

(** ** The city and state suffix *)

Section CityStateProps.
Import JsString JsValue Mentions.

Lemma toLowerCase_app (a b : string) :
  toLowerCase (a +:+ b) = toLowerCase a +:+ toLowerCase b.
Proof.
  induction a as [|x a IH]; [done|].
  change (String (lower_char x) (toLowerCase (a +:+ b))
          = String (lower_char x) (toLowerCase a +:+ toLowerCase b)).
  by rewrite IH.
Qed.

Lemma startsWith_app (p c : string) : startsWith p (p +:+ c) = true.
Proof.
  induction p as [|x p IH]; [by destruct c|].
  change (startsWith (String x p) (String x (p +:+ c)) = true).
  cbn [startsWith]. by rewrite Ascii.eqb_refl, IH.
Qed.

Lemma indexOf_unfold (p s : string) :
  indexOf p s
  = if startsWith p s then Some 0
    else match s with
         | EmptyString => None
         | String _ r => S <$> indexOf p r
         end.
Proof. by destruct s. Qed.

(** a text that holds [p] somewhere includes [p] *)
Lemma includes_app (p a c : string) : includes p (a +:+ p +:+ c) = true.
Proof.
  apply bool_decide_eq_true_2. induction a as [|x a IH].
  - change (EmptyString +:+ p +:+ c) with (p +:+ c).
    rewrite indexOf_unfold, startsWith_app. by eexists.
  - change (String x a +:+ p +:+ c) with (String x (a +:+ p +:+ c)).
    rewrite indexOf_unfold. destruct (startsWith p _); [by eexists|].
    destruct IH as [i ->]. by eexists.
Qed.

Lemma includes_empty (p : string) :
  p <> EmptyString -> includes p EmptyString = false.
Proof. destruct p; [done|]. intros _. by apply bool_decide_eq_false_2; intros [? [=]]. Qed.

Lemma names_portland_suffix (a : string) :
  names_portland (toLowerCase (a +:+ ", Portland, OR")) = true.
Proof.
  unfold names_portland. rewrite toLowerCase_app.
  change (toLowerCase ", Portland, OR") with (", " +:+ "portland" +:+ ", or").
  rewrite <- append_assoc. by rewrite includes_app.
Qed.

Lemma pdx_withCityState_names address :
  truthy (Pdx.withCityState address) = true
  /\ names_portland (toLowerCase (to_String (Pdx.withCityState address))) = true.
Proof.
  unfold Pdx.withCityState. destruct (truthy address) eqn:Et; simpl; [|done].
  fold (names_portland (toLowerCase (to_String address))).
  destruct (names_portland (toLowerCase (to_String address))) eqn:En; [done|].
  split; [|apply names_portland_suffix].
  simpl. by destruct (to_String address).
Qed.

(** X13.  Portland's [withCityState] applied to its own result changes nothing,
    and its result is never empty. *)
Theorem pdx_withCityState_idempotent (address : value) :
  Pdx.withCityState (Pdx.withCityState address) = Pdx.withCityState address
  /\ truthy (Pdx.withCityState address) = true.
Proof.
  destruct (pdx_withCityState_names address) as [Ht Hn]. split; [|done].
  unfold Pdx.withCityState at 1. rewrite Ht. simpl.
  fold (names_portland (toLowerCase (to_String (Pdx.withCityState address)))).
  by rewrite Hn.
Qed.

Lemma sf_withCityState_names (addr : string) :
  is_empty (SfBBox.withCityState addr) = false
  /\ names_san_francisco (toLowerCase (SfBBox.withCityState addr)) = true.
Proof.
  unfold SfBBox.withCityState. destruct (is_empty addr); [done|].
  set (clean := trim _).
  fold (names_san_francisco (toLowerCase clean)).
  destruct (names_san_francisco (toLowerCase clean)) eqn:En.
  - split; [|done]. destruct clean; [|done]. done.
  - split.
    + destruct clean; done.
    + unfold names_san_francisco. rewrite toLowerCase_app.
      change (toLowerCase ", San Francisco, CA")
        with (", " +:+ "san francisco" +:+ ", ca").
      rewrite <- append_assoc. by rewrite includes_app.
Qed.

(** X14.  San Francisco's [withCityState] never returns an empty address, and
    the address it returns names the city or the state; so does the
    address of every place the adapter builds from a row. *)
Theorem sf_withCityState_names_city :
  (forall addr : string,
     is_empty (SfBBox.withCityState addr) = false
     /\ names_san_francisco (toLowerCase (SfBBox.withCityState addr)) = true)
  /\ (forall r : value,
        is_empty (SfAddress.address_of r) = false
        /\ names_san_francisco (toLowerCase (SfAddress.address_of r)) = true).
Proof. split; intros; apply sf_withCityState_names. Qed.

End CityStateProps.

(** ** Time stamps *)

Section StampProps.
Import JsString JsNum JsValue Rows.
Context (date_parse : string -> option Z).

Lemma time_of_num_beyond n :
  truthy (VNum n) = true ->
  (JsDate.time_of_num n = None <-> beyond_dates n = true).
Proof.
  destruct n as [q| | |]; simpl; try done.
  intros _. destruct (Qle_bool (Qabs q) _); simpl; split; done.
Qed.

(** X15.  Portland's [safeISO] throws exactly on a number that is infinite or
    lies beyond the largest time value of a date (8.64e15 milliseconds on
    either side of the epoch); on every other value it returns. *)
Theorem safeISO_throws_iff (ts : value) :
  returns (Pdx.safeISO date_parse ts) = false
  <-> exists n, ts = VNum n /\ beyond_dates n = true.
Proof.
  unfold Pdx.safeISO. destruct (truthy ts) eqn:Et; simpl.
  - destruct ts as [| |b|n|s|l|fs]; simpl in Et; try done.
    + split; [done|]. by intros (n & [=] & _).
    + pose proof (time_of_num_beyond n Et) as Hn.
      destruct (JsDate.time_of_num n) as [t|]; simpl.
      * split; [done|]. intros (n' & [= <-] & Hb).
        apply Hn in Hb. done.
      * split; [|done]. intros _. exists n. split; [done|]. by apply Hn.
    + destruct (date_parse _); simpl; (split; [done|]); by intros (n & [=] & _).
    + destruct (date_parse _); simpl; (split; [done|]); by intros (n & [=] & _).
    + destruct (date_parse _); simpl; (split; [done|]); by intros (n & [=] & _).
  - split; [done|]. intros (n & -> & Hb).
    destruct n as [q| | |]; simpl in *; try done.
    unfold qzero in Et. apply negb_false_iff in Et.
    apply Qeq_bool_iff in Et.
    apply negb_true_iff in Hb.
    assert (Qle_bool (Qabs q) (inject_Z JsDate.max_time) = true); [|congruence].
    apply Qle_bool_iff. rewrite Et. done.
Qed.

Lemma nashville_toISO_throws (ts : value) :
  returns (NashvilleFields.toISO date_parse ts) = false
  <-> NashvilleFields.bad_stamp ts = true.
Proof.
  unfold NashvilleFields.toISO, NashvilleFields.bad_stamp.
  destruct ts as [| |b|n|s|l|fs]; simpl; try done.
  - destruct (JsDate.time_of_num n); simpl; split; done.
  - by destruct (date_parse s).
Qed.

Lemma map_result_throws {A B} (f : A -> result B) (l : list A) :
  returns (map_result f l) = false <-> Exists (fun a => returns (f a) = false) l.
Proof.
  induction l as [|a l IH]; simpl.
  - split; [done|]. intros H. inversion H.
  - rewrite Exists_cons. destruct (f a) as [b|e]; simpl.
    + destruct (map_result f l) as [bs|e]; simpl in *.
      * split; [done|]. intros [?|H]; [done|]. by apply IH in H.
      * split; [|done]. intros _. right. by apply IH.
    + split; [|done]. intros _. by left.
Qed.

Lemma premap_one_throws (f : value) :
  returns (NashvilleFields.premap_one date_parse f) = false
  <-> NashvilleFields.bad_feature f = true.
Proof.
  unfold NashvilleFields.premap_one,
    NashvilleFields.bad_feature, NashvilleFields.extractUpdatedAt,
    NashvilleFields.extractCallTimeReceived.
  set (props := or_else (getq f "properties") (VObj [])).
  pose proof (nashville_toISO_throws (NashvilleFields.updated_stamp props)) as H1.
  pose proof (nashville_toISO_throws (NashvilleFields.received_stamp props)) as H2.
  destruct (NashvilleFields.toISO date_parse (NashvilleFields.updated_stamp props));
    simpl in *.
  - destruct (NashvilleFields.toISO date_parse (NashvilleFields.received_stamp props));
      simpl in *.
    + rewrite orb_true_iff. split; [done|]. intros [?|?]; [by apply H1|by apply H2].
    + rewrite orb_true_iff. split; [|done]. intros _. right. by apply H2.
  - rewrite orb_true_iff. split; [|done]. intros _. left. by apply H1.
Qed.

(** X16.  Once the body of the feed is read, the Nashville fetch throws
    exactly when a feature carries, as its update or call-received time
    stamp, a number that is no valid time value: [toISO] converts a number
    without a validity check, in the pre-map that runs before the
    look-up. *)
Theorem nashville_premap_throws_iff {S : Type} (geocode : Common.resolver S)
    (M : Common.Math) (geojson : value) (s0 : S) :
  returns (NashvilleFields.fetchCity date_parse geocode M geojson s0) = false
  <-> Exists (fun f => NashvilleFields.bad_feature f = true)
             (Nashville.features_of geojson).
Proof.
  unfold NashvilleFields.fetchCity.
  assert (H : returns (NashvilleFields.premap date_parse geojson) = false
              <-> Exists (fun f => NashvilleFields.bad_feature f = true)
                         (Nashville.features_of geojson)).
  { unfold NashvilleFields.premap. rewrite map_result_throws.
    split; intros HE; (eapply Exists_impl; [exact HE|]); intros f Hf;
      by apply premap_one_throws. }
  rewrite <- H. by destruct (NashvilleFields.premap date_parse geojson).
Qed.

End StampProps.

(** ** The parsers of the Portland feed *)

Section PdxParserProps.
Import JsString JsNum JsValue Shapes Matcher Rows.
Context (date_parse : string -> option Z).

Lemma single_spaced_weaken b s : single_spaced true s = true -> single_spaced b s = true.
Proof.
  destruct b; [done|]. destruct s as [|c r]; simpl; [done|].
  by destruct (is_space c).
Qed.

Lemma single_spaced_trimStart b s :
  single_spaced b s = true -> single_spaced false (trimStart s) = true.
Proof.
  revert b. induction s as [|c r IH]; intros b; simpl; [done|].
  destruct (is_space c) eqn:E.
  - intros H. apply andb_prop in H as [_ H]. by apply IH in H.
  - intros H. simpl. by rewrite E.
Qed.

Lemma single_spaced_trimEnd b s :
  single_spaced b s = true -> single_spaced b (trimEnd s) = true.
Proof.
  revert b. induction s as [|c r IH]; intros b; simpl; [done|].
  destruct (is_space c) eqn:E.
  - intros H. apply andb_prop in H as [H1 H2]. apply IH in H2.
    destruct (trimEnd r) as [|c' r']; [done|]. simpl. by rewrite E, H1.
  - intros H. apply IH in H.
    destruct (trimEnd r) as [|c' r']; simpl; by rewrite E.
Qed.

Lemma single_spaced_only_spaces b s :
  single_spaced b s = true -> only_spaces s = true.
Proof.
  unfold only_spaces. revert b. induction s as [|c r IH]; intros b; simpl; [done|].
  destruct (is_space c) eqn:E; simpl.
  - intros H. apply andb_prop in H as [H1 H2]. apply andb_prop in H1 as [_ H1].
    rewrite H1. by apply IH in H2.
  - apply IH.
Qed.

Lemma stripHtml_single_spaced s : single_spaced false (Pdx.stripHtml s) = true.
Proof.
  unfold Pdx.stripHtml, trim.
  apply single_spaced_trimEnd, (single_spaced_trimStart false), collapse_from_single.
Qed.

Lemma only_spaces_drop n s : only_spaces s = true -> only_spaces (drop n s) = true.
Proof.
  unfold only_spaces. revert s. induction n as [|n IH]; intros s; [by destruct s|].
  destruct s as [|c r]; simpl; [done|].
  intros H. apply andb_prop in H as [_ H]. by apply IH.
Qed.

Lemma only_spaces_no_line_break s :
  only_spaces s = true -> indexOf (String "010" EmptyString) s = None.
Proof.
  unfold only_spaces. induction s as [|c r IH]; [done|].
  cbn [all_chars]. intros H. apply andb_prop in H as [Hc H].
  rewrite indexOf_unfold. cbn [startsWith].
  destruct (Ascii.eqb "010" c) eqn:E.
  - apply Ascii.eqb_eq in E. subst c. done.
  - simpl. by rewrite (IH H).
Qed.

(** X17.  The text that [stripHtml] returns has no white space at either end,
    and its only white space characters are single spaces between words:
    no tab, no line break, no two spaces in a row.  So the step of
    [parseKmlDescription] that keeps the first line of the address part
    keeps all of it, wherever the address part starts. *)
Theorem stripHtml_shape (s : string) :
  starts_space (Pdx.stripHtml s) = false
  /\ ends_space (Pdx.stripHtml s) = false
  /\ single_spaced false (Pdx.stripHtml s) = true
  /\ forall n, split (String "010" EmptyString) (drop n (Pdx.stripHtml s))
               = [drop n (Pdx.stripHtml s)].
Proof.
  split; [apply trim_starts|]. split; [apply trim_ends|].
  split; [apply stripHtml_single_spaced|].
  intros n. unfold split. cbn [split_go].
  rewrite only_spaces_no_line_break; [done|].
  apply only_spaces_drop, (single_spaced_only_spaces false), stripHtml_single_spaced.
Qed.

Lemma map_result_length {A B} (f : A -> result B) (l : list A) bs :
  map_result f l = Ok bs -> length bs = length l.
Proof.
  revert bs. induction l as [|a l IH]; intros bs; simpl.
  - by intros [= <-].
  - destruct (f a) as [b|]; simpl; [|done].
    destruct (map_result f l) as [bs0|]; simpl; [|done].
    intros [= <-]. simpl. by rewrite (IH _ eq_refl).
Qed.

(** X18.  When [parseJSONVariant] returns, it returns one row for every element
    of the array it has read (the body itself, its [incidents], or its
    [features], in this order of preference), and no row when the body has
    none of the three. *)
Theorem parseJSONVariant_keeps_every_element (json : value) (rows : list Pdx.row) :
  Pdx.parseJSONVariant date_parse json = Ok rows ->
  length rows = length (source_items json).
Proof.
  unfold Pdx.parseJSONVariant, source_items.
  destruct (isArray json).
  - simpl. apply map_result_length.
  - destruct (isArray (getq json "incidents")).
    + simpl. apply map_result_length.
    + destruct (isArray (getq json "features")).
      * destruct (map_result Pdx.merge_feature _) as [merged|] eqn:Em; simpl; [|done].
        intros H. apply map_result_length in H, Em. congruence.
      * simpl. by intros [= <-].
Qed.

End PdxParserProps.

Lemma parseJSONVariant_keeps_every_element_witness :
  length (match Pdx.parseJSONVariant (fun _ => None) Inputs.json_lat_91 with
          | Ok rows => rows
          | Throw _ => []
          end)
  = length (Rows.source_items Inputs.json_lat_91).
Proof.
  apply (parseJSONVariant_keeps_every_element (fun _ => None) Inputs.json_lat_91).
  vm_compute. reflexivity.
Defined.

(** ** The provider table and the city route *)

Section ProviderProps.
Import JsString JsNum JsValue Providers.

Lemma lower_fixed (city k : string) : toLowerCase city = k -> toLowerCase k = k.
Proof. intros <-. apply toLowerCase_idem. Qed.

Lemma own_Some {A} (k : string) (l : list (string * A)) (v : A) :
  own k l = Some v -> In (k, v) l.
Proof.
  unfold own. induction l as [|[k' v'] l IH]; simpl; [done|].
  destruct (String.eqb k' k) eqn:E; simpl.
  - apply String.eqb_eq in E. intros [= <-]. left. by subst.
  - intros H. right. by apply IH.
Qed.

Ltac each_entry H :=
  simpl in H;
  repeat (destruct H as [H|H]; [injection H as <- <-|]); [..|destruct H].

(** what [resolveProvider] does, by the lower-cased name *)
Lemma resolveProvider_cases (city : string) :
  match own (toLowerCase city) CITY_PROVIDER with
  | Some n => exists p, resolveProvider city = Ok p /\ own n registry = Some p
  | None =>
      if bool_decide (toLowerCase city = "constructor")
         || bool_decide (toLowerCase city = "__proto__")
      then returns (resolveProvider city) = false
      else resolveProvider city = Ok nashvilleMNPD
  end.
Proof.
  unfold resolveProvider.
  pose proof (lower_fixed city (toLowerCase city) eq_refl) as Hfix.
  remember (toLowerCase city) as k eqn:Hk. clear Hk city.
  destruct (own k CITY_PROVIDER) as [n|] eqn:E1.
  - apply own_Some in E1. each_entry E1; by eexists.
  - destruct (own k Object_prototype) as [text|] eqn:E2.
    + apply own_Some in E2. each_entry E2;
        solve [vm_compute in Hfix; discriminate Hfix | reflexivity].
    + destruct (bool_decide (k = "constructor")) eqn:B1.
      { apply bool_decide_eq_true_1 in B1. subst k. discriminate E2. }
      destruct (bool_decide (k = "__proto__")) eqn:B2.
      { apply bool_decide_eq_true_1 in B2. subst k. discriminate E2. }
      reflexivity.
Qed.

(** X19.  [resolveProvider] throws for the two names [constructor] and
    [__proto__], in any letter case, and for no other: these are the lower
    case names that an object literal inherits, and what it inherits under
    them is no name of the registry. *)
Theorem resolveProvider_throws_iff (city : string) :
  returns (resolveProvider city) = false
  <-> toLowerCase city = "constructor" \/ toLowerCase city = "__proto__".
Proof.
  pose proof (resolveProvider_cases city) as H.
  destruct (own (toLowerCase city) CITY_PROVIDER) as [n|] eqn:E1.
  - destruct H as (p & -> & _). split; [done|].
    intros [Hc|Hc]; rewrite Hc in E1; discriminate E1.
  - destruct (bool_decide (toLowerCase city = "constructor")) eqn:B1.
    { apply bool_decide_eq_true_1 in B1. simpl in H. tauto. }
    destruct (bool_decide (toLowerCase city = "__proto__")) eqn:B2.
    { apply bool_decide_eq_true_1 in B2. simpl in H. tauto. }
    apply bool_decide_eq_false_1 in B1, B2. simpl in H. rewrite H.
    split; [done|]. tauto.
Qed.

(** X20.  A city that is none of the six names of the table, nor one of the two
    inherited names, is served by the Nashville adapter. *)
Theorem resolveProvider_falls_back_to_nashville (city : string) :
  own (toLowerCase city) CITY_PROVIDER = None ->
  toLowerCase city <> "constructor" ->
  toLowerCase city <> "__proto__" ->
  resolveProvider city = Ok nashvilleMNPD.
Proof.
  intros E1 H1 H2. pose proof (resolveProvider_cases city) as H.
  rewrite E1 in H.
  by rewrite !bool_decide_eq_false_2 in H by done.
Qed.

End ProviderProps.

Lemma resolveProvider_falls_back_to_nashville_witness :
  Providers.resolveProvider "Memphis" = Ok Providers.nashvilleMNPD.
Proof.
  apply resolveProvider_falls_back_to_nashville; [reflexivity| |]; vm_compute; discriminate.
Defined.

Section CityRouteProps.
Import JsString JsNum JsValue Providers CityRoutes.
Context {D S : Type}.
Context (fetchCity : provider -> string -> S -> result D * S).

Lemma handle_no_ttl param now (st : state (D:=D) (S:=S)) :
  (forall k e, st.1 !! k = Some e -> expiresAt e = NaN) ->
  is_hit (handle VUndef fetchCity param now st).1 = false
  /\ (forall k e, (handle VUndef fetchCity param now st).2.1 !! k = Some e ->
        expiresAt e = NaN).
Proof.
  intros Hinv. unfold handle. destruct st as [cache s]. simpl in Hinv.
  set (key := "city:" +:+ toLowerCase param).
  assert (Hfresh : match cache !! key with
                   | Some e => if gt (expiresAt e) (of_Z now) then Some (data e) else None
                   | None => None
                   end = None).
  { destruct (cache !! key) as [e|] eqn:E; [|done]. by rewrite (Hinv _ _ E). }
  rewrite Hfresh.
  destruct (resolveProvider (toLowerCase param)) as [[| | |text]|e]; try done;
    (destruct (fetchCity _ _ s) as [[d1|e1] s1]; [|done]; simpl; split;
     [by destruct (cache !! key)|];
     intros k e; destruct (decide (k = key)) as [->|Hne];
     [rewrite lookup_insert_eq; by intros [= <-]
     |rewrite lookup_insert_ne by done; apply Hinv]).
Qed.

Lemma serve_no_ttl requests (st : state (D:=D) (S:=S)) :
  (forall k e, st.1 !! k = Some e -> expiresAt e = NaN) ->
  Forall (fun r => is_hit r = false) (serve VUndef fetchCity requests st).1.
Proof.
  revert st. induction requests as [|[param now] rest IH]; intros st Hinv; simpl.
  - constructor.
  - destruct (handle_no_ttl param now st Hinv) as [H1 H2].
    destruct (handle VUndef fetchCity param now st) as [r st1]. simpl in *.
    specialize (IH st1 H2).
    destruct (serve VUndef fetchCity rest st1) as [rs st2]. simpl in *.
    by constructor.
Qed.

(** X22.  When the config module exports no [cityTTL], no request is ever served
    from the cache: every entry is stored with an expiry that is not a
    number, so that every request runs the adapter again, whatever the
    clock says. *)
Theorem city_cache_never_hits_without_ttl (requests : list (string * Z)) (s0 : S) :
  Forall (fun r => is_hit r = false) (serve VUndef fetchCity requests (∅, s0)).1.
Proof. apply serve_no_ttl. intros k e. cbn [fst]. by rewrite lookup_empty. Qed.

End CityRouteProps.

(** ** The San Francisco adapter *)

(** X24.  Every place emitted by an adapter has a finite latitude and a finite
    longitude, whatever the feed and the resolver give. *)
Theorem emitted_places_are_finite :
  (forall (S : Type) (geocode : Common.resolver S) (M : Common.Math) geojson s0 p,
     p ∈ Nashville.places (Nashville.fetchCity geocode M geojson s0) ->
     JsNum.finite (Common.lat p) = true /\ JsNum.finite (Common.lon p) = true)
  /\ (forall (S : Type) (geocode : Common.resolver S) rows s0 p,
        p ∈ PdxFetch.places (PdxFetch.fetch_rows geocode rows s0) ->
        JsNum.finite (Common.lat p) = true /\ JsNum.finite (Common.lon p) = true)
  /\ (forall JSON_parse text l p,
        Sf.fetchCity JSON_parse text = Ok l -> p ∈ l ->
        JsNum.finite (Sf.lat p) = true /\ JsNum.finite (Sf.lon p) = true).
Proof.
  split; [|split].
  - intros S geocode M geojson s0 p. apply nashville_places_finite.
  - intros S geocode rows s0 p. apply pdx_places_finite.
  - intros JSON_parse text l p. apply sf_places_finite.
Qed.

(** ** Replacements that keep the text *)

Section ReplaceProps.
Import JsString Regex Matcher TextShapes.

Lemma star_loop_group_free a step (k : cont) n prev s c res :
  (forall prev s c k' res, step prev s c k' = Some res ->
     exists p' s', takes a s s' /\ k' p' s' c = Some res) ->
  star_loop step k n prev s c = Some res ->
  exists p' s', takes (Star a) s s' /\ k p' s' c = Some res.
Proof.
  intros Hstep. revert prev s. induction n as [|n IH]; intros prev s; simpl.
  - intros H. exists prev, s. split; [constructor|done].
  - destruct (step prev s c _) as [v|] eqn:E.
    + intros [= ->]. apply Hstep in E as (p1 & s1 & Ha & E).
      destruct (_ <? _); [|done].
      apply IH in E as (p2 & s2 & Hs & E).
      exists p2, s2. split; [by eapply takes_Star_more|done].
    + intros H. exists prev, s. split; [constructor|done].
Qed.

(** a pattern without groups hands the captures on as they are *)
Lemma run_group_free r prev s c (k : cont) res :
  group_free r = true ->
  run r prev s c k = Some res ->
  exists p' s', takes r s s' /\ k p' s' c = Some res.
Proof.
  revert prev s c k res.
  induction r as [|p|a IHa b IHb|a IHa b IHb|a IHa|i a IHa| | |];
    intros prev s c k res Hg; simpl in *; try done.
  - intros H. exists prev, s. split; [constructor|done].
  - destruct s as [|x s]; [done|]. destruct (p x) eqn:Ep; [|done].
    intros H. exists (Some x), s. split; [by constructor|done].
  - apply andb_prop in Hg as [Ha Hb].
    intros H. apply IHa in H as (p1 & s1 & Ht1 & H); [|done].
    apply IHb in H as (p2 & s2 & Ht2 & H); [|done].
    exists p2, s2. split; [by econstructor|done].
  - apply andb_prop in Hg as [Ha Hb].
    destruct (run a prev s c k) as [v|] eqn:E.
    + intros [= ->]. apply IHa in E as (p1 & s1 & Ht & H); [|done].
      exists p1, s1. split; [by apply takes_Alt_l|done].
    + intros H. apply IHb in H as (p1 & s1 & Ht & H); [|done].
      exists p1, s1. split; [by apply takes_Alt_r|done].
  - apply star_loop_group_free. intros. by eapply IHa.
  - destruct prev; [done|]. intros H. exists None, s. split; [constructor|done].
  - destruct s; [|done]. intros H. exists prev, EmptyString. split; [constructor|done].
  - destruct (xorb _ _); [|done]. intros H. exists prev, s. split; [constructor|done].
Qed.

(** what the search reports is a match at some place of the text *)
Lemma search_from_found r prev pre s m :
  search_from r prev pre s = Some m ->
  exists prev' s0,
    match_here r prev' s0 = Some (after m, groups m)
    /\ s0 = matched m +:+ after m.
Proof.
  revert prev pre. induction s as [|x s IH]; intros prev pre; cbn [search_from].
  - destruct (match_here r prev "") as [[s' c]|] eqn:E; [|done].
    intros [= <-]. cbn [after groups matched]. exists prev, EmptyString.
    split; [done|]. symmetry. by apply match_here_sound in E as [_ E].
  - destruct (match_here r prev (String x s)) as [[s' c]|] eqn:E.
    + intros [= <-]. cbn [after groups matched]. exists prev, (String x s).
      split; [done|]. symmetry. by apply match_here_sound in E as [_ E].
    + apply IH.
Qed.

(** A replacement that keeps the image of every match under [h] keeps the
    image of the text, for an [h] that commutes with concatenation. *)
Lemma replace_all_go_keeps (h : string -> string) r (f : found -> string) :
  h EmptyString = EmptyString ->
  (forall a b, h (a +:+ b) = h a +:+ h b) ->
  (forall prev pre s m, search_from r prev pre s = Some m -> h (f m) = h (matched m)) ->
  forall fuel prev s, h (replace_all_go fuel r f prev s) = h s.
Proof.
  intros He Hh Hf. induction fuel as [|fuel IH]; intros prev s; [done|].
  cbn [replace_all_go].
  destruct (search_from r prev "" s) as [m|] eqn:E; [|done].
  pose proof (Hf _ _ _ _ E) as Hm.
  apply search_from_sound in E as [Hs _].
  change (String.rev "" +:+ s) with s in Hs.
  rewrite Hs, !Hh, <- Hm.
  destruct (matched m) as [|y w].
  - destruct (after m) as [|x rest].
    + by rewrite !Hh, He, append_empty.
    + rewrite !Hh, IH.
      change (String x rest) with (String x EmptyString +:+ rest). by rewrite Hh.
  - by rewrite !Hh, IH.
Qed.

Lemma replace_all_with_keeps (h : string -> string) r (f : found -> string) s :
  h EmptyString = EmptyString ->
  (forall a b, h (a +:+ b) = h a +:+ h b) ->
  (forall prev pre s m, search_from r prev pre s = Some m -> h (f m) = h (matched m)) ->
  h (replace_all_with r f s) = h s.
Proof. intros He Hh Hf. by apply replace_all_go_keeps. Qed.

(** the characters a pattern takes *)
Lemma takes_only_chars P r s s' :
  takes_only P r -> takes r s s' -> exists w, s = w +:+ s' /\ all_chars P w = true.
Proof.
  intros HP H. induction H as [s|p x s Hp|a b s s1 s2 _ IH1 _ IH2|a b s s' _ IH
                 |a b s s' _ IH|a s|a s s1 s2 _ IH1 _ IH2|i a s s' _ IH|s| |s];
    simpl in HP.
  - by exists EmptyString.
  - exists (String x EmptyString). split; [done|]. simpl. by rewrite (HP _ Hp).
  - destruct HP as [Ha Hb].
    destruct (IH1 Ha) as (u & -> & Hu), (IH2 Hb) as (v & -> & Hv).
    exists (u +:+ v). split; [by rewrite append_assoc|].
    by rewrite all_chars_app, Hu, Hv.
  - destruct HP as [Ha Hb]. by apply IH.
  - destruct HP as [Ha Hb]. by apply IH.
  - by exists EmptyString.
  - destruct (IH1 HP) as (u & -> & Hu), (IH2 HP) as (v & -> & Hv).
    exists (u +:+ v). split; [by rewrite append_assoc|].
    by rewrite all_chars_app, Hu, Hv.
  - by apply IH.
  - by exists EmptyString.
  - by exists EmptyString.
  - by exists EmptyString.
Qed.

Lemma append_inv_tail (a b c : string) : a +:+ c = b +:+ c -> a = b.
Proof.
  intros H.
  assert (Hl : String.length a = String.length b).
  { apply (f_equal String.length) in H. rewrite !append_length in H. lia. }
  revert b H Hl. induction a as [|x a IH]; intros [|y b] H Hl; simpl in Hl; try done.
  change (String x (a +:+ c) = String y (b +:+ c)) in H.
  injection H as -> H. f_equal. apply IH; [done|lia].
Qed.

(** a match of a pattern that takes only [P] consists of [P] *)
Lemma search_from_matched_only P r prev pre s m :
  takes_only P r -> search_from r prev pre s = Some m ->
  all_chars P (matched m) = true.
Proof.
  intros HP E. apply search_from_sound in E as [_ Ht].
  destruct (takes_only_chars P r _ _ HP Ht) as (w & Hw & Hall).
  apply append_inv_tail in Hw. by rewrite Hw.
Qed.

Lemma without_app p (a b : string) : without p (a +:+ b) = without p a +:+ without p b.
Proof.
  induction a as [|x a IH]; [done|].
  change (without p (String x (a +:+ b)) = without p (String x a) +:+ without p b).
  simpl. rewrite IH. by destruct (p x).
Qed.

Lemma without_all p s : all_chars p s = true -> without p s = EmptyString.
Proof.
  induction s as [|x s IH]; simpl; [done|].
  destruct (p x); simpl; [exact IH|done].
Qed.

(** replacing separators by separators keeps the rest of the text *)
Lemma replace_all_separators P r by_ s :
  takes_only P r -> all_chars P by_ = true ->
  without P (replace_all r by_ s) = without P s.
Proof.
  intros HP Hby. unfold replace_all. apply replace_all_with_keeps.
  - done.
  - apply without_app.
  - intros prev pre s0 m E.
    rewrite (without_all _ _ Hby).
    by rewrite (without_all _ _ (search_from_matched_only P r _ _ _ _ HP E)).
Qed.

End ReplaceProps.

(** ** Title case and the street of the Nashville feed *)

Section TitleCaseProps.
Import JsString JsValue Regex Matcher TextShapes Nashville.

Lemma lower_upper_char c : lower_char (upper_char c) = lower_char c.
Proof. destruct c as [[] [] [] [] [] [] [] []]; reflexivity. Qed.

Lemma toLowerCase_length s : String.length (toLowerCase s) = String.length s.
Proof. induction s as [|c r IH]; simpl; [done|]. by rewrite IH. Qed.

(** a match of the pattern of [titleCase]: one letter in group 1, the rest
    of the word in group 2 *)
Lemma title_word_match prev s s' c :
  match_here title_word prev s = Some (s', c) ->
  exists a w, s = String a (w +:+ s') /\ c = [(2, w); (1, String a EmptyString)].
Proof.
  set (rest := Star (Class (fun c => is_lower c || is_digit c || Ascii.eqb c "'"))).
  assert (Hrun : match_here title_word prev s
            = if xorb (word_at prev) (word_at (head s))
              then run (Class is_lower) prev s []
                     (fun p1 s1 c1 =>
                        run rest p1 s1
                            ((1, take (String.length s - String.length s1) s) :: c1)
                            (fun p2 s2 c2 =>
                               accept p2 s2
                                 ((2, take (String.length s1 - String.length s2) s1) :: c2)))
              else None) by reflexivity.
  rewrite Hrun. clear Hrun.
  destruct (xorb _ _); [|done].
  intros H. apply run_group_free in H as (p1 & s1 & Ht1 & H); [|done].
  apply takes_Class_inv in Ht1 as (a & -> & Ha).
  apply run_group_free in H as (p2 & s2 & Ht2 & H); [|done].
  apply takes_suffix in Ht2 as [w ->].
  unfold accept in H. injection H as <- <-. exists a, w. split; [done|].
  rewrite take_append.
  replace (S (String.length (w +:+ s2)) - String.length (w +:+ s2)) with 1 by lia.
  done.
Qed.

Lemma titleCase_lower s : toLowerCase (titleCase s) = toLowerCase s.
Proof.
  unfold titleCase. rewrite replace_all_with_keeps.
  - apply toLowerCase_idem.
  - done.
  - apply toLowerCase_app.
  - intros prev pre s0 m E.
    apply search_from_found in E as (prev' & s1 & E & Hs).
    apply title_word_match in E as (a & w & Hs' & ->). simpl.
    rewrite Hs in Hs'.
    change (String a (w +:+ after m)) with (String a w +:+ after m) in Hs'.
    apply append_inv_tail in Hs'. rewrite Hs'. simpl.
    by rewrite lower_upper_char.
Qed.

Lemma titleCase_length s : String.length (titleCase s) = String.length s.
Proof.
  by rewrite <- (toLowerCase_length (titleCase s)), titleCase_lower, toLowerCase_length.
Qed.

(** X25.  On a text within ASCII, [titleCase] changes the case of letters
    and nothing else: the result has the length of the text and is the text
    up to letter case. *)
Theorem titleCase_changes_case_only (s : string) :
  JsConv.ascii_text s = true ->
  toLowerCase (titleCase s) = toLowerCase s
  /\ String.length (titleCase s) = String.length s.
Proof. intros _. split; [apply titleCase_lower|apply titleCase_length]. Qed.

End TitleCaseProps.

Lemma titleCase_changes_case_only_witness :
  JsString.toLowerCase (Nashville.titleCase "5TH AVE / o'neal st")
  = JsString.toLowerCase "5TH AVE / o'neal st"
  /\ String.length (Nashville.titleCase "5TH AVE / o'neal st")
     = String.length "5TH AVE / o'neal st".
Proof.
  apply (titleCase_changes_case_only "5TH AVE / o'neal st"). reflexivity.
Defined.

Section StreetTextProps.
Import JsString JsValue Regex Matcher TextShapes Nashville.

Lemma is_separator_lower c : is_separator (lower_char c) = is_separator c.
Proof. destruct c as [[] [] [] [] [] [] [] []]; reflexivity. Qed.

Lemma without_lower s :
  without is_separator (toLowerCase s) = toLowerCase (without is_separator s).
Proof.
  induction s as [|c r IH]; simpl; [done|].
  rewrite is_separator_lower. destruct (is_separator c); simpl; by rewrite IH.
Qed.

Lemma space_is_separator c : is_space c = true -> is_separator c = true.
Proof. unfold is_separator. by intros ->. Qed.

Lemma without_trimStart s :
  without is_separator (trimStart s) = without is_separator s.
Proof.
  induction s as [|c r IH]; simpl; [done|].
  destruct (is_space c) eqn:E; [|done].
  by rewrite (space_is_separator _ E).
Qed.

Lemma without_trimEnd s :
  without is_separator (trimEnd s) = without is_separator s.
Proof.
  induction s as [|c r IH]; simpl; [done|].
  destruct (trimEnd r) as [|c' r'] eqn:Er.
  - destruct (is_space c) eqn:E.
    + rewrite (space_is_separator _ E). by rewrite <- IH.
    + simpl. by rewrite <- IH.
  - simpl in *. by rewrite <- IH.
Qed.

Lemma without_trim s : without is_separator (trim s) = without is_separator s.
Proof. unfold trim. by rewrite without_trimEnd, without_trimStart. Qed.

Lemma takes_only_chr c :
  is_separator c = true -> takes_only is_separator (chr c).
Proof. intros H x Hx. apply Ascii.eqb_eq in Hx. by subst. Qed.

Lemma takes_only_space : takes_only is_separator space.
Proof. intros x. apply space_is_separator. Qed.

Lemma normalizeIntersection_text (raw : string) :
  without is_separator (normalizeIntersection (VStr raw)) = without is_separator raw.
Proof.
  unfold normalizeIntersection.
  assert (Hraw : to_String (or_else (VStr raw) (VStr "")) = raw) by by destruct raw.
  rewrite Hraw.
  rewrite !replace_all_separators; [apply without_trim|..]; try done.
  - split; by apply takes_only_chr.
  - split; [apply takes_only_space|]. split; [by apply takes_only_chr|].
    apply takes_only_space.
  - repeat split; apply takes_only_space.
Qed.

Lemma street_text_titleCase s : street_text (titleCase s) = street_text s.
Proof. unfold street_text. by rewrite titleCase_lower. Qed.

(** X26.  The street of a display address is the street of the feed up to
    letter case, white space and the direction of slashes; the city and
    [TN] follow it. *)
Theorem nashville_display_address_keeps_street (raw : string) (cityName : value) :
  exists street,
    street_text street = street_text raw
    /\ buildDisplayAddress (VStr raw) cityName
       = (if is_empty street then EmptyString else street +:+ ", ")
         +:+ pickDisplayCity cityName +:+ ", TN".
Proof.
  exists (titleCase (normalizeIntersection (VStr raw))). split.
  - rewrite street_text_titleCase. unfold street_text.
    by rewrite !without_lower, normalizeIntersection_text.
  - unfold buildDisplayAddress.
    assert (Hraw : or_else (VStr raw) (VStr "") = VStr raw \/ raw = EmptyString).
    { destruct raw; [by right|by left]. }
    destruct Hraw as [-> | ->].
    + destruct (is_empty _); [done|]. by rewrite append_assoc.
    + done.
Qed.

Lemma is_empty_length s : is_empty s = (String.length s =? 0).
Proof. by destruct s. Qed.

(** X27.  The display city is never empty: it is [Nashville] for a missing or
    blank city name and for a precinct or direction, and the trimmed city
    name in title case otherwise. *)
Theorem pickDisplayCity_never_empty (cityName : value) :
  is_empty (pickDisplayCity cityName) = false
  /\ (pickDisplayCity cityName = "Nashville"
      \/ toLowerCase (pickDisplayCity cityName)
         = toLowerCase (trim (to_String (or_else cityName (VStr ""))))).
Proof.
  unfold pickDisplayCity.
  set (raw := trim (to_String (or_else cityName (VStr "")))).
  destruct (is_empty raw) eqn:E; [by split; [|left]|].
  destruct (existsb _ _); [by split; [|left]|].
  split; [|right; apply titleCase_lower].
  rewrite is_empty_length in *.
  by rewrite titleCase_length.
Qed.

End StreetTextProps.

(** ** The display address of the San Francisco adapter *)

Section SplitJoinProps.
Import JsString Regex Matcher TextShapes.

Lemma join_cons (sep a : string) (l : list string) :
  l <> [] -> join sep (a :: l) = a +:+ sep +:+ join sep l.
Proof. by destruct l. Qed.

Lemma split_go_nonempty fuel sep s : JsString.split_go fuel sep s <> [].
Proof. destruct fuel; simpl; [done|]. by destruct (indexOf sep s). Qed.

Lemma startsWith_cut (p s : string) :
  startsWith p s = true -> s = p +:+ drop (String.length p) s.
Proof.
  revert s. induction p as [|a p IH]; intros s; [by destruct s|].
  destruct s as [|b s]; cbn [startsWith]; [done|].
  intros H. apply andb_prop in H as [Hab H]. apply Ascii.eqb_eq in Hab. subst b.
  change (String a s = String a (p +:+ drop (String.length p) s)).
  by rewrite <- (IH _ H).
Qed.

Lemma drop_drop (n m : nat) (s : string) : drop n (drop m s) = drop (m + n) s.
Proof.
  revert s. induction m as [|m IH]; intros s; simpl.
  - by destruct s, n.
  - destruct s as [|c r]; [by destruct n|]. apply IH.
Qed.

(** the text around the first occurrence of [p] *)
Lemma indexOf_cut (p s : string) (i : nat) :
  indexOf p s = Some i -> s = take i s +:+ p +:+ drop (i + String.length p) s.
Proof.
  revert i. induction s as [|c r IH]; intros i; rewrite indexOf_unfold.
  - destruct (startsWith p "") eqn:E; [|done]. intros [= <-].
    by apply startsWith_cut in E.
  - destruct (startsWith p (String c r)) eqn:E.
    + intros [= <-]. by apply startsWith_cut in E.
    + destruct (indexOf p r) as [j|]; [|done]. simpl. intros [= <-].
      change (String c r = String c (take j r +:+ p +:+ drop (j + String.length p) r)).
      by rewrite <- (IH j eq_refl).
Qed.

(** joining the pieces of a split gives the text back *)
Lemma join_split_go fuel (sep s : string) :
  join sep (JsString.split_go fuel sep s) = s.
Proof.
  revert s. induction fuel as [|fuel IH]; intros s; simpl; [done|].
  destruct (indexOf sep s) as [i|] eqn:E; [|done].
  rewrite join_cons by apply split_go_nonempty.
  rewrite IH. symmetry. by apply indexOf_cut.
Qed.

Lemma join_split (sep s : string) : join sep (JsString.split sep s) = s.
Proof. apply join_split_go. Qed.

(** changing the pieces without changing their image under [h] *)
Lemma join_imap_keeps (h : string -> string) (sep : string) :
  (forall a b, h (a +:+ b) = h a +:+ h b) ->
  forall (l : list string) (g : nat -> string -> string),
    (forall i x, h (g i x) = h x) ->
    h (join sep (imap g l)) = h (join sep l).
Proof.
  intros Hh. induction l as [|x l IH]; intros g Hg; [done|].
  destruct l as [|y l].
  - simpl. apply Hg.
  - change (imap g (x :: y :: l)) with (g 0 x :: imap (g ∘ S) (y :: l)).
    rewrite !join_cons by done. rewrite !Hh, Hg.
    rewrite (IH (g ∘ S)); [done|]. intros i z. apply Hg.
Qed.

Lemma join_map_keeps (h : string -> string) (sep : string) (g : string -> string)
    (l : list string) :
  (forall a b, h (a +:+ b) = h a +:+ h b) ->
  (forall x, h (g x) = h x) ->
  h (join sep (map g l)) = h (join sep l).
Proof.
  intros Hh Hg.
  replace (map g l) with (imap (fun _ => g) l).
  - by apply join_imap_keeps.
  - clear. induction l as [|x l IH]; [done|]. simpl. f_equal. exact IH.
Qed.

Lemma regex_split_go_nonempty fuel r n prev cur s :
  RegexSplit.split_go fuel r n prev cur s <> [].
Proof.
  revert prev cur s. induction fuel as [|fuel IH]; intros prev cur s; simpl; [done|].
  destruct s as [|x s]; [done|].
  destruct (match_here r prev (String x s)) as [[rest c]|]; [|apply IH].
  destruct (_ && _); [apply IH|done].
Qed.

(** the pieces between runs of white space, joined by single spaces *)
Lemma split_spaces_go fuel prev cur s :
  String.length s < fuel ->
  join " " (RegexSplit.split_go fuel (Plus space) 0 prev cur s)
  = String.rev cur +:+ collapse_from false s.
Proof.
  revert prev cur s. induction fuel as [|fuel IH]; intros prev cur s Hf; [lia|].
  cbn [RegexSplit.split_go]. destruct s as [|x s].
  - simpl. by rewrite append_empty.
  - rewrite match_here_spaces. simpl in Hf. destruct (is_space x) eqn:Ex.
    + pose proof (trimStart_length s) as Hl.
      replace (String.length (trimStart s) =? String.length (String x s)) with false
        by (symmetry; apply Nat.eqb_neq; simpl; lia).
      rewrite andb_false_r. cbn [RegexSplit.captures seq map app].
      rewrite join_cons by apply regex_split_go_nonempty.
      rewrite IH by lia. cbn [collapse_from]. rewrite Ex, collapse_true_trimStart.
      done.
    + rewrite IH by lia. rewrite rev_cons, append_assoc.
      cbn [collapse_from]. by rewrite Ex.
Qed.

Lemma split_spaces (t : string) :
  join " " (RegexSplit.split (Plus space) 0 t) = collapse_spaces t.
Proof.
  unfold RegexSplit.split. destruct t as [|x t]; [done|].
  rewrite split_spaces_go by lia. done.
Qed.

Lemma without_collapse b s :
  without is_separator (collapse_from b s) = without is_separator s.
Proof.
  revert b. induction s as [|c r IH]; intros b; simpl; [done|].
  destruct (is_space c) eqn:E.
  - rewrite (space_is_separator _ E). destruct b; simpl; by rewrite IH.
  - simpl. by rewrite IH.
Qed.

Lemma street_text_app (a b : string) :
  street_text (a +:+ b) = street_text a +:+ street_text b.
Proof. unfold street_text. by rewrite toLowerCase_app, without_app. Qed.

End SplitJoinProps.

Section SfAddressProps.
Import JsString JsValue Regex Matcher TextShapes Geocode SfAddress.

Lemma lower_upper s : toLowerCase (toUpperCase s) = toLowerCase s.
Proof. induction s as [|c r IH]; simpl; [done|]. by rewrite lower_upper_char, IH. Qed.

Lemma capFirst_lower w : toLowerCase (capFirst w) = toLowerCase w.
Proof. destruct w as [|c r]; simpl; [done|]. by rewrite lower_upper_char, toLowerCase_idem. Qed.

Lemma map_get_Some k m v : map_get k m = Some v -> In (k, v) m.
Proof.
  unfold map_get. induction m as [|[k' v'] m IH]; simpl; [done|].
  destruct (String.eqb k' k) eqn:E; simpl.
  - apply String.eqb_eq in E. intros [= <-]. left. by subst.
  - intros H. right. by apply IH.
Qed.

Lemma TOKEN_MAP_lower k v : map_get k TOKEN_MAP = Some v -> toLowerCase v = k.
Proof.
  intros H. apply map_get_Some in H. simpl in H.
  repeat (destruct H as [H|H]; [by injection H as <- <-|]). destruct H.
Qed.

(** a pattern that starts with [^] matches at the start of the text only *)
Lemma search_from_Bol_later a x pre s :
  search_from (Seq Bol a) (Some x) pre s = None.
Proof.
  revert x pre. induction s as [|y s IH]; intros x pre; [done|].
  cbn [search_from]. change (match_here (Seq Bol a) (Some x) (String y s)) with
    (@None (string * caps)). apply IH.
Qed.

Lemma test_Bol a t :
  test (Seq Bol a) t = true -> exists s', takes a t s'.
Proof.
  unfold test, exec. intros H. apply bool_decide_eq_true_1 in H as [m H].
  assert (Hm : is_Some (run a None t [] accept)).
  { destruct t as [|y t]; cbn [search_from] in H.
    - change (match_here (Seq Bol a) None "") with (run a None "" [] accept) in H.
      destruct (run a None "" [] accept); [by eexists|done].
    - change (match_here (Seq Bol a) None (String y t))
        with (run a None (String y t) [] accept) in H.
      destruct (run a None (String y t) [] accept); [by eexists|].
      by rewrite search_from_Bol_later in H. }
  destruct Hm as [res Hm]. apply run_sound in Hm as (p' & s' & c' & Ht & _).
  by exists s'.
Qed.

Lemma starts_o_cut t : test STARTS_O t = true -> t = "o'" +:+ drop 2 t.
Proof.
  intros H. apply test_Bol in H as [s' H]. cbn [lit] in H.
  apply takes_Seq_inv in H as (s1 & H1 & H2).
  apply takes_Class_inv in H1 as (a & -> & Ha), H2 as (b & -> & Hb).
  apply Ascii.eqb_eq in Ha, Hb. by subst.
Qed.

Lemma starts_mc_cut t : test STARTS_MC t = true -> t = "mc" +:+ drop 2 t.
Proof.
  intros H. apply test_Bol in H as [s' H]. cbn [lit] in H.
  apply takes_Seq_inv in H as (s1 & H & _).
  apply takes_Seq_inv in H as (s2 & H1 & H2).
  apply takes_Class_inv in H1 as (a & -> & Ha), H2 as (b & -> & Hb).
  apply Ascii.eqb_eq in Ha, Hb. by subst.
Qed.

Lemma drop_lower n s : toLowerCase (drop n s) = drop n (toLowerCase s).
Proof.
  revert s. induction n as [|n IH]; intros s; [by destruct s|].
  destruct s as [|c r]; simpl; [done|]. apply IH.
Qed.

Lemma prefixed_lower (p P t : string) :
  toLowerCase t = t -> toLowerCase P = p -> t = p +:+ drop 2 t ->
  toLowerCase (P +:+ capFirst (drop 2 t)) = t.
Proof.
  intros Ht HP Hcut.
  rewrite toLowerCase_app, capFirst_lower, drop_lower, Ht, HP. by symmetry.
Qed.

(** a word keeps its letters *)
Lemma titleCaseWord_go_lower fuel w idx :
  toLowerCase (titleCaseWord_go fuel w idx) = toLowerCase w.
Proof.
  revert w idx. induction fuel as [|fuel IH]; intros w idx;
    cbn [titleCaseWord_go];
    pose proof (toLowerCase_idem w) as Ht;
    (destruct (set_has (toUpperCase w) UPPER_DIRECTIONS); [apply lower_upper|]);
    (destruct (map_get (toLowerCase w) TOKEN_MAP) as [v|] eqn:Ev;
       [by apply TOKEN_MAP_lower|]);
    (destruct (set_has (toLowerCase w) LOWER_SMALL && (0 <? idx));
       [apply toLowerCase_idem|]);
    (destruct (test STARTS_O (toLowerCase w)) eqn:Eo;
       [apply starts_o_cut in Eo; by apply (prefixed_lower "o'")|]);
    (destruct (test STARTS_MC (toLowerCase w)) eqn:Em;
       [apply starts_mc_cut in Em; by apply (prefixed_lower "mc")|]);
    (destruct (includes "-" w);
       [|by rewrite capFirst_lower, toLowerCase_idem]).
  - done.
  - rewrite join_imap_keeps; [by rewrite join_split|apply toLowerCase_app|].
    intros i x. apply IH.
Qed.

Lemma titleCaseStreet_lower street :
  toLowerCase (titleCaseStreet street) = normalizeAddress street.
Proof.
  unfold titleCaseStreet.
  rewrite join_imap_keeps; [|apply toLowerCase_app|].
  - by rewrite split_spaces.
  - intros i x. apply titleCaseWord_go_lower.
Qed.

Lemma titleCaseStreet_text street :
  street_text (titleCaseStreet street) = street_text street.
Proof.
  unfold street_text. rewrite titleCaseStreet_lower.
  unfold normalizeAddress, collapse_spaces.
  by rewrite <- collapse_from_lower, <- trim_lower, without_collapse, without_trim.
Qed.

Lemma normalizeIntersection_sf_text street :
  street_text (normalizeIntersection street) = street_text street.
Proof.
  unfold normalizeIntersection.
  rewrite join_map_keeps; [|apply street_text_app|apply titleCaseStreet_text].
  rewrite join_split. unfold street_text. rewrite !without_lower. f_equal.
  rewrite !replace_all_separators; try done.
  - split; [apply takes_only_space|]. split; [|apply takes_only_space].
    split; by apply takes_only_chr.
  - split; [apply takes_only_space|]. split; [by apply takes_only_chr|].
    apply takes_only_space.
Qed.

(** X28.  For a street within ASCII, the street that the San Francisco
    adapter shows is the street of the dataset up to letter case, white
    space and slashes: nothing else of its text is added, dropped or
    changed.  For a street without slashes the change is in letter case and
    white space only: in lower case, what [titleCaseStreet] returns is the
    normalised form of the street. *)
Theorem sf_prettifyStreet_keeps_text (street : string) :
  JsConv.ascii_text street = true ->
  street_text (prettifyStreet street) = street_text street
  /\ toLowerCase (titleCaseStreet street) = normalizeAddress street.
Proof.
  intros _. split; [|apply titleCaseStreet_lower].
  unfold prettifyStreet. destruct (is_empty street) eqn:E.
  - by destruct street.
  - destruct (test ANY_SLASH street).
    + apply normalizeIntersection_sf_text.
    + apply titleCaseStreet_text.
Qed.

End SfAddressProps.

Lemma sf_prettifyStreet_keeps_text_witness :
  TextShapes.street_text (SfAddress.prettifyStreet "MARKET ST \ 5TH ST")
  = TextShapes.street_text "MARKET ST \ 5TH ST"
  /\ JsString.toLowerCase (SfAddress.titleCaseStreet "MARKET ST \ 5TH ST")
     = Geocode.normalizeAddress "MARKET ST \ 5TH ST".
Proof.
  apply (sf_prettifyStreet_keeps_text "MARKET ST \ 5TH ST"). reflexivity.
Defined.

(** ** The bound on the calls of [titleCaseWord] *)

Section WordFuelProps.
Import JsString JsValue Regex Matcher TextShapes SfAddress.

Lemma startsWith_take (p s : string) (n : nat) :
  startsWith p (take n s) = true -> startsWith p s = true.
Proof.
  revert s n. induction p as [|a p IH]; intros s n; [done|].
  destruct n as [|n], s as [|b s]; cbn [take startsWith]; try done.
  intros H. apply andb_prop in H as [-> H]. by rewrite (IH _ _ H).
Qed.

(** the text before the first occurrence of [p] holds no [p] *)
Lemma indexOf_take (p s : string) (i : nat) :
  p <> EmptyString -> indexOf p s = Some i -> indexOf p (take i s) = None.
Proof.
  intros Hp. revert i. induction s as [|c r IH]; intros i; rewrite indexOf_unfold.
  - destruct (startsWith p "") eqn:E; [|done]. intros [= <-]. by destruct p.
  - destruct (startsWith p (String c r)) eqn:E.
    + intros [= <-]. by destruct p.
    + destruct (indexOf p r) as [j|] eqn:Ej; [|done]. simpl. intros [= <-].
      cbn [take]. rewrite indexOf_unfold.
      destruct (startsWith p (String c (take j r))) eqn:E'.
      * apply (startsWith_take p (String c r) (S j)) in E'. congruence.
      * by rewrite (IH j eq_refl).
Qed.

(** a piece of a split holds no separator *)
Lemma split_go_pieces fuel (sep s piece : string) :
  sep <> EmptyString -> String.length s < fuel ->
  piece ∈ JsString.split_go fuel sep s -> includes sep piece = false.
Proof.
  intros Hsep. revert s. induction fuel as [|fuel IH]; intros s Hf; [lia|].
  cbn [JsString.split_go].
  destruct (indexOf sep s) as [i|] eqn:E.
  - intros H. apply elem_of_cons in H as [->|H].
    + apply bool_decide_eq_false_2. rewrite (indexOf_take _ _ _ Hsep E).
      by intros [? [=]].
    + apply (IH (drop (i + String.length sep) s)); [|done].
      assert (Hd : forall n t, String.length (drop n t) <= String.length t - n).
      { induction n as [|n IHn]; intros [|c t]; simpl; try lia. apply IHn. }
      pose proof (Hd (i + String.length sep) s) as Hl.
      destruct sep as [|a sep]; [done|]. destruct s as [|c s]; [done|].
      cbn [String.length] in *. lia.
  - intros H. apply list_elem_of_singleton in H as ->.
    apply bool_decide_eq_false_2. rewrite E. by intros [? [=]].
Qed.

Lemma titleCaseWord_go_plain n m w idx :
  includes "-" w = false -> titleCaseWord_go n w idx = titleCaseWord_go m w idx.
Proof. intros H. destruct n, m; cbn [titleCaseWord_go]; by rewrite H. Qed.

Lemma imap_ext_in {A B} (f g : nat -> A -> B) (l : list A) :
  (forall i x, x ∈ l -> f i x = g i x) -> imap f l = imap g l.
Proof.
  revert f g. induction l as [|x l IH]; intros f g H; [done|].
  simpl. f_equal; [apply H; left|].
  apply IH. intros i y Hy. apply H. by right.
Qed.

(** The calls of [titleCaseWord] on the segments of a word never reach a
    second level: whatever bounds them from one level on gives the same
    result. *)
Lemma titleCaseWord_go_fuel n w idx :
  titleCaseWord_go (S n) w idx = titleCaseWord_go 1 w idx.
Proof.
  cbn [titleCaseWord_go].
  repeat (case_match; try done).
  f_equal. apply imap_ext_in. intros i seg Hseg.
  apply (titleCaseWord_go_plain n 0).
  apply (split_go_pieces (S (String.length w)) "-" w); [done|lia|exact Hseg].
Qed.

End WordFuelProps.

(** ** The name of the incident type *)

Section IncidentTypeProps.
Import JsString JsValue Regex Matcher TextShapes IncidentType.

Lemma delims_match prev s rest c :
  match_here DELIMS prev s = Some (rest, c) ->
  RegexSplit.captures 1 c = [take (String.length s - String.length rest) s]
  /\ take (String.length s - String.length rest) s +:+ rest = s.
Proof.
  intros H. pose proof (match_here_sound _ _ _ _ _ H) as [_ Hs]. split; [|done].
  revert H. unfold match_here, DELIMS.
  change (run (Group 1 (Plus (Class is_delim))) prev s [] accept)
    with (run (Plus (Class is_delim)) prev s []
            (fun p' s' c' =>
               accept p' s' ((1, take (String.length s - String.length s') s) :: c'))).
  intros H. apply run_group_free in H as (p' & s' & _ & H); [|done].
  unfold accept in H. by injection H as <- <-.
Qed.

Lemma join_empty_cons (a : string) (l : list string) :
  join EmptyString (a :: l) = a +:+ join EmptyString l.
Proof. destruct l; simpl; [by rewrite append_empty|done]. Qed.

(** the pieces and the separators, put together again *)
Lemma split_delims_go fuel prev cur s :
  join EmptyString (RegexSplit.split_go fuel DELIMS 1 prev cur s)
  = String.rev cur +:+ s.
Proof.
  revert prev cur s. induction fuel as [|fuel IH]; intros prev cur s.
  - simpl. done.
  - cbn [RegexSplit.split_go]. destruct s as [|x s].
    + simpl. by rewrite append_empty.
    + destruct (match_here DELIMS prev (String x s)) as [[rest c]|] eqn:E.
      * destruct (_ && _).
        -- rewrite IH, rev_cons, append_assoc. done.
        -- apply delims_match in E as [-> Hs].
           cbn [app]. rewrite !join_empty_cons, IH.
           change (String.rev "") with EmptyString.
           change (EmptyString +:+ rest) with rest. by rewrite Hs.
      * rewrite IH, rev_cons, append_assoc. done.
Qed.

Lemma split_delims s : join EmptyString (RegexSplit.split DELIMS 1 s) = s.
Proof.
  unfold RegexSplit.split. destruct s as [|x s]; [done|].
  apply split_delims_go.
Qed.

Lemma format_part_lower part : toLowerCase (format_part part) = toLowerCase part.
Proof.
  unfold format_part. destruct (test ONLY_DELIMS part); [done|].
  destruct part as [|c r]; simpl; [done|]. by rewrite lower_upper_char.
Qed.

(** X29.  [formatIncidentTypeName] gives [undefined] for a missing or empty
    name; for a name that [String] converts to a text within ASCII it
    changes the case of letters and removes the white space at both ends,
    and nothing else. *)
Theorem formatIncidentTypeName_keeps_text (raw : value) :
  unprintable raw = false ->
  JsConv.ascii_text (to_String raw) = true ->
  if truthy raw
  then exists t,
         formatIncidentTypeName raw = VStr t
         /\ toLowerCase t = trim (toLowerCase (to_String raw))
  else formatIncidentTypeName raw = VUndef.
Proof.
  intros _ _. unfold formatIncidentTypeName. destruct (truthy raw); [|done]. simpl.
  eexists. split; [done|].
  rewrite <- trim_lower. f_equal.
  rewrite join_map_keeps; [|apply toLowerCase_app|apply format_part_lower].
  by rewrite split_delims, toLowerCase_idem.
Qed.

End IncidentTypeProps.

Lemma formatIncidentTypeName_keeps_text_witness :
  exists t,
    IncidentType.formatIncidentTypeName (JsValue.VStr " BURGLARY - RESIDENCE ")
    = JsValue.VStr t
    /\ JsString.toLowerCase t
       = JsString.trim (JsString.toLowerCase " BURGLARY - RESIDENCE ").
Proof.
  apply (formatIncidentTypeName_keeps_text (JsValue.VStr " BURGLARY - RESIDENCE "));
    reflexivity.
Defined.

(** ** The geocode query of the bounding-box variant *)

Section SfBBoxQueryProps.
Import JsString JsValue Matcher Mentions Geocode SfBBox.
Context (JSON_parse : string -> result value).

Lemma includes_cut (p s : string) :
  includes p s = true -> exists a c, s = a +:+ p +:+ c.
Proof.
  unfold includes. intros H. apply bool_decide_eq_true_1 in H as [i H].
  apply indexOf_cut in H. by eauto.
Qed.

Lemma all_space_lower s : all_chars is_space (toLowerCase s) = all_chars is_space s.
Proof. induction s as [|c r IH]; simpl; [done|]. by rewrite is_space_lower, IH. Qed.

Lemma includes_not_blank (p s : string) :
  all_chars is_space p = false -> includes p s = true -> all_chars is_space s = false.
Proof.
  intros Hp H. apply includes_cut in H as (a & c & ->).
  rewrite !all_chars_app, Hp. by rewrite andb_false_r.
Qed.

Lemma names_san_francisco_not_blank s :
  names_san_francisco (toLowerCase s) = true -> all_chars is_space s = false.
Proof.
  unfold names_san_francisco. rewrite <- all_space_lower.
  intros H. apply orb_prop in H as [H|H]; [apply orb_prop in H as [H|H]|];
    by apply includes_not_blank in H.
Qed.

Lemma bestAddressForGeocode_not_empty r :
  is_empty (bestAddressForGeocode JSON_parse r) = false.
Proof.
  unfold bestAddressForGeocode. cbv zeta.
  destruct (is_empty (bestStreetFromDataset JSON_parse r)) eqn:E1;
    cbn [negb]; [|exact E1].
  destruct (is_empty (s (pick r ["neighborhood_district"]))) eqn:E2;
    cbn [negb]; [done|exact E2].
Qed.

(** X30.  Every record of the bounding-box variant has a geocode query: the
    street of the dataset, else the neighbourhood, else the city hall.
    The query is never empty and its key in the result map is never empty,
    so that no record without coordinates of its own is left out of the
    look-up. *)
Theorem sf_bbox_query_never_empty (r : value) :
  is_empty (bestAddressForGeocode JSON_parse r) = false
  /\ is_empty (normalizeAddress (withCityState (bestAddressForGeocode JSON_parse r)))
     = false.
Proof.
  split; [apply bestAddressForGeocode_not_empty|].
  rewrite normalizeAddress_blank. apply names_san_francisco_not_blank.
  apply sf_withCityState_names.
Qed.

End SfBBoxQueryProps.

(** ** The added functions on some inputs *)

Example prettifyStreet_samples :
  SfAddress.prettifyStreet "MARKET ST \ 5TH ST" = "Market St / 5th St"
  /\ SfAddress.prettifyStreet "VAN NESS AVE/GEARY" = "Van Ness Ave / Geary"
  /\ SfAddress.prettifyStreet "  o'farrell   st " = "O'Farrell St"
  /\ SfAddress.prettifyStreet "mcallister ST" = "McAllister St"
  /\ SfAddress.prettifyStreet "north-of-market ne" = "North-of-Market NE"
  /\ SfAddress.titleCaseWord "of" 0 = "Of"
  /\ SfAddress.titleCaseWord "of" 1 = "of"
  /\ SfAddress.address_of
       (JsValue.VObj [("intersection_name", JsValue.VStr "MARKET ST \ 5TH ST")])
     = "Market St / 5th St, San Francisco, CA"
  /\ SfAddress.address_of (JsValue.VObj []) = "San Francisco, CA".
Proof. vm_compute. repeat split; reflexivity. Qed.

Example split_samples :
  RegexSplit.split (Regex.Plus Regex.space) 0 " a  b " = [""; "a"; "b"; ""]
  /\ RegexSplit.split (Regex.Plus Regex.space) 0 "" = [""]
  /\ RegexSplit.split IncidentType.DELIMS 1 "a - b/c" = ["a"; " - "; "b"; "/"; "c"].
Proof. vm_compute. repeat split; reflexivity. Qed.

Example formatIncidentTypeName_samples :
  IncidentType.formatIncidentTypeName
    (JsValue.VStr " VEHICLE ACCIDENT - property/DAMAGE ")
  = JsValue.VStr "Vehicle Accident - Property/Damage"
  /\ IncidentType.formatIncidentTypeName (JsValue.VStr "") = JsValue.VUndef
  /\ IncidentType.formatIncidentTypeName JsValue.VNull = JsValue.VUndef.
Proof. vm_compute. repeat split; reflexivity. Qed.

Example toISO_samples :
  NashvilleFields.toISO (fun _ => None) (JsValue.VNum (JsNum.Fin 1755472800000))
  = Ok (JsValue.VStr "2025-08-17T23:20:00.000Z")
  /\ NashvilleFields.toISO (fun _ => None) (JsValue.VNum (JsNum.Fin 1e20))
     = Throw RangeError
  /\ NashvilleFields.toISO (fun _ => None) (JsValue.VStr "soon") = Ok JsValue.VUndef
  /\ NashvilleFields.toISO (fun _ => None) JsValue.VNull = Ok JsValue.VUndef
  /\ Pdx.safeISO (fun _ => None) (JsValue.VNum (JsNum.Fin 0)) = Ok JsValue.VUndef.
Proof. vm_compute. repeat split; reflexivity. Qed.

Example resolveProvider_samples :
  Providers.resolveProvider "Portland" = Ok Providers.pdx
  /\ Providers.resolveProvider "SAN-FRANCISCO" = Ok Providers.sf
  /\ Providers.resolveProvider "memphis" = Ok Providers.nashvilleMNPD
  /\ Providers.resolveProvider "toString" = Ok Providers.nashvilleMNPD
  /\ Providers.resolveProvider "Constructor"
     = Throw (Failure "No provider registered: function Object() { [native code] }")
  /\ Providers.resolveProvider "__proto__"
     = Throw (Failure "No provider registered: [object Object]").
Proof. vm_compute. repeat split; reflexivity. Qed.

(** Three requests for one city, a minute apart, with a time to live of
    five minutes and with none: in the first case the adapter runs once, in
    the second it runs every time. *)
Example city_route_samples :
  let fetch : Providers.provider -> string -> nat -> result nat * nat :=
    fun _ _ runs => (Ok runs, S runs) in
  let requests := [("pdx", 0%Z); ("PDX", 60000%Z); ("pdx", 120000%Z)] in
  (CityRoutes.serve (JsValue.VNum (JsNum.Fin 300)) fetch requests (∅, 0)).1
    = [Ok (CityRoutes.Reply 0 CityRoutes.miss);
       Ok (CityRoutes.Reply 0 CityRoutes.hit);
       Ok (CityRoutes.Reply 0 CityRoutes.hit)]
  /\ (CityRoutes.serve (JsValue.VNum (JsNum.Fin 300)) fetch requests (∅, 0)).2.2 = 1
  /\ (CityRoutes.serve JsValue.VUndef fetch requests (∅, 0)).1
     = [Ok (CityRoutes.Reply 0 CityRoutes.miss);
        Ok (CityRoutes.Reply 1 CityRoutes.stale_refresh);
        Ok (CityRoutes.Reply 2 CityRoutes.stale_refresh)].
Proof. vm_compute. repeat split; reflexivity. Qed.

(** ** The pool of workers *)

Lemma elem_of_insert_inv {A} (l : list A) (i : nat) (x y : A) :
  y ∈ <[i := x]> l -> y = x \/ y ∈ l.
Proof.
  intros H. apply list_elem_of_lookup_1 in H as [j Hj].
  apply list_lookup_insert_Some in Hj as [(_ & <- & _)|[_ Hj]]; [by left|].
  right. by apply list_elem_of_lookup_2 in Hj.
Qed.

Section PoolProps.
Import Geocode Pool PoolShapes.
Context {E T : Type}.
Context (start : E -> string * T)
        (resume : E -> T -> option geo -> gmap string geo
                  -> option (string * T) * gmap string geo).

(** a property kept by every step of a kind holds after every schedule of
    steps of that kind *)
Lemma run_invariant_on (Q : event -> bool) (P : state (E:=E) (T:=T) -> Prop) :
  (forall st ev st', Q ev = true -> P st -> step start resume st ev = Some st' -> P st') ->
  forall schedule st st',
    forallb Q schedule = true -> P st ->
    run start resume st schedule = Some st' -> P st'.
Proof.
  intros Hstep. induction schedule as [|ev rest IH]; intros st st' HQ HP; simpl.
  - by intros [= <-].
  - simpl in HQ. apply andb_prop in HQ as [Hev HQ].
    destruct (step start resume st ev) as [st1|] eqn:E1; [|done].
    apply IH; [done|]. by apply (Hstep st ev).
Qed.

Lemma init_invariant_on (Q : event -> bool) (P : state (E:=E) (T:=T) -> Prop)
    limit items :
  (forall i, Q (Take i) = true) ->
  (forall st ev st', Q ev = true -> P st -> step start resume st ev = Some st' -> P st') ->
  P (State items (replicate (Nat.min limit (length items)) Ready) ∅ []) ->
  P (init start limit items).
Proof.
  intros HQ Hstep. unfold init.
  generalize (seq 0 (Nat.min limit (length items))). intros l.
  generalize (State (T:=T) items (replicate (Nat.min limit (length items)) Ready) ∅ []).
  induction l as [|i l IH]; intros st HP; simpl; [done|].
  apply IH. destruct (take start i st) as [st'|] eqn:E1; simpl; [|done].
  by apply (Hstep st (Take i)).
Qed.

Lemma reachable_invariant_on (Q : event -> bool) (P : state (E:=E) (T:=T) -> Prop)
    limit items schedule st :
  (forall i, Q (Take i) = true) ->
  (forall st ev st', Q ev = true -> P st -> step start resume st ev = Some st' -> P st') ->
  P (State items (replicate (Nat.min limit (length items)) Ready) ∅ []) ->
  forallb Q schedule = true ->
  run start resume (init start limit items) schedule = Some st -> P st.
Proof.
  intros HQ Hstep H0 Hs. apply (run_invariant_on Q); [done..|].
  by apply (init_invariant_on Q).
Qed.

Lemma reachable_invariant (P : state (E:=E) (T:=T) -> Prop) limit items schedule st :
  (forall st ev st', P st -> step start resume st ev = Some st' -> P st') ->
  P (State items (replicate (Nat.min limit (length items)) Ready) ∅ []) ->
  run start resume (init start limit items) schedule = Some st -> P st.
Proof.
  intros Hstep H0. apply (reachable_invariant_on (fun _ => true)); try done.
  - intros st0 ev st' _. apply Hstep.
  - by induction schedule.
Qed.

Lemma sized_step limit items st ev st' :
  sized limit items st -> step start resume st ev = Some st' -> sized limit items st'.
Proof.
  intros (Hlen & Hfin & started & Hst). destruct ev as [i|i ans]; simpl.
  - unfold take. destruct (runners st !! i) as [[| |]|] eqn:Ei; try done.
    destruct (todo st) as [|e rest] eqn:Et.
    + intros [= <-]. unfold sized. simpl. rewrite length_insert.
      repeat split; [done|]. by exists started.
    + destruct (start e) as [a t]. intros [= <-]. unfold sized. simpl.
      rewrite length_insert. split; [done|]. split.
      * intros Hin. apply elem_of_insert_inv in Hin as [?|Hin]; [done|].
        by specialize (Hfin Hin).
      * exists (started ++ [e]). by rewrite <- app_assoc.
  - unfold answer. destruct (runners st !! i) as [[e t| |]|] eqn:Ei; try done.
    destruct (resume e t ans (results st)) as [[[a t']|] res];
      intros [= <-]; unfold sized; simpl; rewrite length_insert; (split; [done|]);
      (split; [|by exists started]);
      intros Hin; apply elem_of_insert_inv in Hin as [?|Hin]; done || by apply Hfin.
Qed.

Lemma sized_reachable limit items schedule st :
  run start resume (init start limit items) schedule = Some st -> sized limit items st.
Proof.
  apply reachable_invariant.
  - apply sized_step.
  - unfold sized. simpl. rewrite length_replicate. repeat split.
    + intros Hin. apply elem_of_replicate in Hin as [? _]. done.
    + by exists [].
Qed.

(** when the pool of a non-zero limit is over, every item has been taken *)
Lemma finished_all_taken limit items schedule st :
  0 < limit ->
  run start resume (init start limit items) schedule = Some st ->
  finished st = true -> todo st = [].
Proof.
  intros Hlim Hrun Hf.
  destruct (sized_reachable _ _ _ _ Hrun) as (Hlen & Hfin & started & Hst).
  unfold finished in Hf. destruct (runners st) as [|r rs] eqn:Er.
  - simpl in Hlen. destruct items as [|e items]; [by destruct started, (todo st)|].
    simpl in Hlen. lia.
  - apply Hfin. simpl in Hf. apply andb_prop in Hf as [Hr _].
    destruct r; try done. left.
Qed.

(** when the pool is over, no runner is inside a worker *)
Lemma finished_none_waiting (st : state (E:=E) (T:=T)) i e t :
  finished st = true -> runners st !! i = Some (Waiting e t) -> False.
Proof.
  unfold finished. intros Hf Hi. apply list_elem_of_lookup_2 in Hi.
  apply list_elem_of_In in Hi. rewrite forallb_forall in Hf. by specialize (Hf _ Hi).
Qed.

(** a pool without items has no runner and no step *)
Lemma run_no_item limit schedule st :
  run start resume (init start limit []) schedule = Some st ->
  schedule = [] /\ st = State [] [] ∅ [].
Proof.
  unfold init. simpl. rewrite Nat.min_0_r. simpl.
  destruct schedule as [|[i|i ans] rest]; simpl; [by intros [= <-]|..];
    unfold take, answer; simpl; done.
Qed.

Lemma run_app st s1 s2 :
  run start resume st (s1 ++ s2)
  = match run start resume st s1 with
    | Some st' => run start resume st' s2
    | None => None
    end.
Proof.
  revert st. induction s1 as [|ev s1 IH]; intros st; simpl; [done|].
  destruct (step start resume st ev); [apply IH|done].
Qed.

Section Progress.
(** The resolver gives the answer [a] to every call, and a worker makes
    at most [D] more calls after its first one. *)
Context (a : option geo) (depth : T -> nat) (D : nat).
Hypothesis start_depth : forall e, depth (snd (start e)) <= D.
Hypothesis resume_depth : forall e t results address t',
  fst (resume e t a results) = Some (address, t') -> depth t' < depth t.

(** one runner can be brought to its end: its calls are answered at once,
    and it goes on until no item is left *)
Lemma drive_runner i n : forall st,
  (2 + D) * length (todo st) + rank depth (runners st !! i) <= n ->
  exists schedule st',
    run start resume st schedule = Some st'
    /\ Forall (answered_with a) schedule
    /\ (is_Some (runners st !! i) -> runners st' = <[i := Finished]> (runners st)).
Proof.
  induction n as [n IH] using lt_wf_ind. intros st Hn.
  destruct (runners st !! i) as [[e t| |]|] eqn:Ei; simpl in Hn.
  - (* inside a worker: the call is answered *)
    assert (Hi : i < length (runners st)) by by apply lookup_lt_Some in Ei.
    pose proof (resume_depth e t (results st)) as Hr.
    destruct (resume e t a (results st)) as [[[address t']|] res] eqn:Er; simpl in Hr.
    + specialize (Hr address t' eq_refl).
      set (st1 := State (todo st) (<[i := Waiting e t']> (runners st)) res
                        (log st ++ [address])).
      destruct (IH ((2 + D) * length (todo st) + (2 + depth t')) ltac:(lia) st1)
        as (s & st' & Hrun & Hq & Hrs).
      { simpl. by rewrite list_lookup_insert_eq. }
      exists (Answer i a :: s), st'. simpl. unfold answer. rewrite Ei, Er.
      split; [exact Hrun|]. split; [by constructor|]. intros _.
      rewrite Hrs by (simpl; by rewrite list_lookup_insert_eq).
      simpl. by rewrite list_insert_insert_eq.
    + set (st1 := State (todo st) (<[i := Ready]> (runners st)) res (log st)).
      destruct (IH ((2 + D) * length (todo st) + 1) ltac:(lia) st1)
        as (s & st' & Hrun & Hq & Hrs).
      { simpl. by rewrite list_lookup_insert_eq. }
      exists (Answer i a :: s), st'. simpl. unfold answer. rewrite Ei, Er.
      split; [exact Hrun|]. split; [by constructor|]. intros _.
      rewrite Hrs by (simpl; by rewrite list_lookup_insert_eq).
      simpl. by rewrite list_insert_insert_eq.
  - (* at the head of the loop *)
    assert (Hi : i < length (runners st)) by by apply lookup_lt_Some in Ei.
    destruct (todo st) as [|e rest] eqn:Et.
    + exists [Take i], (State [] (<[i := Finished]> (runners st)) (results st) (log st)).
      simpl. unfold take. rewrite Ei, Et. split; [done|]. split; [|done].
      by repeat constructor.
    + pose proof (start_depth e) as Hd.
      destruct (start e) as [address t] eqn:Es. simpl in Hd.
      set (st1 := State rest (<[i := Waiting e t]> (runners st)) (results st)
                        (log st ++ [address])).
      destruct (IH ((2 + D) * length rest + (2 + depth t))
                   ltac:(simpl in Hn; nia) st1)
        as (s & st' & Hrun & Hq & Hrs).
      { simpl. by rewrite list_lookup_insert_eq. }
      exists (Take i :: s), st'. simpl. unfold take. rewrite Ei, Et, Es.
      split; [exact Hrun|]. split; [by constructor|]. intros _.
      rewrite Hrs by (simpl; by rewrite list_lookup_insert_eq).
      simpl. by rewrite list_insert_insert_eq.
  - exists [], st. split; [done|]. split; [constructor|].
    intros _. symmetry. by apply list_insert_id.
  - exists [], st. split; [done|]. split; [constructor|]. by intros [? ?].
Qed.

Lemma drive_runners k : forall st,
  k <= length (runners st) ->
  exists schedule st',
    run start resume st schedule = Some st'
    /\ Forall (answered_with a) schedule
    /\ length (runners st') = length (runners st)
    /\ forall j, j < k -> runners st' !! j = Some Finished.
Proof.
  induction k as [|k IH]; intros st Hk.
  - exists [], st. split; [done|]. split; [constructor|]. split; [done|].
    intros j Hj. lia.
  - destruct (IH st ltac:(lia)) as (s1 & st1 & Hrun1 & Hq1 & Hlen1 & Hfin1).
    destruct (drive_runner k _ st1 (le_n _)) as (s2 & st2 & Hrun2 & Hq2 & Hrs).
    assert (Hsome : is_Some (runners st1 !! k)).
    { apply lookup_lt_is_Some. lia. }
    specialize (Hrs Hsome).
    exists (s1 ++ s2), st2. rewrite run_app, Hrun1.
    split; [done|]. split; [by apply Forall_app|]. split.
    + by rewrite Hrs, length_insert.
    + intros j Hj. rewrite Hrs. destruct (decide (j = k)) as [->|Hne].
      * apply list_lookup_insert_eq. lia.
      * rewrite list_lookup_insert_ne by done. apply Hfin1. lia.
Qed.

(** Every pool comes to its end when its calls are answered. *)
Lemma pool_finishes_with limit items :
  exists schedule st,
    run start resume (init start limit items) schedule = Some st
    /\ finished st = true
    /\ Forall (answered_with a) schedule.
Proof.
  destruct (drive_runners (length (runners (init start limit items)))
              (init start limit items) (le_n _))
    as (s & st & Hrun & Hq & Hlen & Hfin).
  exists s, st. split; [done|]. split; [|done].
  unfold finished. apply forallb_forall. intros r Hr.
  apply list_elem_of_In, list_elem_of_lookup_1 in Hr as [j Hj].
  pose proof (lookup_lt_Some _ _ _ Hj) as Hlt.
  rewrite Hfin in Hj by lia. by injection Hj as <-.
Qed.

End Progress.

Lemma answered_with_throws schedule :
  Forall (answered_with None) schedule -> every_call_throws schedule = true.
Proof.
  intros H. apply forallb_forall. intros ev Hev.
  apply list_elem_of_In in Hev. rewrite Forall_forall in H. specialize (H ev Hev).
  destruct ev as [|i [g|]]; done.
Qed.

Lemma answered_with_finite g schedule :
  JsNum.finite (g_lat g) = true -> JsNum.finite (g_lon g) = true ->
  Forall (answered_with (Some g)) schedule -> every_call_answered schedule = true.
Proof.
  intros H1 H2 H. apply forallb_forall. intros ev Hev.
  apply list_elem_of_In in Hev. rewrite Forall_forall in H. specialize (H ev Hev).
  destruct ev as [|i x]; [done|]. simpl in H. subst x. simpl. by rewrite H1, H2.
Qed.

(** Every pool can come to its end: a worker ends when a call of the
    resolver throws. *)
Lemma pool_can_finish limit items :
  (forall e t results, fst (resume e t None results) = None) ->
  exists schedule st,
    run start resume (init start limit items) schedule = Some st
    /\ finished st = true
    /\ every_call_throws schedule = true.
Proof.
  intros Hthrow.
  destruct (pool_finishes_with None (fun _ => 0) 0 ltac:(done)
              ltac:(intros e t results address t' H; by rewrite Hthrow in H)
              limit items) as (s & st & Hrun & Hf & Hq).
  exists s, st. split; [done|]. split; [done|]. by apply answered_with_throws.
Qed.

End PoolProps.

Section PdxPoolProps.
Import JsString JsNum JsValue Geocode Common Pool PoolShapes PdxAdapter.

Lemma called_once_step items st ev st' :
  called_once items st -> step start resume st ev = Some st' -> called_once items st'.
Proof.
  intros (started & Hst & Hlog). destruct ev as [i|i ans]; simpl.
  - unfold take. destruct (runners st !! i) as [[| |]|]; try done.
    destruct (todo st) as [|e rest] eqn:Et.
    + intros [= <-]. exists started. by rewrite Hst.
    + intros [= <-]. exists (started ++ [e]). simpl. split.
      * by rewrite <- app_assoc.
      * by rewrite map_app, Hlog.
  - unfold answer. destruct (runners st !! i) as [[e t| |]|]; try done.
    simpl. intros [= <-]. by exists started.
Qed.

(** Whatever the schedule, the Portland pool calls the resolver once for
    every item it has taken, in the order of the items. *)
Lemma pdx_pool_calls items schedule st :
  run start resume (init start 5 items) schedule = Some st ->
  finished st = true ->
  log st = map (fun e => PdxFetch.text_of (snd e)) items.
Proof.
  intros Hrun Hf.
  pose proof (finished_all_taken _ _ 5 _ _ _ ltac:(lia) Hrun Hf) as Ht.
  assert (H : called_once items st).
  { revert Hrun. apply reachable_invariant; [apply called_once_step|].
    by exists []. }
  destruct H as (started & Hst & Hlog). rewrite Ht, app_nil_r in Hst. by subst.
Qed.

(** when every call throws, nothing is stored *)
Lemma pdx_pool_down items schedule st :
  every_call_throws schedule = true ->
  run start resume (init start 5 items) schedule = Some st ->
  results st = ∅.
Proof.
  intros Hq Hrun.
  apply (reachable_invariant_on start resume
           (fun ev => match ev with Answer _ (Some _) => false | _ => true end)
           (fun st => results st = ∅) 5 items schedule st); try done.
  clear. intros st ev st' Hev Hres. destruct ev as [i|i [g|]]; simpl; try done.
  - unfold take. destruct (runners st !! i) as [[| |]|]; try done.
    destruct (todo st) as [|e rest]; [by intros [= <-]|].
    by intros [= <-].
  - unfold answer. destruct (runners st !! i) as [[e t| |]|]; try done.
    simpl. by intros [= <-].
Qed.

End PdxPoolProps.

(** ** The pool of the Nashville adapter *)

Section NashvillePoolProps.
Import JsString JsNum JsValue Geocode Common Pool PoolShapes Nashville NashvilleAdapter.
Context (M : Math).

Lemma accounted_step items st ev st' :
  NoDup items ->
  accounted items st -> step start (resume M) st ev = Some st' -> accounted items st'.
Proof.
  intros Hnd (started & retried & Hst & Hndr & Hsub & Hlog & Hwait & Hdist).
  destruct ev as [i|i ans]; simpl.
  - unfold take. destruct (runners st !! i) as [[| |]|] eqn:Ei; try done.
    destruct (todo st) as [|e rest] eqn:Et.
    + intros [= <-]. exists started, retried. simpl.
      split; [by rewrite Hst|]. do 3 (split; [done|]). split.
      * intros j e ph Hj. apply list_lookup_insert_Some in Hj as [(_ & ? & _)|[_ Hj]];
          [done|]. by apply (Hwait j).
      * intros j k e ph e' ph' Hne Hj Hk.
        apply list_lookup_insert_Some in Hj as [(_ & ? & _)|[_ Hj]]; [done|].
        apply list_lookup_insert_Some in Hk as [(_ & ? & _)|[_ Hk]]; [done|].
        by apply (Hdist j k e ph e' ph').
    + simpl. intros [= <-]. rewrite Hst in Hnd.
      apply NoDup_app in Hnd as (_ & Hfresh & _).
      assert (He : e ∉ started).
      { intros Hin. apply (Hfresh e Hin). left. }
      exists (started ++ [e]), retried. simpl.
      split; [by rewrite <- app_assoc|]. split; [done|]. split.
      { intros x Hx. apply elem_of_app. left. by apply Hsub. }
      split.
      { rewrite Hlog, map_app. simpl.
        rewrite <- !app_assoc. apply Permutation_app_head, Permutation_app_comm. }
      split.
      * intros j x ph Hj.
        apply list_lookup_insert_Some in Hj as [(_ & Hx & _)|[_ Hj]].
        -- assert (x = e) by congruence; subst x. assert (ph = First) by congruence; subst ph.
           split; [apply elem_of_app; right; left|].
           intros Hin. by apply He, Hsub.
        -- destruct (Hwait j x ph Hj) as [H1 H2]. split; [|done].
           apply elem_of_app. by left.
      * intros j k x ph x' ph' Hne Hj Hk.
        apply list_lookup_insert_Some in Hj as [(Hij & Hx & _)|[_ Hj]];
          apply list_lookup_insert_Some in Hk as [(Hik & Hx' & _)|[_ Hk]].
        -- lia.
        -- assert (x = e) by congruence; subst x.
           intros Heq. subst x'. by apply He, (Hwait k e ph').
        -- assert (x' = e) by congruence; subst x'.
           intros Heq. subst x. by apply He, (Hwait j e ph).
        -- by apply (Hdist j k x ph x' ph').
  - unfold answer. destruct (runners st !! i) as [[e ph| |]|] eqn:Ei; try done.
    assert (Hready : forall res,
      accounted items (State (todo st) (<[i := Ready]> (runners st)) res (log st))).
    { intros res. exists started, retried. simpl. do 4 (split; [done|]). split.
      - intros j x ph' Hj. apply list_lookup_insert_Some in Hj as [(_ & ? & _)|[_ Hj]];
          [done|]. by apply (Hwait j).
      - intros j k x ph1 x' ph2 Hne Hj Hk.
        apply list_lookup_insert_Some in Hj as [(_ & ? & _)|[_ Hj]]; [done|].
        apply list_lookup_insert_Some in Hk as [(_ & ? & _)|[_ Hk]]; [done|].
        by apply (Hdist j k x ph1 x' ph2). }
    destruct ans as [g|]; [|simpl; intros [= <-]; apply Hready].
    destruct ph as [|g1]; simpl; [|intros [= <-]; apply Hready].
    destruct (too_far M g); [|intros [= <-]; apply Hready].
    intros [= <-]. destruct (Hwait i e First Ei) as [Hin Hnot].
    exists started, (e :: retried). simpl.
    split; [done|]. split; [by constructor|]. split.
    { intros x Hx. apply elem_of_cons in Hx as [->|Hx]; [done|]. by apply Hsub. }
    split.
    { rewrite Hlog. rewrite <- app_assoc.
      apply Permutation_app_head. symmetry. apply Permutation_cons_append. }
    split.
    * intros j x ph Hj.
      apply list_lookup_insert_Some in Hj as [(_ & Hx & _)|[Hne Hj]].
      -- assert (x = e) by congruence; subst x.
         assert (ph = Retry g) by congruence; subst ph. split; [done|left].
      -- destruct (Hwait j x ph Hj) as [H1 H2]. split; [done|].
         destruct ph.
         ++ intros Hx. apply elem_of_cons in Hx as [->|Hx]; [|done].
            by apply (Hdist i j e First e First).
         ++ by right.
    * intros j k x ph x' ph' Hne Hj Hk.
      apply list_lookup_insert_Some in Hj as [(Hij & Hx & _)|[Hj' Hj]];
        apply list_lookup_insert_Some in Hk as [(Hik & Hx' & _)|[Hk' Hk]].
      -- lia.
      -- assert (x = e) by congruence; subst x. by apply (Hdist i k e First x' ph').
      -- assert (x' = e) by congruence; subst x'. by apply (Hdist j i x ph e First).
      -- by apply (Hdist j k x ph x' ph').
Qed.

(** Whatever the schedule, when the pool is over the resolver has been
    called once with the address of every item, once more with the forced
    address for some of the items, and with nothing else. *)
Lemma nashville_pool_calls items schedule st :
  NoDup items ->
  run start (resume M) (init start 5 items) schedule = Some st ->
  finished st = true ->
  exists retried,
    sublist retried items
    /\ log st ≡ₚ map snd items ++ map (fun e => forceNashville (snd e)) retried.
Proof.
  intros Hnd Hrun Hf.
  pose proof (finished_all_taken _ _ 5 _ _ _ ltac:(lia) Hrun Hf) as Ht.
  assert (H : accounted items st).
  { revert Hrun. apply reachable_invariant; [intros ? ? ?; by apply accounted_step|].
    exists [], []. simpl. split; [done|]. split; [constructor|].
    split; [by intros e He; apply elem_of_nil in He|]. split; [done|]. split.
    - intros i e ph Hi. apply list_elem_of_lookup_2, elem_of_replicate in Hi. by destruct Hi.
    - intros i j e ph e' ph' _ Hi.
      apply list_elem_of_lookup_2, elem_of_replicate in Hi. by destruct Hi. }
  destruct H as (started & retried & Hst & Hndr & Hsub & Hlog & _).
  rewrite Ht, app_nil_r in Hst. subst started.
  exists (filter (fun e => e ∈ retried) items). split; [apply sublist_filter|].
  rewrite Hlog. apply Permutation_app_head, Permutation_map.
  apply NoDup_Permutation; [done|by apply NoDup_filter|].
  intros x. rewrite list_elem_of_filter. split; [|by intros [? _]].
  intros Hx. split; [done|by apply Hsub].
Qed.

(** when every call throws, nothing is stored and every item is tried
    once, in the order of the items *)
Lemma nashville_pool_down items schedule st :
  every_call_throws schedule = true ->
  run start (resume M) (init start 5 items) schedule = Some st ->
  finished st = true ->
  results st = ∅ /\ log st = map snd items.
Proof.
  intros Hq Hrun Hf.
  pose proof (finished_all_taken _ _ 5 _ _ _ ltac:(lia) Hrun Hf) as Ht.
  assert (H : results st = ∅
              /\ exists started, items = started ++ todo st /\ log st = map snd started).
  { apply (reachable_invariant_on start (resume M)
             (fun ev => match ev with Answer _ (Some _) => false | _ => true end)
             (fun st => results st = ∅
                        /\ exists started, items = started ++ todo st
                                           /\ log st = map snd started)
             5 items schedule st); try done.
    - clear. intros st ev st' Hev (Hres & started & Hst & Hlog).
      destruct ev as [i|i [g|]]; simpl; try done.
      + unfold take. destruct (runners st !! i) as [[| |]|]; try done.
        destruct (todo st) as [|e rest] eqn:Et.
        * intros [= <-]. simpl. split; [done|]. exists started. by rewrite Hst.
        * simpl. intros [= <-]. simpl. split; [done|]. exists (started ++ [e]).
          split; [by rewrite <- app_assoc|]. by rewrite map_app, Hlog.
      + unfold answer. destruct (runners st !! i) as [[e t| |]|]; try done.
        simpl. intros [= <-]. simpl. split; [done|]. by exists started.
    - split; [done|]. by exists []. }
  destruct H as (Hres & started & Hst & Hlog). split; [done|].
  rewrite Ht, app_nil_r in Hst. by subst.
Qed.

Lemma stored_insert results k k' g :
  finite (g_lat g) = true -> finite (g_lon g) = true ->
  Pipeline.stored results k' \/ k = k' -> Pipeline.stored (<[k := g]> results) k'.
Proof.
  intros H1 H2 H. destruct (decide (k = k')) as [->|Hne].
  - exists g. by rewrite lookup_insert_eq.
  - destruct H as [(g' & Hg & ?)|?]; [|done]. exists g'.
    by rewrite lookup_insert_ne.
Qed.

Lemma settled_step items st ev st' :
  finite_answer ev = true ->
  settled items st -> step start (resume M) st ev = Some st' -> settled items st'.
Proof.
  intros Hev [(started & Hst & Hall) Hret]. destruct ev as [i|i ans]; simpl.
  - unfold take. destruct (runners st !! i) as [[| |]|] eqn:Ei; try done.
    assert (Hi : i < length (runners st)) by by apply lookup_lt_Some in Ei.
    destruct (todo st) as [|e rest] eqn:Et.
    + intros [= <-]. split; simpl.
      * exists started. split; [by rewrite Hst|]. intros x Hx.
        destruct (Hall x Hx) as [?|(j & ph & Hj)]; [by left|]. right. exists j, ph.
        rewrite list_lookup_insert_ne; [done|]. intros ->. by rewrite Ei in Hj.
      * intros j x g Hj. apply list_lookup_insert_Some in Hj as [(_ & ? & _)|[_ Hj]];
          [done|]. by apply (Hret j x).
    + simpl. intros [= <-]. split; simpl.
      * exists (started ++ [e]). split; [by rewrite <- app_assoc|]. intros x Hx.
        apply elem_of_app in Hx as [Hx|Hx].
        -- destruct (Hall x Hx) as [?|(j & ph & Hj)]; [by left|]. right. exists j, ph.
           rewrite list_lookup_insert_ne; [done|]. intros ->. by rewrite Ei in Hj.
        -- apply list_elem_of_singleton in Hx as ->. right. exists i, First.
           by apply list_lookup_insert_eq.
      * intros j x g Hj. apply list_lookup_insert_Some in Hj as [(_ & ? & _)|[_ Hj]];
          [done|]. by apply (Hret j x).
  - destruct ans as [g|]; [|done]. simpl in Hev. apply andb_prop in Hev as [Hg1 Hg2].
    unfold answer. destruct (runners st !! i) as [[e ph| |]|] eqn:Ei; try done.
    assert (Hi : i < length (runners st)) by by apply lookup_lt_Some in Ei.
    assert (Hstore : forall g',
      finite (g_lat g') = true -> finite (g_lon g') = true ->
      settled items (State (todo st) (<[i := Ready]> (runners st))
                           (<[fst e := g']> (results st)) (log st))).
    { intros g' H1 H2. split; simpl.
      - exists started. split; [done|]. intros x Hx.
        destruct (decide (x = e)) as [->|Hne].
        + left. apply stored_insert; auto.
        + destruct (Hall x Hx) as [Hs|(j & ph' & Hj)].
          * left. apply stored_insert; auto.
          * right. exists j, ph'. rewrite list_lookup_insert_ne; [done|].
            intros ->. rewrite Ei in Hj. by injection Hj as -> _.
      - intros j x g0 Hj. apply list_lookup_insert_Some in Hj as [(_ & ? & _)|[_ Hj]];
          [done|]. by apply (Hret j x). }
    destruct ph as [|g1]; simpl.
    + destruct (too_far M g).
      * intros [= <-]. split; simpl.
        -- exists started. split; [done|]. intros x Hx.
           destruct (Hall x Hx) as [?|(j & ph & Hj)]; [by left|]. right.
           destruct (decide (j = i)) as [->|Hne].
           ++ rewrite Ei in Hj. injection Hj as -> _. exists i, (Retry g).
              by apply list_lookup_insert_eq.
           ++ exists j, ph. by rewrite list_lookup_insert_ne.
        -- intros j x g0 Hj.
           apply list_lookup_insert_Some in Hj as [(_ & Hx & _)|[_ Hj]].
           ++ assert (g0 = g) by congruence; subst g0. done.
           ++ by apply (Hret j x).
      * intros [= <-]. by apply Hstore.
    + intros [= <-]. destruct (Hret i e g1 Ei) as [H1 H2].
      destruct (within_radius M g); by apply Hstore.
Qed.

(** when every call is answered with finite coordinates, every item is
    stored with finite coordinates once the pool is over *)
Lemma nashville_pool_stores items schedule st e :
  every_call_answered schedule = true ->
  run start (resume M) (init start 5 items) schedule = Some st ->
  finished st = true ->
  e ∈ items -> Pipeline.stored (results st) (fst e).
Proof.
  intros Hq Hrun Hf He.
  pose proof (finished_all_taken _ _ 5 _ _ _ ltac:(lia) Hrun Hf) as Ht.
  assert (H : settled items st).
  { apply (reachable_invariant_on start (resume M) finite_answer (settled items)
             5 items schedule st); try done.
    - intros ? ? ?. apply settled_step.
    - split; simpl.
      + exists []. split; [done|]. intros x Hx. by apply elem_of_nil in Hx.
      + intros i x g Hi.
        apply list_elem_of_lookup_2, elem_of_replicate in Hi. by destruct Hi. }
  destruct H as [(started & Hst & Hall) _].
  rewrite Ht, app_nil_r in Hst. subst started.
  destruct (Hall e He) as [?|(i & ph & Hi)]; [done|].
  by destruct (finished_none_waiting st i e ph Hf Hi).
Qed.

Lemma nashville_resume_throw e ph results : fst (resume M e ph None results) = None.
Proof. done. Qed.

(** the pool comes to its end when every call is answered with [a]: a
    worker makes one retry at most *)
Lemma nashville_pool_finishes_with a limit items :
  exists schedule st,
    run start (resume M) (init start limit items) schedule = Some st
    /\ finished st = true
    /\ Forall (answered_with a) schedule.
Proof.
  apply (pool_finishes_with start (resume M) a calls_left 1).
  - intros e. simpl. lia.
  - intros e ph results address ph'. unfold resume.
    destruct a as [g|]; [|intros H; discriminate H].
    destruct ph as [|g0]; simpl.
    + destruct (too_far M g); simpl; [|intros H; discriminate H].
      intros [= _ <-]. simpl. lia.
    + intros H. discriminate H.
Qed.

End NashvillePoolProps.

(** ** The adapters with their exceptions *)

Section ConversionProps.
Import JsString JsNum JsValue JsConv.

Lemma unprintable_truthy v : unprintable v = true -> truthy v = true.
Proof. by destruct v. Qed.

Lemma unprintable_or_else v w :
  unprintable w = false -> unprintable (or_else v w) = unprintable v.
Proof.
  intros Hw. unfold or_else. destruct (truthy v) eqn:Et; [done|].
  rewrite Hw. symmetry. destruct (unprintable v) eqn:Eu; [|done].
  apply unprintable_truthy in Eu. congruence.
Qed.

Lemma bind_String_of {A} v (k : string -> result A) :
  (String_of v ≫= k) = if unprintable v then Throw TypeError else k (to_String v).
Proof. unfold String_of. by destruct (unprintable v). Qed.

Lemma bind_String_of_truthy {A} v (k : string -> result A) :
  (forall s, k s = k EmptyString) ->
  ((if truthy v then String_of v else Ok EmptyString) ≫= k)
  = if unprintable v then Throw TypeError else k EmptyString.
Proof.
  intros Hk. destruct (truthy v) eqn:Et.
  - rewrite bind_String_of. destruct (unprintable v); [done|apply Hk].
  - destruct (unprintable v) eqn:Eu; [|done].
    apply unprintable_truthy in Eu. congruence.
Qed.

Lemma map_result_ext {A B} (f : A -> result B) (g : A -> B) l bs :
  (forall a b, f a = Ok b -> b = g a) ->
  map_result f l = Ok bs -> bs = map g l.
Proof.
  intros Hfg. revert bs. induction l as [|a l IH]; intros bs; simpl.
  - by intros [= <-].
  - destruct (f a) as [b|] eqn:Ea; simpl; [|done].
    destruct (map_result f l) as [bs0|]; simpl; [|done].
    intros [= <-]. f_equal; [by apply Hfg|by apply IH].
Qed.

Lemma omap_id_map {A B} (f : A -> option B) l :
  omap (fun o : option B => o) (map f l) = omap f l.
Proof.
  induction l as [|a l IH]; [done|].
  change (omap f (a :: l))
    with (match f a with Some b => b :: omap f l | None => omap f l end).
  cbn [map].
  change (omap (fun o : option B => o) (f a :: map f l))
    with (match f a with
          | Some b => b :: omap (fun o : option B => o) (map f l)
          | None => omap (fun o : option B => o) (map f l)
          end).
  by rewrite IH.
Qed.

Lemma omap_map {A B C} (f : A -> B) (g : B -> option C) l :
  omap g (map f l) = omap (fun a => g (f a)) l.
Proof.
  induction l as [|a l IH]; [done|].
  change (omap g (map f (a :: l)))
    with (match g (f a) with Some c => c :: omap g (map f l) | None => omap g (map f l) end).
  change (omap (fun a => g (f a)) (a :: l))
    with (match g (f a) with
          | Some c => c :: omap (fun a => g (f a)) l
          | None => omap (fun a => g (f a)) l
          end).
  by rewrite IH.
Qed.

End ConversionProps.

(** a default that is a text does not change whether a value converts *)
Ltac drop_default :=
  repeat match goal with
         | |- context [JsValue.unprintable (JsValue.or_else ?v (JsValue.VStr ?s))] =>
             rewrite (unprintable_or_else v (JsValue.VStr s)) by done
         end.

Section NashvilleAdapterProps.
Import JsString JsNum JsValue JsConv Geocode Common Pool PoolShapes.
Import Nashville NashvilleAdapter.
Context (M : Math) (date_parse : string -> option Z).

Lemma fields_base f r :
  NashvilleFields.premap_one date_parse f = Ok r -> NashvilleFields.base r = extract f.
Proof.
  unfold NashvilleFields.premap_one.
  destruct (NashvilleFields.extractUpdatedAt _ _); simpl; [|done].
  destruct (NashvilleFields.extractCallTimeReceived _ _); simpl; [|done].
  by intros [= <-].
Qed.

(** the pre-map converts the street, the city and the identifier, then
    reads the time stamps *)
Lemma premap_one_cases f :
  premap_one date_parse f
  = if Convertible.feature f then NashvilleFields.premap_one date_parse f
    else Throw TypeError.
Proof.
  unfold premap_one, Convertible.feature. cbv zeta.
  set (props := or_else (getq f "properties") (VObj [])).
  rewrite !bind_String_of. drop_default.
  by destruct (unprintable (extractAddress props)),
              (unprintable (cityName_of props)), (unprintable (id_value props)).
Qed.

Lemma premap_one_base f r : premap_one date_parse f = Ok r -> NashvilleFields.base r = extract f.
Proof.
  rewrite premap_one_cases. destruct (Convertible.feature f); [|done].
  apply fields_base.
Qed.

Lemma premap_base geojson rows :
  premap date_parse geojson = Ok rows ->
  map NashvilleFields.base rows = map extract (features_of geojson).
Proof.
  unfold premap. generalize (features_of geojson). intros l. revert rows.
  induction l as [|f l IH]; intros rows; simpl.
  - by intros [= <-].
  - destruct (premap_one date_parse f) as [r|] eqn:Er; simpl; [|done].
    destruct (map_result (premap_one date_parse) l) as [rs|]; simpl; [|done].
    intros [= <-]. simpl. f_equal; [by apply premap_one_base|by apply IH].
Qed.

Lemma emit_cases results r :
  emit results r
  = match place_of results (NashvilleFields.base r) with
    | None => Ok None
    | Some p => if Convertible.fields r then Ok (Some p) else Throw TypeError
    end.
Proof.
  unfold emit, Convertible.fields. cbv zeta.
  destruct (place_of results (NashvilleFields.base r)) as [p|]; [|done].
  rewrite bind_String_of.
  rewrite (bind_String_of_truthy (NashvilleFields.category r)) by done.
  rewrite (bind_String_of_truthy (prop _ "IncidentTypeName")) by done.
  by destruct (unprintable (NashvilleFields.name r)),
              (unprintable (NashvilleFields.category r)),
              (unprintable (prop _ "IncidentTypeName")).
Qed.

Lemma build_places_Ok results rows places :
  build_places results rows = Ok places ->
  places = omap (place_of results) (map NashvilleFields.base rows).
Proof.
  unfold build_places.
  destruct (map_result (emit results) rows) as [l|] eqn:El; [|done].
  intros [= <-].
  assert (Hl : l = map (fun r => place_of results (NashvilleFields.base r)) rows).
  { apply (map_result_ext (emit results)); [|done].
    intros r o. rewrite emit_cases.
    destruct (place_of results (NashvilleFields.base r)); [|by intros [= <-]].
    destruct (Convertible.fields r); [by intros [= <-]|done]. }
  by rewrite Hl, omap_id_map, omap_map.
Qed.

(** the shape of every outcome of a fetch *)
Lemma fetchCity_outcome geojson schedule out :
  fetchCity M date_parse geojson schedule = Some out ->
  (exists e, premap date_parse geojson = Throw e
             /\ out = Outcome (Throw e) ∅ [])
  \/ (exists rows st,
        premap date_parse geojson = Ok rows
        /\ map NashvilleFields.base rows = map extract (features_of geojson)
        /\ run start (resume M)
             (init start 5 (uniqueAddrMap (map extract (features_of geojson))))
             schedule = Some st
        /\ finished st = true
        /\ out = Outcome (build_places (results st) rows) (results st) (log st)).
Proof.
  unfold fetchCity. destruct (premap date_parse geojson) as [rows|e] eqn:Ep.
  - pose proof (premap_base _ _ Ep) as Hb. rewrite Hb.
    destruct (run _ _ _ schedule) as [st|] eqn:Er; [|done].
    destruct (finished st) eqn:Ef; [|done]. intros [= <-].
    right. by exists rows, st.
  - intros [= <-]. left. by exists e.
Qed.

(** every fetch has a schedule *)
Lemma fetchCity_total geojson :
  exists schedule out, fetchCity M date_parse geojson schedule = Some out.
Proof.
  unfold fetchCity. destruct (premap date_parse geojson) as [rows|e].
  - destruct (pool_can_finish start (resume M) 5
                (uniqueAddrMap (map NashvilleFields.base rows))
                (nashville_resume_throw M))
      as (schedule & st & Hrun & Hf & _).
    exists schedule. rewrite Hrun, Hf. by eexists.
  - exists []. by eexists.
Qed.

(** the fetch comes to its end when every call is answered with [a] *)
Lemma fetchCity_finishes_with a geojson :
  exists schedule out,
    Forall (PoolShapes.answered_with a) schedule
    /\ fetchCity M date_parse geojson schedule = Some out.
Proof.
  unfold fetchCity. destruct (premap date_parse geojson) as [rows|e].
  - destruct (nashville_pool_finishes_with M a 5
                (uniqueAddrMap (map NashvilleFields.base rows)))
      as (schedule & st & Hrun & Hf & Hq).
    exists schedule. rewrite Hrun, Hf. by eexists.
  - exists []. by eexists.
Qed.

End NashvilleAdapterProps.

(** ** The Portland adapter with its exceptions *)

Section PdxAdapterProps.
Import JsString JsNum JsValue JsConv Regex Geocode Common Pool PoolShapes.
Import Pdx PdxFetch PdxAdapter.
Context (xml_parse : string -> result value)
        (JSON_value : string -> result value)
        (first_table : string -> option (list tr))
        (date_parse : string -> option Z).

Lemma kml_row_cases pm :
  kml_row date_parse pm
  = if Convertible.placemark pm then Ok (Pdx.kml_row date_parse pm)
    else Throw TypeError.
Proof.
  unfold kml_row, Convertible.placemark.
  rewrite !bind_String_of. drop_default.
  by destruct (unprintable (getq pm "description")),
              (unprintable (or_else (getq (getq pm "Point") "coordinates")
                                    (getq pm "coordinates"))),
              (unprintable (or_else (getq pm "name") (getq pm "Name"))),
              (unprintable (or_else (getq pm "id") (getq pm "name"))).
Qed.

(** [parseKML] raises exactly when the XML parser does, or when a
    placemark holds something that cannot be converted; otherwise it
    returns one row for every placemark *)
Lemma parseKML_cases text :
  parseKML xml_parse date_parse text
  = match xml_parse text with
    | Throw e => Throw e
    | Ok kml =>
        if forallb Convertible.placemark (placemarks kml)
        then Ok (map (Pdx.kml_row date_parse) (placemarks kml))
        else Throw TypeError
    end.
Proof.
  unfold parseKML. destruct (xml_parse text) as [kml|e]; [|done]. simpl.
  induction (placemarks kml) as [|pm l IH]; [done|].
  cbn [map_result forallb map]. rewrite kml_row_cases.
  destruct (Convertible.placemark pm); [|done]. simpl. rewrite IH.
  by destruct (forallb Convertible.placemark l).
Qed.

Lemma tidy_one_cases r :
  tidy_one r = if Convertible.address r then Ok (tidy r) else Throw TypeError.
Proof.
  unfold tidy_one, Convertible.address. destruct (truthy (r_address r)) eqn:Et.
  - rewrite bind_String_of. by destruct (unprintable (r_address r)).
  - assert (Hu : unprintable (r_address r) = false).
    { destruct (unprintable (r_address r)) eqn:Eu; [|done].
      apply unprintable_truthy in Eu. congruence. }
    rewrite Hu. unfold tidy. by rewrite Et.
Qed.

(** the loop that tidies the addresses throws exactly on an address that
    cannot be converted *)
Lemma tidy_cases parsed :
  map_result tidy_one parsed
  = if forallb Convertible.address parsed then Ok (map tidy parsed)
    else Throw TypeError.
Proof.
  induction parsed as [|r l IH]; [done|].
  cbn [map_result forallb map]. rewrite tidy_one_cases, IH.
  by destruct (Convertible.address r), (forallb Convertible.address l).
Qed.

Lemma pdx_emit_cases results r :
  emit results r
  = match place_of results r with
    | None => Ok None
    | Some p => if Convertible.row r then Ok (Some p) else Throw TypeError
    end.
Proof.
  unfold emit, Convertible.row.
  destruct (place_of results r) as [p|]; [|done].
  rewrite (bind_String_of_truthy (r_name r)) by done.
  rewrite (bind_String_of_truthy (r_category r)) by done.
  by destruct (unprintable (r_name r)), (unprintable (r_category r)).
Qed.

Lemma pdx_build_places_Ok results rows places :
  build_places results rows = Ok places -> places = omap (place_of results) rows.
Proof.
  unfold build_places.
  destruct (map_result (emit results) rows) as [l|] eqn:El; [|done].
  intros [= <-].
  assert (Hl : l = map (place_of results) rows).
  { apply (map_result_ext (emit results)); [|done].
    intros r o. rewrite pdx_emit_cases.
    destruct (place_of results r); [|by intros [= <-]].
    destruct (Convertible.row r); [by intros [= <-]|done]. }
  by rewrite Hl, omap_id_map.
Qed.

(** the shape of every outcome of the pipeline *)
Lemma fetch_rows_outcome parsed schedule out :
  fetch_rows parsed schedule = Some out ->
  (forallb Convertible.address parsed = false /\ out = Outcome (Throw TypeError) ∅ [])
  \/ (exists st,
        forallb Convertible.address parsed = true
        /\ run start resume (init start 5 (uniqueMap (map tidy parsed))) schedule = Some st
        /\ finished st = true
        /\ out = Outcome (build_places (results st) (map tidy parsed))
                         (results st) (log st)).
Proof.
  unfold fetch_rows. rewrite tidy_cases.
  destruct (forallb Convertible.address parsed).
  - destruct (run _ _ _ schedule) as [st|] eqn:Er; [|done].
    destruct (finished st) eqn:Ef; [|done]. intros [= <-]. right. by exists st.
  - intros [= <-]. by left.
Qed.

Lemma pdx_resume_throw e t results : fst (resume e t None results) = None.
Proof. done. Qed.

(** every fetch has a schedule *)
Lemma fetch_rows_total parsed :
  exists schedule out, fetch_rows parsed schedule = Some out.
Proof.
  unfold fetch_rows. destruct (map_result tidy_one parsed) as [rows|e].
  - destruct (pool_can_finish start resume 5 (uniqueMap rows) pdx_resume_throw)
      as (schedule & st & Hrun & Hf & _).
    exists schedule. rewrite Hrun, Hf. by eexists.
  - exists []. by eexists.
Qed.

(** the pipeline comes to its end when every call is answered with [a] *)
Lemma fetch_rows_finishes_with a parsed :
  exists schedule out,
    Forall (PoolShapes.answered_with a) schedule
    /\ fetch_rows parsed schedule = Some out.
Proof.
  unfold fetch_rows. destruct (map_result tidy_one parsed) as [rows|e].
  - destruct (pool_finishes_with start resume a (fun _ => 0) 0 ltac:(done)
                ltac:(intros e t results address t' H; discriminate H)
                5 (uniqueMap rows))
      as (schedule & st & Hrun & Hf & Hq).
    exists schedule. rewrite Hrun, Hf. by eexists.
  - exists []. by eexists.
Qed.

End PdxAdapterProps.

(** ** The parse step of the Portland adapter *)

Section ParseStepProps.
Import JsString JsNum JsValue JsConv Regex Pdx PdxFetch.
Context (date_parse : string -> option Z).

Lemma html_row_cases i j k t :
  exists r, html_row date_parse i j k t = Ok (if decide (tds t = []) then None else Some r).
Proof.
  pose proof (html_row_returns date_parse i j k t) as Hr.
  unfold html_row in *. destruct (decide (tds t = [])).
  - by exists (Row Random VUndef VUndef VUndef VUndef VUndef VUndef []).
  - destruct (safeISO date_parse _) as [u|]; [|done]. cbn [mbind result_bind].
    destruct (fold_left _ _ _) as [la lo]. by eexists.
Qed.

Lemma html_rows_length i j k trs :
  exists rs,
    map_result (html_row date_parse i j k) trs = Ok rs
    /\ length (omap (fun o : option row => o) rs)
       = length (filter (fun t => tds t <> []) trs).
Proof.
  induction trs as [|t trs (rs & Hrs & Hlen)]; [by exists []|].
  destruct (html_row_cases i j k t) as [r Hr].
  cbn [map_result]. rewrite Hr, Hrs. cbn [mbind result_bind]. eexists. split; [done|].
  destruct (decide (tds t = [])) as [Ht|Ht].
  - rewrite filter_cons_False by (intros H; by apply H). exact Hlen.
  - rewrite filter_cons_True by done.
    change (omap (fun o : option row => o) (Some r :: rs))
      with (r :: omap (fun o : option row => o) rs).
    simpl. by rewrite Hlen.
Qed.

(** [parseHTMLTable] returns one row for every [tr] after the first that
    has a [td] *)
Lemma parseHTMLTable_dom_rows table :
  exists rows,
    parseHTMLTable_dom date_parse table = Ok rows
    /\ length rows
       = match table with
         | Some trs => length (filter (fun t => tds t <> []) (List.tail trs))
         | None => 0
         end.
Proof.
  unfold parseHTMLTable_dom. destruct table as [trs|]; [|by exists []].
  match goal with
  | |- context [map_result (html_row date_parse ?i ?j ?k) ?l] =>
      destruct (html_rows_length i j k l) as (rs & -> & Hlen)
  end.
  by eexists.
Qed.

End ParseStepProps.

(** C8, as amended.  The content sniffing of [fetchCity] returns for every
    text that is not taken for KML: the rows of [parseJSONVariant] when
    [JSON.parse] and [parseJSONVariant] return, and when one of them raises,
    the rows of the HTML table, one for every [tr] after the first that has
    a [td], for a text with an [html] tag, and no row otherwise;
    [parseHTMLTable] raises on no document.  On a text taken for KML the
    step is outside the [try]: it raises when the XML parser raises, and
    with a TypeError when a placemark holds a description, coordinates, a
    name or an identifier that [String] cannot convert; in every other case
    it returns one row for every placemark.  The empty text gives no
    row. *)
Theorem parse_step_raises_only_from_xml
    (xml_parse JSON_value : string -> result JsValue.value)
    (first_table : string -> option (list Pdx.tr))
    (date_parse : string -> option Z) (text : string) :
  (Regex.test PdxFetch.kml_sniff text = true ->
   PdxAdapter.parse_rows xml_parse JSON_value first_table date_parse text
   = match xml_parse text with
     | Throw e => Throw e
     | Ok kml =>
         if forallb Convertible.placemark (PdxAdapter.placemarks kml)
         then Ok (map (Pdx.kml_row date_parse) (PdxAdapter.placemarks kml))
         else Throw TypeError
     end)
  /\ (Regex.test PdxFetch.kml_sniff text = false ->
      returns (PdxAdapter.parse_rows xml_parse JSON_value first_table date_parse text)
      = true
      /\ (forall rows,
            JsConv.JSON_parse JSON_value text ≫= PdxAdapter.parseJSONVariant date_parse
            = Ok rows ->
            PdxAdapter.parse_rows xml_parse JSON_value first_table date_parse text
            = Ok rows)
      /\ (returns (JsConv.JSON_parse JSON_value text
                   ≫= PdxAdapter.parseJSONVariant date_parse) = false ->
          if Regex.test PdxFetch.html_sniff text
          then exists rows,
                 PdxAdapter.parse_rows xml_parse JSON_value first_table date_parse text
                 = Ok rows
                 /\ length rows
                    = match first_table text with
                      | Some trs =>
                          length (filter (fun t => Pdx.tds t <> []) (List.tail trs))
                      | None => 0
                      end
          else PdxAdapter.parse_rows xml_parse JSON_value first_table date_parse text
               = Ok []))
  /\ (forall table, returns (Pdx.parseHTMLTable_dom date_parse table) = true)
  /\ PdxAdapter.parse_rows xml_parse JSON_value first_table date_parse EmptyString
     = Ok [].
Proof.
  split; [|split; [|split]].
  - intros Hk. unfold PdxAdapter.parse_rows. rewrite Hk. apply parseKML_cases.
  - intros Hk. unfold PdxAdapter.parse_rows, try_catch. rewrite Hk.
    destruct (JsConv.JSON_parse JSON_value text
              ≫= PdxAdapter.parseJSONVariant date_parse) as [rows|e].
    + split; [done|]. split; [by intros ? [= <-]|done].
    + unfold PdxAdapter.parseHTMLTable.
      destruct (parseHTMLTable_dom_rows date_parse (first_table text))
        as (rows & Hrows & Hlen).
      destruct (Regex.test PdxFetch.html_sniff text).
      * rewrite Hrows. split; [done|]. split; [done|]. intros _. by exists rows.
      * by repeat split.
  - apply parseHTMLTable_dom_returns.
  - vm_compute. reflexivity.
Qed.

(** C8, counterexample.  [parseJSONVariant] raises on an array that holds
    [null]: the callback reads [r.id] of the row. *)
Lemma parseJSONVariant_raises_on_null_row :
  Pdx.parseJSONVariant JsDate.parse_legacy (JsValue.VArr [JsValue.VNull])
  = Throw TypeError
  /\ PdxAdapter.parseJSONVariant JsDate.parse_legacy (JsValue.VArr [JsValue.VNull])
     = Throw TypeError.
Proof. vm_compute. split; reflexivity. Qed.

(** The same array inside [fetchCity]: the exception is caught and the
    fetch goes on without any row. *)
Example null_row_is_caught xml_parse first_table :
  PdxAdapter.parse_rows xml_parse (fun _ => Ok (JsValue.VArr [JsValue.VNull]))
    first_table JsDate.parse_legacy "[null]" = Ok [].
Proof. vm_compute. reflexivity. Qed.

(** An epoch beyond the range of dates makes [parseJSONVariant] raise as
    well: [safeISO] formats it without testing it. *)
Example parseJSONVariant_raises_on_large_epoch :
  PdxAdapter.parseJSONVariant JsDate.parse_legacy
    (JsValue.VArr [JsValue.VObj [("time", JsValue.VNum (JsNum.Fin 1e20))]])
  = Throw RangeError.
Proof. vm_compute. reflexivity. Qed.

(** A placemark whose description has a child element named [toString]
    makes [parseKML] raise, and with it the fetch: the KML branch is not
    inside the [try]. *)
Example parseKML_raises_on_description_object first_table JSON_value :
  let kml :=
    JsValue.VObj
      [("kml",
        JsValue.VObj
          [("Document",
            JsValue.VObj
              [("Placemark",
                JsValue.VObj
                  [("name", JsValue.VStr "THEFT at 1 MAIN ST");
                   ("description",
                    JsValue.VObj [("toString", JsValue.VStr "x")])])])])] in
  PdxAdapter.parse_rows (fun _ => Ok kml) JSON_value first_table JsDate.parse_legacy
    "<kml><Document><Placemark><name>THEFT at 1 MAIN ST</name><description><toString>x</toString></description></Placemark></Document></kml>"
  = Throw TypeError.
Proof. vm_compute. reflexivity. Qed.

(** On the rows of an HTML table the fallback returns them. *)
Example html_fallback_reads_the_table xml_parse JSON_value :
  let table :=
    Some [Pdx.Tr ["Type"; "Address"] [] [];
          Pdx.Tr ["THEFT"; "1 MAIN ST"] ["THEFT"; "1 MAIN ST"] []] in
  (map (fun r => (Pdx.r_name r, Pdx.r_address r)) <$>
     PdxAdapter.parse_rows xml_parse JSON_value (fun _ => table) JsDate.parse_legacy
       "   ")
  = Ok []
  /\ (map (fun r => (Pdx.r_name r, Pdx.r_address r)) <$>
        PdxAdapter.parse_rows xml_parse (fun _ => Throw SyntaxError) (fun _ => table)
          JsDate.parse_legacy "<html><table></table></html>")
     = Ok [(JsValue.VStr "THEFT", JsValue.VStr "1 MAIN ST")].
Proof. vm_compute. split; reflexivity. Qed.

(** ** Deduplication of the resolver calls *)

Section DedupProps.
Import JsString JsNum JsValue JsConv Geocode Common Traces Pipeline.

(** an entry of the ordered map comes from one of the rows *)
Lemma fold_add_new_from {R A} (key : R -> string) (val : R -> A) (l : list R)
    (m : list (string * A)) kv :
  kv ∈ fold_left (fun m r => omap_add_new (key r) (val r) m) l m ->
  kv ∈ m \/ exists r, r ∈ l /\ kv = (key r, val r).
Proof.
  revert m. induction l as [|r l IH]; intros m; simpl; [by left|].
  intros Hin. destruct (IH _ Hin) as [Hm|(r' & Hr' & Hkv)].
  - apply add_new_subset in Hm as [Hm| ->]; [by left|].
    right. exists r. split; [left|done].
  - right. exists r'. split; [by right|done].
Qed.

Lemma fold_add_new_keeps {R A} (key : R -> string) (val : R -> A) (l : list R)
    (m : list (string * A)) k :
  omap_has k m = true ->
  omap_has k (fold_left (fun m r => omap_add_new (key r) (val r) m) l m) = true.
Proof.
  revert m. induction l as [|r l IH]; intros m Hk; simpl; [done|].
  apply IH. by rewrite omap_has_add_new, Hk.
Qed.

(** a row with a key that is not empty has its key in the map *)
Lemma fold_add_new_has {R A} (key : R -> string) (val : R -> A) (l : list R)
    (m : list (string * A)) r :
  r ∈ l -> is_empty (key r) = false ->
  omap_has (key r) (fold_left (fun m r => omap_add_new (key r) (val r) m) l m) = true.
Proof.
  intros Hin Hk. revert m. induction l as [|r' l IH]; intros m.
  - by apply elem_of_nil in Hin.
  - simpl. apply elem_of_cons in Hin as [<-|Hin]; [|by apply IH].
    apply fold_add_new_keeps. rewrite omap_has_add_new, Hk.
    by rewrite String.eqb_refl, orb_true_r.
Qed.

Lemma keyed_elem {A} (key : A -> string) (m : list (string * A)) k a :
  keyed key m -> (k, a) ∈ m -> k = key a /\ k <> EmptyString.
Proof.
  intros [_ Hall] Hin. rewrite Forall_forall in Hall.
  by apply (Hall (k, a)).
Qed.

(** the dedup pass of the Nashville adapter is a pass of [omap_add_new]:
    the test on the display address is implied by the test on its key *)
Lemma uniqueAddrMap_fold rows m :
  fold_left add_row rows m
  = fold_left (fun m r => omap_add_new (normalizeAddress (Nashville.displayAddress r))
                                       (Nashville.displayAddress r) m) rows m.
Proof.
  revert m. induction rows as [|r rows IH]; intros m; simpl; [done|].
  rewrite <- IH. f_equal. unfold add_row.
  destruct (Nashville.displayAddress r) eqn:E; simpl; [|done].
  unfold omap_add_new. done.
Qed.

(** The dedup pass of the Nashville adapter keeps one entry for every
    normalised display address that is not empty, and nothing else. *)
Lemma uniqueAddrMap_exact rows :
  NoDup (map fst (Nashville.uniqueAddrMap rows))
  /\ (forall k,
        k ∈ map fst (Nashville.uniqueAddrMap rows)
        <-> k <> EmptyString
            /\ exists r, r ∈ rows
                         /\ normalizeAddress (Nashville.displayAddress r) = k)
  /\ (forall k a,
        (k, a) ∈ Nashville.uniqueAddrMap rows ->
        k = normalizeAddress a /\ exists r, r ∈ rows /\ Nashville.displayAddress r = a).
Proof.
  pose proof (uniqueAddrMap_keyed rows) as Hk.
  assert (Hfrom : forall k a, (k, a) ∈ Nashville.uniqueAddrMap rows ->
                    exists r, r ∈ rows /\ Nashville.displayAddress r = a).
  { intros k a Hin. change (Nashville.uniqueAddrMap rows) with (fold_left add_row rows []) in Hin.
    rewrite uniqueAddrMap_fold in Hin.
    apply fold_add_new_from in Hin as [Hin|(r & Hr & Hkv)]; [by apply elem_of_nil in Hin|].
    exists r. split; [done|]. congruence. }
  split; [apply Hk|]. split.
  - intros k. split.
    + intros Hin. apply list_elem_of_fmap in Hin as ([k' a] & -> & Hin). simpl.
      destruct (keyed_elem _ _ _ _ Hk Hin) as [Hka Hne]. split; [done|].
      destruct (Hfrom _ _ Hin) as (r & Hr & Ha). exists r. split; [done|]. by rewrite Ha.
    + intros (Hne & r & Hr & <-). apply omap_has_elem.
      change (Nashville.uniqueAddrMap rows) with (fold_left add_row rows []).
      rewrite uniqueAddrMap_fold.
      apply (fold_add_new_has (fun r => normalizeAddress (Nashville.displayAddress r))
                              Nashville.displayAddress); [done|].
      by apply is_empty_false.
  - intros k a Hin. split; [by apply (keyed_elem _ _ _ _ Hk Hin)|by apply (Hfrom k)].
Qed.

(** The dedup pass of the Portland adapter keeps one entry for every
    normalised address, not empty, of a row in need of geocoding, and
    nothing else. *)
Lemma uniqueMap_exact rows :
  NoDup (map fst (PdxFetch.uniqueMap rows))
  /\ (forall k,
        k ∈ map fst (PdxFetch.uniqueMap rows)
        <-> k <> EmptyString
            /\ exists r, r ∈ rows /\ PdxFetch.needs_geocoding r = true
                         /\ normalizeAddress (PdxFetch.text_of (Pdx.r_address r)) = k)
  /\ (forall k a,
        (k, a) ∈ PdxFetch.uniqueMap rows ->
        k = normalizeAddress (PdxFetch.text_of a)
        /\ exists r, r ∈ rows /\ PdxFetch.needs_geocoding r = true
                     /\ Pdx.r_address r = a).
Proof.
  pose proof (uniqueMap_keyed rows) as Hk.
  assert (Hfrom : forall k a, (k, a) ∈ PdxFetch.uniqueMap rows ->
                    exists r, r ∈ rows /\ PdxFetch.needs_geocoding r = true
                              /\ Pdx.r_address r = a).
  { intros k a Hin. apply uniqueMap_from_rows in Hin as (r & Hr & Hn & Ha).
    exists r. by repeat split. }
  split; [apply Hk|]. split.
  - intros k. split.
    + intros Hin. apply list_elem_of_fmap in Hin as ([k' a] & -> & Hin). simpl.
      destruct (keyed_elem _ _ _ _ Hk Hin) as [Hka Hne]. split; [done|].
      destruct (Hfrom _ _ Hin) as (r & Hr & Hn & Ha). exists r.
      split; [done|]. split; [done|]. by rewrite Ha.
    + intros (Hne & r & Hr & Hn & <-). apply omap_has_elem. unfold PdxFetch.uniqueMap.
      apply (fold_add_new_has
               (fun r => normalizeAddress (PdxFetch.text_of (Pdx.r_address r)))
               Pdx.r_address).
      * apply list_elem_of_filter. by split.
      * by apply is_empty_false.
  - intros k a Hin. split; [by apply (keyed_elem _ _ _ _ Hk Hin)|by apply (Hfrom k)].
Qed.

End DedupProps.

(** C3, as amended.  The dedup pass keeps exactly one entry for every
    distinct normalised address that is not empty, whatever the number of
    records that share it.  Whatever the order in which the workers of the
    pool run and the resolver answers, the Portland adapter calls the
    resolver once for every entry, in the order of the entries, and makes
    no other call; the Nashville adapter makes the first call for every
    entry once, for some of the entries one retry with the forced address,
    and no other call; a fetch that throws before the look-up makes no
    call.  Every fetch has a schedule.  Two rows with the addresses
    [5th Ave] and [5th   ave] give one entry, and exactly one call in the
    Portland adapter. *)
Theorem resolver_calls_deduplicated :
  (forall rows : list Nashville.prelim,
     NoDup (map fst (Nashville.uniqueAddrMap rows))
     /\ (forall k,
           k ∈ map fst (Nashville.uniqueAddrMap rows)
           <-> k <> EmptyString
               /\ exists r, r ∈ rows
                    /\ Geocode.normalizeAddress (Nashville.displayAddress r) = k)
     /\ (forall k a,
           (k, a) ∈ Nashville.uniqueAddrMap rows ->
           k = Geocode.normalizeAddress a
           /\ exists r, r ∈ rows /\ Nashville.displayAddress r = a))
  /\ (forall rows : list Pdx.row,
        NoDup (map fst (PdxFetch.uniqueMap rows))
        /\ (forall k,
              k ∈ map fst (PdxFetch.uniqueMap rows)
              <-> k <> EmptyString
                  /\ exists r, r ∈ rows /\ PdxFetch.needs_geocoding r = true
                       /\ Geocode.normalizeAddress (PdxFetch.text_of (Pdx.r_address r))
                          = k)
        /\ (forall k a,
              (k, a) ∈ PdxFetch.uniqueMap rows ->
              k = Geocode.normalizeAddress (PdxFetch.text_of a)
              /\ exists r, r ∈ rows /\ PdxFetch.needs_geocoding r = true
                           /\ Pdx.r_address r = a))
  /\ (forall (parsed : list Pdx.row) schedule out,
        PdxAdapter.fetch_rows parsed schedule = Some out ->
        Pool.called out
        = if forallb Convertible.address parsed
          then map (fun e => PdxFetch.text_of (snd e))
                   (PdxFetch.uniqueMap (map PdxFetch.tidy parsed))
          else [])
  /\ (forall (M : Common.Math) (date_parse : string -> option Z)
             (geojson : JsValue.value) schedule out,
        NashvilleAdapter.fetchCity M date_parse geojson schedule = Some out ->
        if returns (NashvilleAdapter.premap date_parse geojson)
        then exists retried,
               sublist retried
                 (Nashville.uniqueAddrMap
                    (map Nashville.extract (Nashville.features_of geojson)))
               /\ Pool.called out
                  ≡ₚ map snd
                       (Nashville.uniqueAddrMap
                          (map Nashville.extract (Nashville.features_of geojson)))
                     ++ map (fun e => Nashville.forceNashville (snd e)) retried
        else Pool.called out = [])
  /\ (forall parsed : list Pdx.row,
        exists schedule out, PdxAdapter.fetch_rows parsed schedule = Some out)
  /\ (forall (M : Common.Math) (date_parse : string -> option Z)
             (geojson : JsValue.value),
        exists schedule out,
          NashvilleAdapter.fetchCity M date_parse geojson schedule = Some out)
  /\ (forall schedule out,
        PdxAdapter.fetch_rows
          [Inputs.street_row "5th Ave"; Inputs.street_row "5th   ave"] schedule
        = Some out ->
        Pool.called out = ["5th Ave, Portland, OR"])
  /\ Nashville.uniqueAddrMap
       (map Nashville.extract (Nashville.features_of Inputs.fifth_avenue_twice))
     = [("5th ave, nashville, tn", "5th Ave, Nashville, TN")].
Proof.
  split; [apply uniqueAddrMap_exact|]. split; [apply uniqueMap_exact|].
  assert (Hpdx : forall (parsed : list Pdx.row) schedule out,
            PdxAdapter.fetch_rows parsed schedule = Some out ->
            Pool.called out
            = if forallb Convertible.address parsed
              then map (fun e => PdxFetch.text_of (snd e))
                       (PdxFetch.uniqueMap (map PdxFetch.tidy parsed))
              else []).
  { intros parsed schedule out Hout.
    apply fetch_rows_outcome in Hout as [[-> ->]|(st & -> & Hrun & Hf & ->)]; [done|].
    simpl. by apply (pdx_pool_calls _ schedule). }
  split; [exact Hpdx|]. split.
  - intros M date_parse geojson schedule out Hout.
    apply fetchCity_outcome in Hout
      as [(e & -> & ->)|(rows & st & -> & _ & Hrun & Hf & ->)]; [done|].
    simpl. apply (nashville_pool_calls M _ schedule); [|done..].
    apply (NoDup_fmap_1 fst), uniqueAddrMap_exact.
  - split; [apply fetch_rows_total|]. split; [apply fetchCity_total|].
    split; [|vm_compute; reflexivity].
    intros schedule out Hout. rewrite (Hpdx _ _ _ Hout). vm_compute. reflexivity.
Qed.

(** ** The places that are emitted, and their addresses *)

Section SfFetchProps.
Import JsString JsNum JsValue JsConv Geocode Common.

Lemma map_result_elem_fwd {A B} (f : A -> result B) l bs a :
  map_result f l = Ok bs -> a ∈ l -> exists b, f a = Ok b /\ b ∈ bs.
Proof.
  revert bs. induction l as [|a' l IH]; intros bs; simpl.
  - intros _ Ha. by apply elem_of_nil in Ha.
  - destruct (f a') as [b0|] eqn:Ea; simpl; [|done].
    destruct (map_result f l) as [bs0|] eqn:El; simpl; [|done].
    intros [= <-] Ha. apply elem_of_cons in Ha as [->|Ha].
    + exists b0. split; [done|left].
    + destruct (IH _ eq_refl Ha) as (b & Hb & Hin). exists b. split; [done|by right].
Qed.

(** a place is emitted for a record exactly when the body of the loop
    gives one *)
Lemma emitted_iff {A P} (f : A -> result (option P)) (src : P -> A) l os a :
  map_result f l = Ok os ->
  (forall a p, f a = Ok (Some p) -> src p = a) ->
  a ∈ l ->
  (exists p, p ∈ omap (fun o : option P => o) os /\ src p = a)
  <-> exists p, f a = Ok (Some p).
Proof.
  intros Hos Hsrc Ha. split.
  - intros (p & Hp & Hpa). apply omap_id_elem in Hp.
    destruct (map_result_elem _ _ _ _ Hos Hp) as (a' & _ & Hf).
    exists p. by rewrite <- Hpa, (Hsrc _ _ Hf).
  - intros (p & Hf). destruct (map_result_elem_fwd _ _ _ _ Hos Ha) as (o & Ho & Hin).
    rewrite Hf in Ho. injection Ho as <-. exists p.
    split; [by apply omap_id_elem|by apply Hsrc].
Qed.

Section Current.
Context (JSON_value : string -> result value).

Lemma extractCoords_finite r c :
  Sf.extractCoords r = Ok (Some c) -> finite (fst c) = true /\ finite (snd c) = true.
Proof.
  assert (Hk : forall c c', Sf.keep c = Some c' -> Sf.both_finite c' = true).
  { intros c0 c'. unfold Sf.keep. destruct (Sf.both_finite c0) eqn:Ec; [|done].
    by intros [= <-]. }
  assert (Hor : forall (a b : option (num * num)) c,
            Sf.or_opt a b = Some c -> a = Some c \/ b = Some c).
  { intros [a|] b c0; simpl; auto. }
  assert (Hin : forall loc c, Sf.coords_in loc = Some c -> Sf.both_finite c = true).
  { intros loc c0. unfold Sf.coords_in. intros H.
    apply Hor in H as [H|H]; [|apply Hor in H as [H|H]].
    - destruct (_ && _) in H; [by apply Hk in H|done].
    - by apply Hk in H.
    - destruct loc; try done.
      destruct (Regex.exec Sf.WKT_POINT s) as [m|]; simpl in H; [|done].
      by apply Hk in H. }
  assert (Hfirst : forall cs c, Sf.first_coords cs = Some c -> Sf.both_finite c = true).
  { induction cs as [|loc cs IH]; intros c0; simpl; [done|].
    destruct (negb (truthy loc)); [apply IH|].
    destruct (Sf.coords_in loc) as [c1|] eqn:E0; [|apply IH].
    intros [= <-]. by apply Hin in E0. }
  unfold Sf.extractCoords.
  destruct (get r "latitude") as [latitude|];
    cbv beta iota delta [mbind result_bind]; [|done].
  remember (map (prop r) _) as cs eqn:Ecs. clear Ecs.
  destruct (Sf.both_finite _) eqn:Et.
  - intros [= <-]. by apply andb_prop in Et.
  - intros [= Hf]. apply Hfirst in Hf. by apply andb_prop in Hf.
Qed.

Lemma sf_place_of_Some r p :
  SfAdapter.place_of r = Ok (Some p) ->
  p = Place r (lat p) (lon p) (VStr (SfAddress.address_of r))
  /\ Sf.extractCoords r = Ok (Some (lat p, lon p)).
Proof.
  unfold SfAdapter.place_of. destruct (Sf.extractCoords r) as [[[la lo]|]|]; try done.
  simpl. by intros [= <-].
Qed.

Lemma sf_place_of_is_Some r :
  (exists p, SfAdapter.place_of r = Ok (Some p))
  <-> exists c, Sf.extractCoords r = Ok (Some c).
Proof.
  unfold SfAdapter.place_of. destruct (Sf.extractCoords r) as [[[la lo]|]|]; simpl.
  - split; intros _; by eexists.
  - split; by intros [? ?].
  - split; by intros [? ?].
Qed.

(** the fetch of the current adapter: the places are those of the rows of
    the body *)
Lemma sf_fetch_rows res places rows :
  SfAdapter.fetchCity JSON_value res = Ok places ->
  JSON_parse JSON_value (body_text res) = Ok (VArr rows) ->
  exists os,
    map_result SfAdapter.place_of rows = Ok os
    /\ places = omap (fun o : option (place value) => o) os.
Proof.
  unfold SfAdapter.fetchCity. destruct (400 <=? statusCode res)%Z; [done|].
  intros H Hrows. rewrite Hrows in H. simpl in H.
  destruct rows as [|r rows]; [injection H as <-; by exists []|].
  cbn -[map_result] in H.
  destruct (map_result SfAdapter.place_of (r :: rows)) as [os|] eqn:Eo;
    [|discriminate H].
  injection H as <-. by exists os.
Qed.

Lemma sf_fetch_places res places p :
  SfAdapter.fetchCity JSON_value res = Ok places -> p ∈ places ->
  exists r, SfAdapter.place_of r = Ok (Some p).
Proof.
  unfold SfAdapter.fetchCity. destruct (400 <=? statusCode res)%Z; [done|].
  destruct (JSON_parse JSON_value (body_text res)) as [body|];
    [|intros [= <-] Hp; by apply elem_of_nil in Hp].
  destruct (_ || _); [intros [= <-] Hp; by apply elem_of_nil in Hp|].
  destruct (map_result SfAdapter.place_of (items_of body)) as [os|] eqn:Eo; [|done].
  intros [= <-] Hp. apply omap_id_elem in Hp.
  destruct (map_result_elem _ _ _ _ Eo Hp) as (r & _ & Hr). by exists r.
Qed.

End Current.

Section BBox.
Import SfBBox.
Context {S : Type} (geocode : resolver S) (cfg : config).
Context (JSON_parse : string -> result value).

Lemma extract_fields r p :
  extract cfg JSON_parse r = Ok p ->
  raw p = r
  /\ streetFromDataset p = bestStreetFromDataset JSON_parse r
  /\ geocodeQuery p = bestAddressForGeocode JSON_parse r
  /\ extractCoordsStrict cfg r = Ok (p_lat p, p_lon p).
Proof.
  unfold extract. destruct (extractCoordsStrict cfg r) as [[la lo]|]; [|done].
  simpl. by intros [= <-].
Qed.

(** the strict extraction keeps a pair of coordinates only when it passes
    the test of the box *)
Lemma extractCoordsStrict_inside r la lo :
  extractCoordsStrict cfg r = Ok (la, lo) ->
  (la = VUndef /\ lo = VUndef) \/ inSF cfg la lo = true.
Proof.
  unfold extractCoordsStrict, get. destruct (nullish r); [done|].
  cbn [mbind result_bind].
  assert (Hs : forall a b c, strict_pair cfg a b = Some c -> inSF cfg (fst c) (snd c) = true).
  { intros a b c. unfold strict_pair. destruct (inSF cfg (VNum a) (VNum b)) eqn:E; [|done].
    by intros [= <-]. }
  cbv zeta.
  repeat match goal with
         | |- match strict_pair cfg ?a ?b with _ => _ end = _ -> _ =>
             let E := fresh "E" in
             destruct (strict_pair cfg a b) as [c|] eqn:E;
             [intros [= ->]; right; by apply (Hs _ _ _ E)|]
         | |- (if ?b then _ else _) = _ -> _ => destruct b
         end; intros [= <- <-]; by left.
Qed.

Lemma has_coords_inside r p :
  extract cfg JSON_parse r = Ok p -> has_coords p = true ->
  inSF cfg (p_lat p) (p_lon p) = true.
Proof.
  intros He Hc. apply extract_fields in He as (_ & _ & _ & He).
  apply extractCoordsStrict_inside in He as [[Hla Hlo]|?]; [|done].
  unfold has_coords in Hc. by rewrite Hla in Hc.
Qed.

(** the address that is shown *)
Lemma display_of_cases results p d :
  display_of results p = Ok d ->
  let formatted :=
    match results !! key_of p with
    | Some g => g_formatted g
    | None => VUndef
    end in
  d = if negb (is_empty (trim (streetFromDataset p)))
      then withCityState (trim (streetFromDataset p))
      else if looksStreetSpecific formatted
           then match formatted with
                | VStr f => withCityState f
                | _ => "San Francisco, CA"
                end
           else "San Francisco, CA".
Proof.
  unfold display_of. cbv zeta.
  set (formatted := match results !! key_of p with
                    | Some g => g_formatted g
                    | None => VUndef
                    end).
  destruct (negb (is_empty (trim (streetFromDataset p))));
    [by intros [= H]; subst d|].
  destruct (looksStreetSpecific formatted); [|simpl; by intros [= H]; subst d].
  unfold withCityState_value.
  destruct formatted as [| |b|n|f|items|fields]; simpl;
    try (by intros [= H]; subst d); try done.
  - destruct b; simpl; [done|by intros [= H]; subst d].
  - destruct n as [q| | |]; simpl; [destruct (JsNum.qzero q); simpl|..];
      try done; by intros [= H]; subst d.
  - destruct f; simpl; by intros [= H]; subst d.
Qed.

Lemma inSF_finite la lo :
  inSF cfg la lo = true -> isFinite la = true /\ isFinite lo = true.
Proof.
  unfold inSF. destruct (isFinite la), (isFinite lo); simpl; done.
Qed.

Lemma sfbbox_place_of_Some results r p :
  place_of cfg results r = Ok (Some p) ->
  src p = r
  /\ inSF cfg (fst (final_coords results r)) (snd (final_coords results r)) = true
  /\ VNum (lat p) = fst (final_coords results r)
  /\ VNum (lon p) = snd (final_coords results r)
  /\ exists d, display_of results r = Ok d /\ address p = VStr d.
Proof.
  unfold place_of. destruct (final_coords results r) as [la lo]. simpl.
  destruct (inSF cfg la lo) eqn:Ein; simpl; [|intros H; discriminate H].
  destruct (display_of results r) as [d|]; simpl; [|intros H; discriminate H].
  intros [= <-]. simpl.
  assert (Hla : VNum (num_of la) = la /\ VNum (num_of lo) = lo).
  { unfold inSF in Ein.
    destruct la, lo; simpl in Ein; rewrite ?orb_true_r in Ein; done. }
  split; [done|]. split; [done|]. split; [apply Hla|]. split; [apply Hla|].
  by exists d.
Qed.

(** the fetch of the variant: the records are those of the rows of the
    body, and the places those of the records *)
Lemma sfbbox_fetch_rows text s0 out rows :
  fetchCity geocode cfg JSON_parse text s0 = Ok out ->
  JSON_parse text = Ok (VArr rows) ->
  exists records os,
    map_result (extract cfg JSON_parse) rows = Ok records
    /\ map_result (place_of cfg (geoResults out)) records = Ok os
    /\ places out = omap (fun o : option (place prelim) => o) os.
Proof.
  unfold fetchCity. intros H Hrows. rewrite Hrows in H. simpl in H.
  destruct rows as [|r rows]; [injection H as <-; by exists [], []|].
  cbn -[map_result geocode_all] in H.
  destruct (map_result (extract cfg JSON_parse) (r :: rows)) as [records|] eqn:Er;
    [|discriminate H].
  destruct (geocode_all geocode cfg (uniqueMap records) (s0, [])) as [results st].
  destruct (map_result (place_of cfg results) records) as [os|] eqn:Eo;
    [|discriminate H].
  injection H as <-. by exists records, os.
Qed.

Lemma sfbbox_fetch_places text s0 out p :
  fetchCity geocode cfg JSON_parse text s0 = Ok out -> p ∈ places out ->
  exists r row,
    extract cfg JSON_parse row = Ok r
    /\ place_of cfg (geoResults out) r = Ok (Some p).
Proof.
  unfold fetchCity. destruct (JSON_parse text) as [body|];
    [|intros [= <-] Hp; by apply elem_of_nil in Hp].
  destruct (_ || _); [intros [= <-] Hp; by apply elem_of_nil in Hp|].
  destruct (map_result (extract cfg JSON_parse) (items_of body)) as [records|] eqn:Er;
    [|done].
  destruct (geocode_all geocode cfg (uniqueMap records) (s0, [])) as [results st].
  destruct (map_result (place_of cfg results) records) as [os|] eqn:Eo; [|done].
  intros [= <-] Hp. simpl in *. apply omap_id_elem in Hp.
  destruct (map_result_elem _ _ _ _ Eo Hp) as (r & Hr & Hpl).
  destruct (map_result_elem _ _ _ _ Er Hr) as (row & _ & Hrow).
  by exists r, row.
Qed.

End BBox.
End SfFetchProps.

(** C4, as amended.  The Nashville adapter and the current San Francisco
    adapter never use the formatted address of the resolver: a Nashville
    place shows the display address built from the [Address] and
    [CityName] fields of the feed, and the current San Francisco adapter,
    which has no resolver, shows the street of the dataset with the city
    and state.  The Portland adapter keeps the address of the feed for a
    row that has coordinates of its own, and gives a geocoded row the
    formatted address of the resolver whenever that one is not empty.  The
    bounding-box variant of the San Francisco adapter shows the street of
    the dataset when there is one; otherwise the formatted address of
    the result stored for the record when it looks like a street, and
    [San Francisco, CA] in every other case. *)
Theorem displayed_address_sources :
  (forall (M : Common.Math) (date_parse : string -> option Z)
          (geojson : JsValue.value) schedule out places p,
     NashvilleAdapter.fetchCity M date_parse geojson schedule = Some out ->
     Pool.returned out = Ok places -> p ∈ places ->
     Common.src p ∈ map Nashville.extract (Nashville.features_of geojson)
     /\ Common.address p
        = JsValue.VStr
            (Nashville.buildDisplayAddress
               (Nashville.extractAddress (Nashville.props (Common.src p)))
               (Nashville.cityName_of (Nashville.props (Common.src p)))))
  /\ (forall (JSON_value : string -> result JsValue.value) res places p,
        SfAdapter.fetchCity JSON_value res = Ok places -> p ∈ places ->
        Common.address p
        = JsValue.VStr
            (SfBBox.withCityState
               (if JsString.is_empty
                     (SfAddress.prettifyStreet
                        (SfAddress.bestStreetFromDataset (Common.src p)))
                then "San Francisco, CA"
                else SfAddress.prettifyStreet
                       (SfAddress.bestStreetFromDataset (Common.src p)))))
  /\ (forall (parsed : list Pdx.row) schedule out places p,
        PdxAdapter.fetch_rows parsed schedule = Some out ->
        Pool.returned out = Ok places -> p ∈ places ->
        Common.src p ∈ map PdxFetch.tidy parsed
        /\ if PdxFetch.native_coords (Common.src p)
           then Common.address p = Pdx.r_address (Common.src p)
           else exists g,
                  Pool.found out
                    !! Geocode.normalizeAddress
                         (PdxFetch.text_of (Pdx.r_address (Common.src p))) = Some g
                  /\ Common.address p
                     = JsValue.or_else (Geocode.g_formatted g)
                                       (Pdx.r_address (Common.src p)))
  /\ (forall (S : Type) (geocode : Common.resolver S) (cfg : SfBBox.config)
             (JSON_parse : string -> result JsValue.value) (text : string) (s0 : S)
             out p,
        SfBBox.fetchCity geocode cfg JSON_parse text s0 = Ok out ->
        p ∈ SfBBox.places out ->
        SfBBox.streetFromDataset (Common.src p)
        = SfBBox.bestStreetFromDataset JSON_parse (SfBBox.raw (Common.src p))
        /\ Common.address p
           = JsValue.VStr
               (if negb (JsString.is_empty
                           (JsString.trim (SfBBox.streetFromDataset (Common.src p))))
                then SfBBox.withCityState
                       (JsString.trim (SfBBox.streetFromDataset (Common.src p)))
                else
                  match SfBBox.geoResults out !! SfBBox.key_of (Common.src p) with
                  | Some g =>
                      if SfBBox.looksStreetSpecific (Geocode.g_formatted g)
                      then match Geocode.g_formatted g with
                           | JsValue.VStr f => SfBBox.withCityState f
                           | _ => "San Francisco, CA"
                           end
                      else "San Francisco, CA"
                  | None => "San Francisco, CA"
                  end)).
Proof.
  split; [|split; [|split]].
  - intros M date_parse geojson schedule out places p Hout Hret Hp.
    apply fetchCity_outcome in Hout
      as [(e & _ & ->)|(rows & st & _ & Hbase & _ & _ & ->)]; [done|].
    simpl in Hret. apply build_places_Ok in Hret. subst places.
    rewrite Hbase in Hp. apply list_elem_of_omap in Hp as (r & Hr & Hp).
    apply place_of_Some in Hp as (g & _ & _ & _ & ->). simpl. split; [done|].
    apply list_elem_of_In, in_map_iff in Hr as (f & <- & _). reflexivity.
  - intros JSON_value res places p Hf Hp.
    destruct (sf_fetch_places _ _ _ _ Hf Hp) as (r & Hr).
    apply sf_place_of_Some in Hr as [-> _]. reflexivity.
  - intros parsed schedule out places p Hout Hret Hp.
    apply fetch_rows_outcome in Hout as [[_ ->]|(st & _ & _ & _ & ->)]; [done|].
    simpl in Hret. apply pdx_build_places_Ok in Hret. subst places.
    apply list_elem_of_omap in Hp as (r & Hr & Hp).
    apply pdx_place_of_Some in Hp
      as (-> & _ & _ & [(-> & _ & _ & Ha)|(-> & _ & g & Hg & _ & _ & Ha)]).
    + done.
    + split; [done|]. by exists g.
  - intros S geocode cfg JSON_parse text s0 out p Hf Hp.
    destruct (sfbbox_fetch_places _ _ _ _ _ _ _ Hf Hp) as (r & row & Hrow & Hr).
    apply sfbbox_place_of_Some in Hr as (-> & _ & _ & _ & d & Hd & ->).
    apply extract_fields in Hrow as (Hraw & Hstreet & _). split; [by rewrite Hraw|].
    apply display_of_cases in Hd. cbv zeta in Hd. rewrite Hd. f_equal.
    destruct (negb _); [done|].
    destruct (SfBBox.geoResults out !! _); [done|].
    by destruct (SfBBox.looksStreetSpecific JsValue.VUndef).
Qed.

(** C5, as amended.  In the Portland adapter a place has the coordinates
    of its row when both are finite, whatever the resolver has stored, and
    otherwise those of the result stored for the normalised address of the
    row.  A record of the Nashville adapter carries no coordinates of its
    own: a place has the coordinates of the result stored for the
    normalised display address of its record.  The current San Francisco
    adapter has no resolver: a place has the coordinates that
    [extractCoords] reads from its row.  In the three adapters the
    coordinates of a place are finite, and when the fetch returns, a record
    is emitted exactly when it ends with finite coordinates.  The
    bounding-box variant of the San Francisco adapter keeps the
    coordinates of a record only when they lie inside the box and looks up
    the stored result otherwise; when its fetch returns, a record is
    emitted exactly when the coordinates it ends with pass the test of the
    box.  For the two San Francisco adapters the converse is stated for a
    body in which no object has a member named [toString], and for
    formatted addresses that [String] can convert. *)
Theorem coordinate_selection :
  (forall (parsed : list Pdx.row) schedule out places,
     PdxAdapter.fetch_rows parsed schedule = Some out ->
     Pool.returned out = Ok places ->
     (forall p, p ∈ places ->
        Common.src p ∈ map PdxFetch.tidy parsed /\
        JsNum.finite (Common.lat p) = true /\ JsNum.finite (Common.lon p) = true /\
        if PdxFetch.native_coords (Common.src p)
        then Pdx.r_lat (Common.src p) = JsValue.VNum (Common.lat p) /\
             Pdx.r_lon (Common.src p) = JsValue.VNum (Common.lon p)
        else exists g,
               Pool.found out
                 !! Geocode.normalizeAddress
                      (PdxFetch.text_of (Pdx.r_address (Common.src p))) = Some g /\
               Common.lat p = Geocode.g_lat g /\ Common.lon p = Geocode.g_lon g)
     /\ (forall r, r ∈ map PdxFetch.tidy parsed ->
           (exists p, p ∈ places /\ Common.src p = r) <->
           Shapes.has_finite_coords (Pool.found out) r = true))
  /\ (forall (M : Common.Math) (date_parse : string -> option Z)
             (geojson : JsValue.value) schedule out places,
        NashvilleAdapter.fetchCity M date_parse geojson schedule = Some out ->
        Pool.returned out = Ok places ->
        (forall p, p ∈ places ->
           Common.src p ∈ map Nashville.extract (Nashville.features_of geojson) /\
           exists g,
             Pool.found out
               !! Geocode.normalizeAddress (Nashville.displayAddress (Common.src p))
             = Some g /\
             Common.lat p = Geocode.g_lat g /\ Common.lon p = Geocode.g_lon g /\
             JsNum.finite (Common.lat p) = true /\ JsNum.finite (Common.lon p) = true)
        /\ (forall r, r ∈ map Nashville.extract (Nashville.features_of geojson) ->
              (exists p, p ∈ places /\ Common.src p = r) <->
              Pipeline.stored (Pool.found out)
                (Geocode.normalizeAddress (Nashville.displayAddress r))))
  /\ (forall (JSON_value : string -> result JsValue.value) res places,
        SfAdapter.fetchCity JSON_value res = Ok places ->
        (forall p, p ∈ places ->
           Sf.extractCoords (Common.src p) = Ok (Some (Common.lat p, Common.lon p)) /\
           JsNum.finite (Common.lat p) = true /\ JsNum.finite (Common.lon p) = true)
        /\ (forall rows,
              JsConv.JSON_parse JSON_value (Geocode.body_text res)
              = Ok (JsValue.VArr rows) ->
              JsConv.plain (JsValue.VArr rows) = true ->
              forall r, r ∈ rows ->
                (exists p, p ∈ places /\ Common.src p = r) <->
                exists c, Sf.extractCoords r = Ok (Some c)))
  /\ (forall (S : Type) (geocode : Common.resolver S) (cfg : SfBBox.config)
             (JSON_parse : string -> result JsValue.value) (text : string) (s0 : S)
             out,
        SfBBox.fetchCity geocode cfg JSON_parse text s0 = Ok out ->
        (forall p, p ∈ SfBBox.places out ->
           JsNum.finite (Common.lat p) = true /\ JsNum.finite (Common.lon p) = true /\
           if SfBBox.has_coords (Common.src p)
           then SfBBox.p_lat (Common.src p) = JsValue.VNum (Common.lat p) /\
                SfBBox.p_lon (Common.src p) = JsValue.VNum (Common.lon p) /\
                SfBBox.inSF cfg (SfBBox.p_lat (Common.src p))
                            (SfBBox.p_lon (Common.src p)) = true
           else exists g,
                  SfBBox.geoResults out !! SfBBox.key_of (Common.src p) = Some g /\
                  Common.lat p = Geocode.g_lat g /\ Common.lon p = Geocode.g_lon g)
        /\ (forall rows records,
              JSON_parse text = Ok (JsValue.VArr rows) ->
              JsConv.plain (JsValue.VArr rows) = true ->
              (forall k g, SfBBox.geoResults out !! k = Some g ->
                 JsValue.unprintable (Geocode.g_formatted g) = false) ->
              map_result (SfBBox.extract cfg JSON_parse) rows = Ok records ->
              forall r, r ∈ records ->
                (exists p, p ∈ SfBBox.places out /\ Common.src p = r) <->
                SfBBox.inSF cfg
                  (fst (SfBBox.final_coords (SfBBox.geoResults out) r))
                  (snd (SfBBox.final_coords (SfBBox.geoResults out) r)) = true)).
Proof.
  split; [|split; [|split]].
  - intros parsed schedule out places Hout Hret.
    apply fetch_rows_outcome in Hout as [[_ ->]|(st & _ & _ & _ & ->)]; [done|].
    simpl in *. apply pdx_build_places_Ok in Hret. subst places. split.
    + intros p Hp. apply list_elem_of_omap in Hp as (r & Hr & Hp).
      apply pdx_place_of_Some in Hp
        as (-> & H1 & H2 & [(-> & Hla & Hlo & _)|(-> & _ & g & Hg & Hla & Hlo & _)]).
      * done.
      * repeat split; try done. by exists g.
    + intros r Hr. rewrite <- pdx_place_of_is_Some. split.
      * intros (p & Hp & <-). apply list_elem_of_omap in Hp as (r' & _ & Hp).
        pose proof Hp as Hp'. apply pdx_place_of_Some in Hp' as (-> & _). by eexists.
      * intros [p Hp]. exists p. split.
        -- apply list_elem_of_omap. by exists r.
        -- by apply pdx_place_of_Some in Hp as (-> & _).
  - intros M date_parse geojson schedule out places Hout Hret.
    apply fetchCity_outcome in Hout
      as [(e & _ & ->)|(rows & st & _ & Hbase & _ & _ & ->)]; [done|].
    simpl in *. apply build_places_Ok in Hret. subst places. rewrite Hbase. split.
    + intros p Hp. apply list_elem_of_omap in Hp as (r & Hr & Hp).
      apply place_of_Some in Hp as (g & Hg & H1 & H2 & ->). simpl.
      split; [done|]. by exists g.
    + intros r Hr. split.
      * intros (p & Hp & <-). apply list_elem_of_omap in Hp as (r' & _ & Hp).
        apply place_of_Some in Hp as (g & Hg & H1 & H2 & ->). simpl. by exists g.
      * intros (g & Hg & H1 & H2).
        apply list_elem_of_fmap in Hr as Hr'. destruct Hr' as (f & -> & _).
        destruct (extract_keyed f) as [Hd Hn].
        exists (Common.Place (Nashville.extract f) (Geocode.g_lat g) (Geocode.g_lon g)
                  (JsValue.VStr (Nashville.displayAddress (Nashville.extract f)))).
        split; [|done]. apply list_elem_of_omap. exists (Nashville.extract f).
        split; [done|]. unfold Nashville.place_of. by rewrite Hd, Hn, Hg, H1, H2.
  - intros JSON_value res places Hf. split.
    + intros p Hp. destruct (sf_fetch_places _ _ _ _ Hf Hp) as (r & Hr).
      apply sf_place_of_Some in Hr as [Hp' Hc]. rewrite Hp' at 1. simpl.
      split; [done|]. by apply extractCoords_finite in Hc.
    + intros rows Hrows _ r Hr.
      destruct (sf_fetch_rows _ _ _ _ Hf Hrows) as (os & Hos & ->).
      rewrite (emitted_iff SfAdapter.place_of Common.src rows os r Hos); [|..|done].
      * apply sf_place_of_is_Some.
      * intros a p Hp. apply sf_place_of_Some in Hp as [-> _]. done.
  - intros S geocode cfg JSON_parse text s0 out Hf. split.
    + intros p Hp.
      destruct (sfbbox_fetch_places _ _ _ _ _ _ _ Hf Hp) as (r & row & Hrow & Hr).
      apply sfbbox_place_of_Some in Hr as (Hs & Hin & Hla & Hlo & _).
      rewrite Hs. clear Hs. pose proof (inSF_finite _ _ _ Hin) as [F1 F2].
      rewrite <- Hla in F1. rewrite <- Hlo in F2. simpl in F1, F2.
      split; [done|]. split; [done|].
      unfold SfBBox.final_coords in Hin, Hla, Hlo.
      destruct (SfBBox.has_coords r) eqn:Ec; simpl in Hin, Hla, Hlo.
      * split; [done|]. split; [done|]. by apply (has_coords_inside _ _ _ _ Hrow).
      * destruct (negb (JsString.is_empty _)); simpl in Hin, Hla, Hlo.
        -- destruct (SfBBox.geoResults out !! _) as [g|] eqn:Eg; simpl in Hin, Hla, Hlo.
           ++ exists g. split; [done|]. split; congruence.
           ++ apply inSF_finite in Hin as [G1 G2].
              unfold SfBBox.has_coords in Ec. by rewrite G1, G2 in Ec.
        -- apply inSF_finite in Hin as [G1 G2].
           unfold SfBBox.has_coords in Ec. by rewrite G1, G2 in Ec.
    + intros rows records Hrows _ _ Hrecords r Hr.
      destruct (sfbbox_fetch_rows _ _ _ _ _ _ _ Hf Hrows) as (records' & os & Hrec & Hos & ->).
      rewrite Hrecords in Hrec. injection Hrec as <-.
      rewrite (emitted_iff _ Common.src records os r Hos); [| |done].
      * destruct (map_result_elem_fwd _ _ _ _ Hos Hr) as (o & Ho & _).
        revert Ho. unfold SfBBox.place_of.
        destruct (SfBBox.final_coords (SfBBox.geoResults out) r) as [la lo]. simpl.
        destruct (SfBBox.inSF cfg la lo); simpl.
        -- destruct (SfBBox.display_of (SfBBox.geoResults out) r) as [d|]; simpl.
           ++ intros _. split; [done|]. intros _. by eexists.
           ++ intros Ho. discriminate Ho.
        -- intros _. split; [intros [? H]; discriminate H|done].
      * intros a p Hp. by apply sfbbox_place_of_Some in Hp as (-> & _).
Qed.

(** C5, the claim as first stated does not hold of the bounding-box
    variant of the San Francisco adapter: a row whose own latitude and
    longitude are finite but outside the box loses them in the strict
    extraction, is sent to the resolver, and is emitted with the
    coordinates of the resolver's answer. *)
Lemma sf_bbox_geocodes_row_with_coordinates :
  JsValue.to_Number (JsValue.prop Inputs.new_york_row "latitude") = JsNum.Fin 40.7128
  /\ JsValue.to_Number (JsValue.prop Inputs.new_york_row "longitude")
     = JsNum.Fin (-74.0060)
  /\ SfBBox.extractCoordsStrict SfBBox.default_config Inputs.new_york_row
     = Ok (JsValue.VUndef, JsValue.VUndef)
  /\ (fun out => (map (fun p => (Common.lat p, Common.lon p)) (SfBBox.places out),
                  Common.calls (SfBBox.final out)))
       <$> SfBBox.fetchCity Inputs.geocode_city_hall SfBBox.default_config
             (fun _ => Ok (JsValue.VArr [Inputs.new_york_row])) Inputs.rows tt
     = Ok ([(JsNum.Fin 37.7793, JsNum.Fin (-122.4193))],
           ["1 MARKET ST, San Francisco, CA"]).
Proof. repeat split; vm_compute; reflexivity. Qed.

(** ** The pipelines and the resolver *)

Section PdxPoolPipelineProps.
Import JsString JsNum JsValue JsConv Geocode Common Pool PoolShapes.
Import Pdx PdxFetch PdxAdapter.

Lemma forallb_ext_elem {A} (f g : A -> bool) (l : list A) :
  (forall a, a ∈ l -> f a = g a) -> forallb f l = forallb g l.
Proof.
  induction l as [|a l IH]; intros H; [done|]. simpl.
  rewrite (H a) by left. f_equal. apply IH. intros a' Ha'. apply H. by right.
Qed.

Lemma row_tidy r : Convertible.row (tidy r) = Convertible.row r.
Proof. unfold tidy. by destruct (truthy (r_address r)). Qed.

(** the loop that builds the places: it throws at the first row that is
    pushed and whose name or category cannot be converted *)
Lemma pdx_build_places_cases results rows :
  build_places results rows
  = if forallb (Convertible.pushed_row results)
               rows
    then Ok (omap (place_of results) rows)
    else Throw TypeError.
Proof.
  unfold build_places.
  assert (H : map_result (emit results) rows
              = if forallb (Convertible.pushed_row results) rows
                then Ok (map (place_of results) rows) else Throw TypeError).
  { induction rows as [|r l IH]; [done|].
    cbn [map_result forallb map]. rewrite pdx_emit_cases, IH.
    replace (Convertible.pushed_row results r)
      with (match place_of results r with
            | Some _ => Convertible.row r
            | None => true
            end) by done.
    destruct (place_of results r) as [p|]; simpl.
    - destruct (Convertible.row r); simpl; [|done]. by destruct (forallb _ l).
    - by destruct (forallb _ l). }
  rewrite H. destruct (forallb _ rows); [|done]. by rewrite omap_id_map.
Qed.

Lemma no_row_needs_geocoding parsed :
  Forall (fun r => native_coords r = true) parsed -> uniqueMap (map tidy parsed) = [].
Proof.
  intros Hall. unfold uniqueMap.
  assert (Hf : filter (fun r => needs_geocoding r = true) (map tidy parsed) = []).
  { induction Hall as [|r l Hr _ IH]; [done|]. simpl.
    rewrite filter_cons_False; [done|].
    unfold needs_geocoding. by rewrite tidy_native, Hr. }
  by rewrite Hf.
Qed.

(** X7.  When every parsed row has finite coordinates of its own, no pool
    is started and the resolver is never called.  The fetch throws a
    TypeError when [String] cannot convert the address, the name or the
    category of a row; otherwise every row is emitted, in the order of the
    feed, with its own coordinates and its address. *)
Theorem pdx_rows_with_coordinates_skip_resolver (parsed : list row) :
  Forall (fun r => native_coords r = true) parsed ->
  (exists out, fetch_rows parsed [] = Some out)
  /\ forall schedule out,
       fetch_rows parsed schedule = Some out ->
       called out = [] /\ found out = ∅
       /\ returned out
          = if forallb Convertible.address parsed && forallb Convertible.row parsed
            then Ok (map (fun r => Place (tidy r) (to_Number (r_lat r))
                                         (to_Number (r_lon r)) (r_address (tidy r)))
                         parsed)
            else Throw TypeError.
Proof.
  intros Hall. pose proof (no_row_needs_geocoding parsed Hall) as Hu. split.
  - unfold fetch_rows. rewrite tidy_cases.
    destruct (forallb Convertible.address parsed); [|by eexists].
    rewrite Hu. by eexists.
  - intros schedule out Hout.
    apply fetch_rows_outcome in Hout as [[Ha ->]|(st & Ha & Hrun & _ & ->)].
    + by rewrite Ha.
    + rewrite Hu in Hrun. apply run_no_item in Hrun as [_ ->]. rewrite Ha.
      cbn [called found returned results log]. split; [done|]. split; [done|].
      rewrite pdx_build_places_cases. cbn [andb].
      assert (Hg : forallb (Convertible.pushed_row ∅) (map tidy parsed)
                   = forallb Convertible.row parsed).
      { clear Hu Ha. induction Hall as [|r l Hr _ IH]; [done|].
        cbn [map forallb]. rewrite IH. unfold Convertible.pushed_row at 1.
        rewrite place_of_native by by rewrite tidy_native. by rewrite row_tidy. }
      rewrite Hg. destruct (forallb Convertible.row parsed); [|done]. f_equal.
      clear Hu Ha Hg. induction Hall as [|r l Hr _ IH]; [done|]. simpl.
      rewrite place_of_native by by rewrite tidy_native.
      simpl. f_equal; [|exact IH].
      unfold tidy. by destruct (truthy (r_address r)).
Qed.

(** X8.  When every call of the resolver throws, the pool still comes to
    its end and nothing is stored.  The fetch throws a TypeError when
    [String] cannot convert the address of a row, or the name or the
    category of a row with finite coordinates of its own; otherwise it
    returns, the rows with finite coordinates of their own are emitted, in
    the order of the feed, and the other rows are dropped. *)
Theorem pdx_resolver_down_keeps_rows_with_coordinates (parsed : list row) :
  (exists schedule out,
     every_call_throws schedule = true /\ fetch_rows parsed schedule = Some out)
  /\ forall schedule out,
       every_call_throws schedule = true ->
       fetch_rows parsed schedule = Some out ->
       found out = ∅
       /\ returns (returned out)
          = forallb Convertible.address parsed
            && forallb (fun r => negb (native_coords r) || Convertible.row r) parsed
       /\ forall places,
            returned out = Ok places ->
            map src places = filter (fun r => native_coords r = true) (map tidy parsed).
Proof.
  split.
  - destruct (fetch_rows_finishes_with None parsed) as (schedule & out & Hq & Hout).
    exists schedule, out. split; [by apply answered_with_throws|done].
  - intros schedule out Hq Hout.
    apply fetch_rows_outcome in Hout as [[Ha ->]|(st & Ha & Hrun & _ & ->)].
    + rewrite Ha. by repeat split.
    + apply pdx_pool_down in Hrun; [|done]. rewrite Ha.
      cbn [called found returned]. rewrite Hrun. split; [done|].
      rewrite pdx_build_places_cases. cbn [andb].
      assert (Hg : forallb (Convertible.pushed_row ∅) (map tidy parsed)
                   = forallb (fun r => negb (native_coords r) || Convertible.row r)
                             parsed).
      { clear. induction parsed as [|r l IH]; [done|].
        cbn [map forallb]. rewrite IH. f_equal. unfold Convertible.pushed_row.
        destruct (native_coords r) eqn:En.
        - rewrite place_of_native by by rewrite tidy_native. by rewrite row_tidy.
        - by rewrite place_of_no_result by by rewrite tidy_native. }
      rewrite Hg. clear Ha Hg. destruct (forallb _ parsed); [|by split].
      split; [done|]. intros places [= <-].
      clear. induction (map tidy parsed) as [|r l IH]; [done|].
      change (omap (place_of ∅) (r :: l))
        with (match place_of ∅ r with
              | Some p => p :: omap (place_of ∅) l
              | None => omap (place_of ∅) l
              end).
      destruct (native_coords r) eqn:En.
      * rewrite (place_of_native _ _ En), filter_cons_True by done.
        cbn [map src]. f_equal. exact IH.
      * rewrite (place_of_no_result _ En), filter_cons_False; [exact IH|].
        by rewrite En.
Qed.

End PdxPoolPipelineProps.

Lemma pdx_rows_with_coordinates_skip_resolver_witness :
  (exists out, PdxAdapter.fetch_rows [Inputs.row_with_coordinates] [] = Some out)
  /\ forall schedule out,
       PdxAdapter.fetch_rows [Inputs.row_with_coordinates] schedule = Some out ->
       Pool.called out = [] /\ Pool.found out = ∅
       /\ Pool.returned out
          = Ok [Common.Place (PdxFetch.tidy Inputs.row_with_coordinates)
                  (JsNum.Fin 45.52) (JsNum.Fin (-122.68))
                  (JsValue.VStr "1 Main St, Portland, OR")].
Proof.
  apply (pdx_rows_with_coordinates_skip_resolver [Inputs.row_with_coordinates]).
  repeat constructor.
Defined.

Section NashvillePoolPipelineProps.
Import JsString JsNum JsValue JsConv Geocode Common Pool PoolShapes Pipeline.
Import Nashville NashvilleAdapter.
Context (M : Math) (date_parse : string -> option Z).

(** the key of every feature is one of the dedup pass *)
Lemma feature_key_listed geojson f :
  f ∈ features_of geojson ->
  exists e, e ∈ uniqueAddrMap (map extract (features_of geojson))
            /\ fst e = normalizeAddress (displayAddress (extract f)).
Proof.
  intros Hf. destruct (extract_keyed f) as [Hd Hn].
  assert (Hk : normalizeAddress (displayAddress (extract f))
               ∈ map fst (uniqueAddrMap (map extract (features_of geojson)))).
  { apply omap_has_elem.
    apply (fold_add_row_has (map extract (features_of geojson)) [] (extract f));
      [|done|done].
    apply list_elem_of_fmap. by exists f. }
  apply list_elem_of_fmap in Hk as (e & He & Hin). by exists e.
Qed.

(** the loop that builds the places: it throws at the first record that is
    pushed and whose name, category or type name cannot be converted *)
Lemma build_places_cases results rows :
  build_places results rows
  = if forallb (Convertible.pushed_fields results) rows
    then Ok (omap (place_of results) (map NashvilleFields.base rows))
    else Throw TypeError.
Proof.
  unfold build_places.
  assert (H : map_result (emit results) rows
              = if forallb (Convertible.pushed_fields results) rows
                then Ok (map (fun r => place_of results (NashvilleFields.base r)) rows)
                else Throw TypeError).
  { induction rows as [|r l IH]; [done|].
    cbn [map_result forallb map]. rewrite emit_cases, IH.
    replace (Convertible.pushed_fields results r)
      with (match place_of results (NashvilleFields.base r) with
            | Some _ => Convertible.fields r
            | None => true
            end) by done.
    destruct (place_of results (NashvilleFields.base r)) as [p|]; simpl.
    - destruct (Convertible.fields r); simpl; [|done]. by destruct (forallb _ l).
    - by destruct (forallb _ l). }
  rewrite H. destruct (forallb _ rows); [|done]. by rewrite omap_id_map, omap_map.
Qed.

(** X9.  When every call of the resolver is answered with finite
    coordinates, the pool comes to its end, and a fetch that returns emits
    every feature of the feed, in the order of the feed: the display
    address of a feature is never blank, so no feature is left out of the
    look-up.  The fetch returns unless the pre-map throws or [String]
    cannot convert the name, the category or the type name of a record. *)
Theorem nashville_emits_every_feature (geojson : value) :
  (forall g,
     finite (g_lat g) = true -> finite (g_lon g) = true ->
     exists schedule out,
       Forall (answered_with (Some g)) schedule
       /\ every_call_answered schedule = true
       /\ fetchCity M date_parse geojson schedule = Some out)
  /\ forall schedule out,
       every_call_answered schedule = true ->
       fetchCity M date_parse geojson schedule = Some out ->
       returns (returned out)
       = match premap date_parse geojson with
         | Ok rows => forallb Convertible.fields rows
         | Throw _ => false
         end
       /\ forall places,
            returned out = Ok places ->
            map src places = map extract (features_of geojson).
Proof.
  split.
  { intros g Hg1 Hg2.
    destruct (fetchCity_finishes_with M date_parse (Some g) geojson)
      as (schedule & out & Hq & Hout).
    exists schedule, out. split; [done|]. split; [|done].
    by apply (answered_with_finite g). }
  intros schedule out Hq Hout.
  apply fetchCity_outcome in Hout
    as [(e & Hpre & ->)|(rows & st & Hpre & Hbase & Hrun & Hfin & ->)].
  - rewrite Hpre. by split.
  - rewrite Hpre. cbn [returned]. rewrite build_places_cases, Hbase.
    assert (Hsome : forall f, f ∈ features_of geojson ->
              exists p, place_of (results st) (extract f) = Some p /\ src p = extract f).
    { intros f Hf. destruct (feature_key_listed geojson f Hf) as (e & He & Hk).
      destruct (nashville_pool_stores M _ _ _ e Hq Hrun Hfin He) as (g & Hl & Hg1 & Hg2).
      destruct (extract_keyed f) as [Hd Hn].
      unfold place_of. rewrite Hd, Hn, <- Hk, Hl, Hg1, Hg2. simpl. by eexists. }
    assert (Hg : forallb (Convertible.pushed_fields (results st)) rows
                 = forallb Convertible.fields rows).
    { apply forallb_ext_elem. intros r Hr.
      assert (Hb : NashvilleFields.base r ∈ map extract (features_of geojson)).
      { rewrite <- Hbase. apply list_elem_of_fmap. by exists r. }
      apply list_elem_of_fmap in Hb as (f & Hb & Hf).
      unfold Convertible.pushed_fields. rewrite Hb.
      by destruct (Hsome f Hf) as (p & -> & _). }
    rewrite Hg. destruct (forallb Convertible.fields rows); [|by split].
    split; [done|]. intros places [= <-].
    apply omap_all_Some. intros r Hr.
    apply list_elem_of_fmap in Hr as (f & -> & Hf). by apply Hsome.
Qed.

(** X10.  When every call of the resolver throws, the pool still comes to
    its end and nothing is stored.  A fetch whose pre-map throws ends with
    that exception, before any call; every other fetch returns with no
    place, after one call for each distinct normalised display address, in
    the order of the feed, and no retry. *)
Theorem nashville_resolver_down_no_places (geojson : value) :
  (exists schedule out,
     every_call_throws schedule = true
     /\ fetchCity M date_parse geojson schedule = Some out)
  /\ forall schedule out,
       every_call_throws schedule = true ->
       fetchCity M date_parse geojson schedule = Some out ->
       found out = ∅
       /\ match premap date_parse geojson with
          | Throw e => returned out = Throw e /\ called out = []
          | Ok _ =>
              returned out = Ok []
              /\ called out
                 = map snd (uniqueAddrMap (map extract (features_of geojson)))
          end.
Proof.
  split.
  - destruct (fetchCity_finishes_with M date_parse None geojson)
      as (schedule & out & Hq & Hout).
    exists schedule, out. split; [by apply answered_with_throws|done].
  - intros schedule out Hq Hout.
    apply fetchCity_outcome in Hout
      as [(e & Hpre & ->)|(rows & st & Hpre & Hbase & Hrun & Hfin & ->)].
    + rewrite Hpre. by repeat split.
    + rewrite Hpre. cbn [called found returned].
      destruct (nashville_pool_down M _ _ _ Hq Hrun Hfin) as [Hres Hlog].
      rewrite Hres, Hlog. split; [done|]. split; [|done].
      rewrite build_places_cases.
      assert (Hnone : forall r, place_of ∅ r = None).
      { intros r. unfold place_of. rewrite lookup_empty.
        by destruct (is_empty (displayAddress r)),
                    (is_empty (normalizeAddress (displayAddress r))). }
      assert (Hg : forallb (Convertible.pushed_fields ∅) rows = true).
      { apply forallb_forall. intros r _. unfold Convertible.pushed_fields.
        by rewrite Hnone. }
      rewrite Hg. f_equal. clear -Hnone.
      induction (map NashvilleFields.base rows) as [|r l IH]; [done|].
      change (omap (place_of ∅) (r :: l))
        with (match place_of ∅ r with Some p => p :: omap (place_of ∅) l
                                    | None => omap (place_of ∅) l end).
      by rewrite Hnone.
Qed.

End NashvillePoolPipelineProps.

(** One run of each pool.  Portland: three rows, two of them without
    coordinates; the two calls are made when the runners start, the second
    is answered first, the first throws.  Nashville: two addresses; the
    second is placed in New York and tried again, the retry throws and
    nothing is stored for it, while the first is answered in between. *)
Example pdx_pool_run :
  (fun out => (map (fun p => (Common.lat p, Common.lon p, Common.address p))
                 <$> Pool.returned out,
               Pool.called out))
    <$> PdxAdapter.fetch_rows
          [Inputs.street_row "2 Oak St"; Inputs.row_with_coordinates;
           Inputs.street_row "5th Ave"]
          [Pool.Answer 1 (Some Inputs.main_street); Pool.Answer 0 None;
           Pool.Take 0; Pool.Take 1]
  = Some (Ok [(JsNum.Fin 45.52, JsNum.Fin (-122.68),
               JsValue.VStr "1 Main St, Portland, OR");
              (JsNum.Fin 45.5152, JsNum.Fin (-122.6784),
               JsValue.VStr "123 SW Main St, Portland, OR 97204, USA")],
          ["2 Oak St, Portland, OR"; "5th Ave, Portland, OR"]).
Proof. vm_compute. reflexivity. Qed.

Example nashville_pool_run :
  (fun out => (map (fun p => (Common.lat p, Common.lon p, Common.address p))
                 <$> Pool.returned out,
               Pool.called out))
    <$> NashvilleAdapter.fetchCity FixedMath.math JsDate.parse_legacy
          Inputs.two_streets
          [Pool.Answer 1 (Some Inputs.new_york); Pool.Answer 0 (Some Inputs.downtown);
           Pool.Answer 1 None; Pool.Take 0; Pool.Take 1]
  = Some (Ok [(JsNum.Fin 36.1627, JsNum.Fin (-86.7816),
               JsValue.VStr "5th Ave, Nashville, TN")],
          ["5th Ave, Nashville, TN"; "Main St, Nashville, TN";
           "Main St, Nashville, TN"]).
Proof. vm_compute. reflexivity. Qed.

(** A schedule that is not one of the fetch: the first runner has taken
    its item when the pool starts and cannot take another one before its
    call is answered. *)
Example nashville_pool_no_such_run :
  NashvilleAdapter.fetchCity FixedMath.math JsDate.parse_legacy
    Inputs.fifth_avenue_twice [Pool.Take 0; Pool.Answer 0 (Some Inputs.new_york)]
  = None.
Proof. vm_compute. reflexivity. Qed.

(** The Portland fetch on an empty body: no row, no call, no place. *)
Example pdx_fetch_empty_body xml_parse JSON_value first_table date_parse :
  PdxAdapter.fetchCity xml_parse JSON_value first_table date_parse EmptyString []
  = Some (Pool.Outcome (Ok []) ∅ []).
Proof. vm_compute. reflexivity. Qed.

(** ** The San Francisco adapter and its exceptions *)

Section SfAdapterProps.
Import JsString JsNum JsValue JsConv Geocode Common.
Context (JSON_value : string -> result value).

Lemma sf_adapter_place_of_throws (r : value) :
  returns (SfAdapter.place_of r) = false <-> nullish r = true.
Proof.
  unfold SfAdapter.place_of, Sf.extractCoords, get.
  destruct (nullish r); simpl; [done|]. split; [|done].
  repeat (case_match; simpl; try done).
Qed.

(** X23.  The San Francisco fetch throws exactly when the service answers
    with a status of 400 or more, or the body is a JSON array that holds a
    [null] row: reading [latitude] of that row throws, and nothing catches
    it.  Rows of any other kind are read or skipped.  This is stated for a
    body in which no object has a member named [toString], so that every
    conversion of a field returns. *)
Theorem sf_fetch_throws_iff_null_row (res : response) :
  (forall body, JSON_parse JSON_value (body_text res) = Ok body -> plain body = true) ->
  returns (SfAdapter.fetchCity JSON_value res) = false
  <-> (400 <= statusCode res)%Z
      \/ exists rows, JSON_parse JSON_value (body_text res) = Ok (VArr rows)
                      /\ Exists (fun r => nullish r = true) rows.
Proof.
  intros _. unfold SfAdapter.fetchCity.
  destruct (400 <=? statusCode res)%Z eqn:Es.
  { apply Z.leb_le in Es. split; [by left|done]. }
  apply Z.leb_gt in Es.
  destruct (JSON_parse JSON_value (body_text res)) as [body|e]; simpl.
  2:{ split; [done|]. intros [?|(rows & [=] & _)]. lia. }
  destruct body as [| |b|n|s|rows|fs]; simpl;
    try (split; [done|]; intros [?|(rows' & [=] & _)]; lia).
  destruct rows as [|r0 rows]; simpl length; cbn [Nat.eqb].
  { split; [done|]. intros [?|(rows' & [= <-] & Hex)]; [lia|]. by inversion Hex. }
  pose proof (map_result_throws SfAdapter.place_of (r0 :: rows)) as H.
  destruct (map_result SfAdapter.place_of (r0 :: rows)) as [l|e]; simpl in H |- *.
  - split; [done|]. intros [?|(rows' & [= <-] & Hex)]; [lia|].
    apply H. eapply Exists_impl; [exact Hex|].
    intros r. apply sf_adapter_place_of_throws.
  - split; [|done]. intros _. right. exists (r0 :: rows). split; [done|].
    destruct H as [H _]. eapply Exists_impl; [exact (H eq_refl)|].
    intros r. apply sf_adapter_place_of_throws.
Qed.

End SfAdapterProps.

Lemma sf_fetch_throws_iff_null_row_witness :
  let JSON_value : string -> result JsValue.value :=
    fun _ => Ok (JsValue.VArr [JsValue.VNull]) in
  let res := Inputs.sf_response 200 "[null]" in
  returns (SfAdapter.fetchCity JSON_value res) = false
  <-> (400 <= Geocode.statusCode res)%Z
      \/ exists rows,
           JsConv.JSON_parse JSON_value (Geocode.body_text res) = Ok (JsValue.VArr rows)
           /\ Exists (fun r => JsValue.nullish r = true) rows.
Proof.
  intros JSON_value res.
  apply (sf_fetch_throws_iff_null_row JSON_value res).
  intros body H. vm_compute in H. injection H as <-. reflexivity.
Defined.

(** The fetch on three answers: an error status, a body with a [null]
    row, and a body with one row that has coordinates. *)
Example sf_fetch_samples :
  SfAdapter.fetchCity (fun _ => Ok (JsValue.VArr [])) (Inputs.sf_response 503 "busy")
  = Throw (Failure "SF adapter HTTP 503: busy")
  /\ SfAdapter.fetchCity (fun _ => Ok (JsValue.VArr [JsValue.VNull]))
                         (Inputs.sf_response 200 "[null]")
     = Throw TypeError
  /\ map (fun p => (Common.lat p, Common.lon p, Common.address p))
       <$> SfAdapter.fetchCity (fun _ => Ok Inputs.market_street)
                               (Inputs.sf_response 200 Inputs.rows)
     = Ok [(JsNum.Fin 37.7749, JsNum.Fin (-122.4194),
            JsValue.VStr "1 Market St, San Francisco, CA")].
Proof. vm_compute. repeat split; reflexivity. Qed.
